(** * flipper-lightweight-gen: generation core of the Flipper pattern generator

    A shallow embedding of [flipper-lightweight-gen.c]: the xorshift stream,
    the sine table, the hash noise, the gradient evaluator, the
    Floyd-Steinberg pass and the per-frame parameter evolution.

    Machine integers are [Z] with their wrap-around written out; the raster
    is a [list Z] updated by index, the loop counters over it are [nat];
    [float] is IEEE-754 binary32 in the standard library's [SpecFloat]
    (round to nearest even, every operation rounded to single precision, no
    fused multiply-add).  What the C standard leaves to the platform
    ([atan2f], a float-to-integer conversion whose value does not fit) is a
    field of [Platform]. *)

From Stdlib Require Import ZArith Znumtheory Bool List Lia QArith.
From Stdlib Require Import Floats.SpecFloat.
From stdpp Require Import base list.

Local Open Scope Z_scope.

(** ** Machine integers *)

Definition u8 (z : Z) : Z := z mod 2 ^ 8.
Definition u32 (z : Z) : Z := z mod 2 ^ 32.

(** ** Pseudo-random stream *)

(** [xorshift32(uint32_t* state)]: the pair is (returned value, new [*state]). *)
Definition xorshift32 (state : Z) : Z * Z :=
  let state := Z.lxor state (u32 (Z.shiftl state 13)) in
  let state := Z.lxor state (Z.shiftr state 17) in
  let state := Z.lxor state (u32 (Z.shiftl state 5)) in
  (state, state).

(** One xor-with-left-shift step and one xor-with-right-shift step on a
    32-bit word, named so that the order of the three steps can be stated. *)
Definition xor_shl (k x : Z) : Z := Z.lxor x (u32 (Z.shiftl x k)).
Definition xor_shr (k x : Z) : Z := Z.lxor x (Z.shiftr x k).

(** ** Sine table *)

Definition sine_table : list Z :=
  [ 0; 6; 12; 18; 24; 30; 36; 41; 46; 50; 54; 57; 60; 62; 63; 64;
    63; 62; 60; 57; 54; 50; 46; 41; 36; 30; 24; 18; 12; 6; 0; -6;
    -12; -18; -24; -30; -36; -41; -46; -50; -54; -57; -60; -62; -63; -64;
    -63; -62; -60; -57; -54; -50; -46; -41; -36; -30; -24; -18; -12; -6; 0; 0; 0; 0 ].

Definition fast_sin (angle : Z) : Z :=
  nth (Z.to_nat (Z.land angle 63)) sine_table 0.

(** ** Hash noise *)

Definition simple_noise (x y seed : Z) : Z :=
  let hash := u32 (u32 (u32 (x * 374761393) + u32 (y * 668265263)) + seed) in
  let hash := u32 (Z.lxor hash (Z.shiftr hash 13) * 1274126177) in
  Z.land (Z.lxor hash (Z.shiftr hash 16)) 255.

(** ** Raster and the Floyd-Steinberg pass *)

Definition SCREEN_WIDTH : nat := 128.
Definition SCREEN_HEIGHT : nat := 64.

(** [pixels[idx]] and [pixels[idx] = v]; every access of the source is
    inside the array. *)
Definition px (pixels : list Z) (idx : nat) : Z := default 0 (pixels !! idx).
Definition set_px (pixels : list Z) (idx : nat) (v : Z) : list Z := <[idx := v]> pixels.

(** [(new_val < 0) ? 0 : (new_val > 255) ? 255 : new_val] *)
Definition clamp255 (new_val : Z) : Z :=
  if new_val <? 0 then 0 else if new_val >? 255 then 255 else new_val.

(** [old_pixel > 127 ? 255 : 0] *)
Definition threshold (old_pixel : Z) : Z := if old_pixel >? 127 then 255 else 0.

(** One neighbour update: [new_val = pixels[idx] + (error * num) / 16],
    stored clamped.  C's [/] on [int] truncates toward zero: [Z.quot]. *)
Definition diffuse (pixels : list Z) (idx : nat) (error num : Z) : list Z :=
  let new_val := px pixels idx + Z.quot (error * num) 16 in
  set_px pixels idx (clamp255 new_val).

(** The body of the inner loop of [apply_dither] at column [x] of row [y]. *)
Definition dither_pixel (pixels : list Z) (y x : nat) : list Z :=
  let idx := (y * SCREEN_WIDTH + x)%nat in
  let old_pixel := px pixels idx in
  let new_pixel := threshold old_pixel in
  let pixels := set_px pixels idx new_pixel in
  let error := old_pixel - new_pixel in
  let pixels :=
    if (x + 1 <? SCREEN_WIDTH)%nat
    then diffuse pixels (y * SCREEN_WIDTH + (x + 1))%nat error 7
    else pixels in
  if (y + 1 <? SCREEN_HEIGHT)%nat then
    let pixels :=
      if (0 <? x)%nat
      then diffuse pixels ((y + 1) * SCREEN_WIDTH + (x - 1))%nat error 3
      else pixels in
    let pixels := diffuse pixels ((y + 1) * SCREEN_WIDTH + x)%nat error 5 in
    if (x + 1 <? SCREEN_WIDTH)%nat
    then diffuse pixels ((y + 1) * SCREEN_WIDTH + (x + 1))%nat error 1
    else pixels
  else pixels.

(** Both raster loops of the source have the shape
    [for(int y = 0; y < SCREEN_HEIGHT; y++) for(int x = 0; x < SCREEN_WIDTH; x++) body]:
    [scan_cols] is the inner loop over columns [from .. from+count-1] of row
    [y], [scan_rows] the outer loop over rows [from .. from+count-1]. *)
Definition scan_cols {S : Type} (body : S -> nat -> nat -> S)
    (y from count : nat) (s : S) : S :=
  fold_left (fun s x => body s y x) (seq from count) s.

Definition scan_rows {S : Type} (body : S -> nat -> nat -> S)
    (from count : nat) (s : S) : S :=
  fold_left (fun s y => scan_cols body y 0 SCREEN_WIDTH s) (seq from count) s.

(** The state when the loops reach pixel [(x, y)]: rows [0..y-1] done,
    columns [0..x-1] of row [y] done. *)
Definition scan_before {S : Type} (body : S -> nat -> nat -> S)
    (y x : nat) (s : S) : S :=
  scan_cols body y 0 x (scan_rows body 0 y s).

Definition apply_dither (pixels : list Z) : list Z :=
  scan_rows dither_pixel 0 SCREEN_HEIGHT pixels.

(** ** binary32 arithmetic *)

Abbreviation float := spec_float.

Definition f32_prec : Z := 24.
Definition f32_emax : Z := 128.

Definition f32_add : float -> float -> float := SFadd f32_prec f32_emax.
Definition f32_sub : float -> float -> float := SFsub f32_prec f32_emax.
Definition f32_mul : float -> float -> float := SFmul f32_prec f32_emax.
Definition f32_div : float -> float -> float := SFdiv f32_prec f32_emax.
Definition sqrtf : float -> float := SFsqrt f32_prec f32_emax.

(** [(float)z] for an integer [z]. *)
Definition f32_of_Z (z : Z) : float := binary_normalize f32_prec f32_emax z 0 false.

(** The decimal literal [num/den] with an [f] suffix, rounded to nearest. *)
Definition f32_lit (num den : Z) : float := f32_div (f32_of_Z num) (f32_of_Z den).

(** The exact value of a finite float is [f32_num f * 2 ^ f32_exp f]. *)
Definition sgn_Z (s : bool) (m : positive) : Z := if s then Zneg m else Zpos m.

Definition f32_num (f : float) : Z :=
  match f with S754_finite s m _ => sgn_Z s m | _ => 0 end.

Definition f32_exp (f : float) : Z :=
  match f with S754_finite _ _ e => e | _ => 0 end.

(** Order of [m1 * 2^e1] and [m2 * 2^e2], both brought to the smaller exponent. *)
Definition cmp_scaled (m1 e1 m2 e2 : Z) : comparison :=
  let e := Z.min e1 e2 in
  Z.compare (m1 * 2 ^ (e1 - e)) (m2 * 2 ^ (e2 - e)).

(** IEEE comparison by value: [None] when an operand is a NaN. *)
Definition f32_compare (a b : float) : option comparison :=
  match a, b with
  | S754_nan, _ | _, S754_nan => None
  | S754_infinity s1, S754_infinity s2 =>
      Some (match s1, s2 with
            | true, true | false, false => Eq
            | true, false => Lt
            | false, true => Gt
            end)
  | S754_infinity s, _ => Some (if s then Lt else Gt)
  | _, S754_infinity s => Some (if s then Gt else Lt)
  | _, _ => Some (cmp_scaled (f32_num a) (f32_exp a) (f32_num b) (f32_exp b))
  end.

(** C's [a < b] and [a > b] on floats: false when unordered. *)
Definition f32_lt (a b : float) : bool :=
  match f32_compare a b with Some Lt => true | _ => false end.
Definition f32_gt (a b : float) : bool := f32_lt b a.

(** [fmaxf] and [fminf]: a NaN operand is ignored. *)
Definition fmaxf (a b : float) : float :=
  match a, b with
  | S754_nan, _ => b
  | _, S754_nan => a
  | _, _ => if f32_lt a b then b else a
  end.

Definition fminf (a b : float) : float :=
  match a, b with
  | S754_nan, _ => b
  | _, S754_nan => a
  | _, _ => if f32_lt b a then b else a
  end.

(** [fmodf x y]: [x - n*y] for the integer [n] that leaves a result with the
    sign of [x] and magnitude below [|y|]; the result is exact. *)
Definition fmodf (x y : float) : float :=
  match x, y with
  | S754_nan, _ | _, S754_nan => S754_nan
  | S754_infinity _, _ => S754_nan
  | _, S754_zero _ => S754_nan
  | S754_zero _, _ => x
  | _, S754_infinity _ => x
  | S754_finite sx mx ex, S754_finite sy my ey =>
      let e := Z.min ex ey in
      let r := Z.rem (Zpos mx * 2 ^ (ex - e)) (Zpos my * 2 ^ (ey - e)) in
      binary_normalize f32_prec f32_emax (if sx then - r else r) e sx
  end.

(** The integral part of a float, toward zero; none for infinities and NaN. *)
Definition f32_trunc (f : float) : option Z :=
  match f with
  | S754_zero _ => Some 0
  | S754_finite s m e =>
      Some (if 0 <=? e then sgn_Z s m * 2 ^ e else Z.quot (sgn_Z s m) (2 ^ (- e)))
  | _ => None
  end.

(** ** The evolution block's random stream *)

(** The local [rng_state] of the evolution block, with a count of the
    calls to [xorshift32] made on it (the count is not in the source; it
    lets the number of draws be stated). *)
Record rng := { rng_state : Z; rng_draws : nat }.

Definition Rng (A : Type) : Type := rng -> A * rng.

Definition ret {A} (a : A) : Rng A := fun r => (a, r).

Definition bind {A B} (c : Rng A) (k : A -> Rng B) : Rng B :=
  fun r => let (a, r') := c r in k a r'.

Notation "x <- c1 ;; c2" := (bind c1 (fun x => c2))
  (at level 100, c1 at next level, right associativity).

(** What the platform supplies. *)
Class Platform := {
  (** libm's [atan2f] *)
  atan2f : float -> float -> float;
  (** the result of [(uint8_t)f] when the integral part of [f] is not in
      [0..255], which C leaves undefined *)
  u8_of_float_unrepresentable : float -> Z;
  (** the same for [(uint32_t)f] *)
  u32_of_float_unrepresentable : float -> Z
}.

Section Generator.
Context {platform : Platform}.

(** [(uint8_t)f] *)
Definition cast_u8 (f : float) : Z :=
  match f32_trunc f with
  | Some z => if (0 <=? z) && (z <=? 255) then z else u8 (u8_of_float_unrepresentable f)
  | None => u8 (u8_of_float_unrepresentable f)
  end.

(** [(uint32_t)f] *)
Definition cast_u32 (f : float) : Z :=
  match f32_trunc f with
  | Some z => if (0 <=? z) && (z <? 2 ^ 32) then z else u32 (u32_of_float_unrepresentable f)
  | None => u32 (u32_of_float_unrepresentable f)
  end.

(** ** Generator state *)

Record GenerativeState := {
  pixels : list Z;
  seed : Z;
  mode : Z;
  gradient_type : Z;
  frequency : float;
  noise_scale : float;
  invert : bool;
  frame_count : Z
}.

Definition with_pixels (st : GenerativeState) (p : list Z) : GenerativeState :=
  {| pixels := p; seed := seed st; mode := mode st;
     gradient_type := gradient_type st; frequency := frequency st;
     noise_scale := noise_scale st; invert := invert st;
     frame_count := frame_count st |}.

Definition with_frame_count (st : GenerativeState) (n : Z) : GenerativeState :=
  {| pixels := pixels st; seed := seed st; mode := mode st;
     gradient_type := gradient_type st; frequency := frequency st;
     noise_scale := noise_scale st; invert := invert st;
     frame_count := n |}.

Definition with_gradient_type (st : GenerativeState) (g : Z) : GenerativeState :=
  {| pixels := pixels st; seed := seed st; mode := mode st;
     gradient_type := g; frequency := frequency st;
     noise_scale := noise_scale st; invert := invert st;
     frame_count := frame_count st |}.

Definition with_frequency (st : GenerativeState) (f : float) : GenerativeState :=
  {| pixels := pixels st; seed := seed st; mode := mode st;
     gradient_type := gradient_type st; frequency := f;
     noise_scale := noise_scale st; invert := invert st;
     frame_count := frame_count st |}.

Definition with_noise_scale (st : GenerativeState) (f : float) : GenerativeState :=
  {| pixels := pixels st; seed := seed st; mode := mode st;
     gradient_type := gradient_type st; frequency := frequency st;
     noise_scale := f; invert := invert st;
     frame_count := frame_count st |}.

Definition with_invert (st : GenerativeState) (b : bool) : GenerativeState :=
  {| pixels := pixels st; seed := seed st; mode := mode st;
     gradient_type := gradient_type st; frequency := frequency st;
     noise_scale := noise_scale st; invert := b;
     frame_count := frame_count st |}.

Definition with_seed (st : GenerativeState) (s : Z) : GenerativeState :=
  {| pixels := pixels st; seed := s; mode := mode st;
     gradient_type := gradient_type st; frequency := frequency st;
     noise_scale := noise_scale st; invert := invert st;
     frame_count := frame_count st |}.

(** The generation parameters other than the frame counter. *)
Definition parameters (st : GenerativeState) : Z * Z * float * float * bool :=
  (seed st, gradient_type st, frequency st, noise_scale st, invert st).

(** ** Gradient generators *)

(** The [switch(state->gradient_type)] of [generate_gradient]: the value
    before noise overlay, clamping and inversion. *)
Definition gradient_switch (x y : Z) (nx ny : float) (state : GenerativeState) : float :=
  match gradient_type state with
  | 0 => nx
  | 1 => ny
  | 2 =>
      let dx := f32_sub nx (f32_lit 5 10) in
      let dy := f32_sub ny (f32_lit 5 10) in
      f32_mul (sqrtf (f32_add (f32_mul dx dx) (f32_mul dy dy))) (f32_lit 1414 1000)
  | 3 => f32_div (f32_add nx ny) (f32_of_Z 2)
  | 4 =>
      let angle := cast_u8 (f32_mul (f32_mul nx (f32_of_Z 64)) (frequency state)) in
      f32_div (f32_of_Z (fast_sin angle + 64)) (f32_of_Z 128)
  | 5 =>
      let angle :=
        cast_u8 (f32_add (f32_mul (f32_mul ny (f32_of_Z 64)) (frequency state))
                         (f32_of_Z 16)) in
      f32_div (f32_of_Z (fast_sin angle + 64)) (f32_of_Z 128)
  | 6 =>
      let wave1 := fast_sin (cast_u8 (f32_mul (f32_mul nx (f32_of_Z 32)) (frequency state))) in
      let wave2 := fast_sin (cast_u8 (f32_mul (f32_mul ny (f32_of_Z 32)) (frequency state))) in
      f32_div (f32_of_Z (Z.quot (wave1 * wave2) 64 + 64)) (f32_of_Z 128)
  | 7 =>
      let check_x := Z.land (cast_u8 (f32_mul (f32_mul nx (f32_of_Z 8)) (frequency state))) 1 in
      let check_y := Z.land (cast_u8 (f32_mul (f32_mul ny (f32_of_Z 8)) (frequency state))) 1 in
      if Z.lxor check_x check_y =? 0 then f32_of_Z 0 else f32_of_Z 1
  | 8 => f32_div (f32_of_Z (simple_noise x y (seed state))) (f32_of_Z 255)
  | 9 =>
      let dx := f32_sub nx (f32_lit 5 10) in
      let dy := f32_sub ny (f32_lit 5 10) in
      let angle := atan2f dy dx in
      let dist := sqrtf (f32_add (f32_mul dx dx) (f32_mul dy dy)) in
      f32_div (fmodf (f32_add angle (f32_mul dist (f32_of_Z 10))) (f32_lit 628 100))
              (f32_lit 628 100)
  | _ => nx
  end.

(** The noise overlay: [value * 0.7f + noise * 0.3f] when [noise_scale > 0]. *)
Definition noise_overlay (x y : Z) (value : float) (state : GenerativeState) : float :=
  if f32_gt (noise_scale state) (f32_of_Z 0) then
    let noise :=
      f32_div
        (f32_of_Z (simple_noise (cast_u32 (f32_mul (f32_of_Z x) (noise_scale state)))
                                (cast_u32 (f32_mul (f32_of_Z y) (noise_scale state)))
                                (seed state)))
        (f32_of_Z 255) in
    f32_add (f32_mul value (f32_lit 7 10)) (f32_mul noise (f32_lit 3 10))
  else value.

(** Clamp to [0, 1], then invert if asked. *)
Definition clamp_invert (value : float) (state : GenerativeState) : float :=
  let value := if f32_lt value (f32_of_Z 0) then f32_of_Z 0 else value in
  let value := if f32_gt value (f32_of_Z 1) then f32_of_Z 1 else value in
  if invert state then f32_sub (f32_of_Z 1) value else value.

(** The float handed to the final [(uint8_t)] conversion, [value * 255]. *)
Definition gradient_scaled (x y : Z) (state : GenerativeState) : float :=
  let nx := f32_div (f32_of_Z x) (f32_of_Z (Z.of_nat SCREEN_WIDTH)) in
  let ny := f32_div (f32_of_Z y) (f32_of_Z (Z.of_nat SCREEN_HEIGHT)) in
  let value := gradient_switch x y nx ny state in
  let value := noise_overlay x y value state in
  let value := clamp_invert value state in
  f32_mul value (f32_of_Z 255).

Definition generate_gradient (x y : Z) (state : GenerativeState) : Z :=
  cast_u8 (gradient_scaled x y state).

(** ** Frame generation *)

(** [state->pixels[y * SCREEN_WIDTH + x] = generate_gradient(x, y, state)];
    the [int] coordinates are converted to [uint8_t] arguments. *)
Definition fill_pixel (state : GenerativeState) (y x : nat) : GenerativeState :=
  with_pixels state
    (set_px (pixels state) (y * SCREEN_WIDTH + x)
            (generate_gradient (u8 (Z.of_nat x)) (u8 (Z.of_nat y)) state)).

(** [xorshift32(&rng_state)] *)
Definition draw : Rng Z :=
  fun r => let (v, s) := xorshift32 (rng_state r) in
           (v, {| rng_state := s; rng_draws := S (rng_draws r) |}).

(** [0.5f + (float)(d % 100) / 50.0f] and [(float)(d % 50) / 1000.0f],
    the values the source gives to [frequency] and [noise_scale] from a
    32-bit word [d]. *)
Definition frequency_of (d : Z) : float :=
  f32_add (f32_lit 5 10) (f32_div (f32_of_Z (d mod 100)) (f32_of_Z 50)).

Definition noise_scale_of (d : Z) : float :=
  f32_div (f32_of_Z (d mod 50)) (f32_of_Z 1000).

(** The body of [if(state->frame_count % 30 == 0) { ... }]. *)
Definition evolve (state : GenerativeState) : Rng GenerativeState :=
  d <- draw ;;
  state <- (if d mod 100 <? 20
            then g <- draw ;; ret (with_gradient_type state (u8 (g mod 10)))
            else ret state) ;;
  d <- draw ;;
  let state := with_frequency state (frequency_of d) in
  d <- draw ;;
  let state := with_noise_scale state (noise_scale_of d) in
  d <- draw ;;
  ret (if d mod 100 <? 10 then with_invert state (negb (invert state)) else state).

(** The evolution step of [generate_frame], from [state->frame_count++] on. *)
Definition evolve_parameters (state : GenerativeState) : GenerativeState * rng :=
  let state := with_frame_count state (u8 (frame_count state + 1)) in
  let rng_state := u32 (seed state + frame_count state) in
  if frame_count state mod 30 =? 0
  then evolve state {| rng_state := rng_state; rng_draws := 0 |}
  else (state, {| rng_state := rng_state; rng_draws := 0 |}).

Definition generate_frame (state : GenerativeState) : GenerativeState :=
  let state := scan_rows fill_pixel 0 SCREEN_HEIGHT state in
  let state := with_pixels state (apply_dither (pixels state)) in
  fst (evolve_parameters state).

(** ** Input *)

(** [InputKey] and [InputType] are the enumerations of the Flipper SDK's
    input header, in its order; the source reads [InputTypePress] and the
    keys. *)

Inductive InputKey :=
  InputKeyUp | InputKeyDown | InputKeyRight | InputKeyLeft
| InputKeyOk | InputKeyBack | InputKeyMAX.

Inductive InputType :=
  InputTypePress | InputTypeRelease | InputTypeShort | InputTypeLong
| InputTypeRepeat | InputTypeMAX.

Record InputEvent := { type : InputType; key : InputKey }.

(** [input_callback] on the generator state; [tick] is what
    [furi_get_tick()] returns when the callback runs. *)
Definition input_callback (tick : Z) (input_event : InputEvent)
    (state : GenerativeState) : GenerativeState :=
  match type input_event with
  | InputTypePress =>
      match key input_event with
      | InputKeyOk =>
          let state := with_seed state tick in
          let state := with_gradient_type state (u8 (seed state mod 10)) in
          with_frequency state (frequency_of (seed state))
      | InputKeyUp =>
          with_gradient_type state (u8 ((gradient_type state + 1) mod 10))
      | InputKeyDown =>
          with_gradient_type state (u8 ((gradient_type state + 9) mod 10))
      | InputKeyLeft =>
          with_frequency state
            (fmaxf (f32_lit 1 10) (f32_sub (frequency state) (f32_lit 1 10)))
      | InputKeyRight =>
          with_frequency state
            (fminf (f32_of_Z 4) (f32_add (frequency state) (f32_lit 1 10)))
      | InputKeyBack => state
      | InputKeyMAX => state
      end
  | _ => state
  end.

(** The state [flipper_gen_app_alloc] builds before its first
    [generate_frame]: [raster] is the content of the fresh allocation. *)
Definition initial_state (tick : Z) (raster : list Z) : GenerativeState :=
  {| pixels := raster; seed := tick; mode := 0; gradient_type := 0;
     frequency := f32_of_Z 1; noise_scale := f32_lit 5 100;
     invert := false; frame_count := 0 |}.

End Generator.

(** The [k]-th value of the xorshift stream started at [s] (the value a
    call returns is the state it leaves). *)
Definition stream (s : Z) (k : nat) : Z :=
  Nat.iter k (fun s => snd (xorshift32 s)) s.

(** [n] calls of [generate_frame]. *)
Definition frames `{Platform} (n : nat) (st : GenerativeState) : GenerativeState :=
  Nat.iter n generate_frame st.

(** A platform for closed examples: out-of-range conversions saturate to
    the 32-bit range and keep the low bits, and [atan2f] is the constant
    [+0].  No general statement below depends on these choices. *)
Definition saturate_u32 (f : float) : Z :=
  match f with
  | S754_finite false _ _ | S754_infinity false => 2 ^ 32 - 1
  | _ => 0
  end.

Definition example_platform : Platform :=
  {| atan2f := fun _ _ => S754_zero false;
     u8_of_float_unrepresentable := saturate_u32;
     u32_of_float_unrepresentable := saturate_u32 |}.

(** * Vocabulary of the statements *)

(** ** Rounding to binary32 and the order of values *)

(** The exponent of the binary32 format for a number of [e] binary digits. *)
Definition fexp32 (e : Z) : Z := Z.max (e - 24) (-149).

(** [k] right shifts of a non-negative mantissa [M]: the quotient by
    [2^k], with both location bits clear when nothing was shifted out. *)
Definition shr_ok (M k : Z) (r : shr_record) : Prop :=
  shr_m r = M / 2 ^ k /\
  (M mod 2 ^ k = 0 -> shr_r r = false /\ shr_s r = false).

(** [m1 * 2^e1 <= m2 * 2^e2], compared at the smaller exponent. *)
Definition vle (m1 e1 m2 e2 : Z) : Prop :=
  m1 * 2 ^ (e1 - Z.min e1 e2) <= m2 * 2 ^ (e2 - Z.min e1 e2).

(** The float [binary_round_aux] builds from its final mantissa and exponent. *)
Definition round_result (s : bool) (mf ef : Z) : float :=
  match mf with
  | Z0 => S754_zero s
  | Zpos p => if ef <=? 104 then S754_finite s p ef else S754_infinity s
  | Zneg _ => S754_nan
  end.

(** A float of sign [s] that is zero or finite with magnitude at most
    [mb * 2^eb]. *)
Definition below (s : bool) (f : float) (mb eb : Z) : Prop :=
  match f with
  | S754_zero s' => s' = s
  | S754_finite s' m e => s' = s /\ vle (Zpos m) e mb eb
  | _ => False
  end.

(** A float of sign [s] that is finite with magnitude at least
    [ml * 2^el], or infinite. *)
Definition above (s : bool) (f : float) (ml el : Z) : Prop :=
  match f with
  | S754_infinity s' => s' = s
  | S754_finite s' m e => s' = s /\ vle ml el (Zpos m) e
  | _ => False
  end.

(** [mb * 2^eb] is a positive number of the binary32 format below the
    overflow threshold. *)
Definition format32 (mb eb : Z) : Prop :=
  0 < mb /\ fexp32 (Zdigits2 mb + eb) = eb /\ eb <= 104.

(** The sign of what [binary_round_aux] builds is the sign it is given. *)
Definition has_sign (s : bool) (f : float) : Prop :=
  match f with
  | S754_zero s' | S754_infinity s' | S754_finite s' _ _ => s' = s
  | S754_nan => False
  end.

(** A float that is zero or finite. *)
Definition is_finite (f : float) : bool :=
  match f with S754_zero _ | S754_finite _ _ _ => true | _ => false end.

(** A float that is zero or finite with magnitude at most [mb * 2^eb]. *)
Definition mag_le (f : float) (mb eb : Z) : Prop :=
  match f with
  | S754_zero _ => True
  | S754_finite _ m e => vle (Zpos m) e mb eb
  | _ => False
  end.

(** A float that is zero, or positive and at most 1. *)
Definition unit_range (f : float) : Prop :=
  match f with
  | S754_zero _ => True
  | S754_finite false m e => vle (Zpos m) e (2 ^ 23) (-23)
  | _ => False
  end.

(** [nx] and [ny] of [generate_gradient]. *)
Definition norm_x (x : Z) : float := f32_div (f32_of_Z x) (f32_of_Z (Z.of_nat SCREEN_WIDTH)).
Definition norm_y (y : Z) : float := f32_div (f32_of_Z y) (f32_of_Z (Z.of_nat SCREEN_HEIGHT)).

(** [sqrtf(dx*dx + dy*dy)] of the radial and spiral patterns. *)
Definition centre_distance (x y : Z) : float :=
  let dx := f32_sub (norm_x x) (f32_lit 5 10) in
  let dy := f32_sub (norm_y y) (f32_lit 5 10) in
  sqrtf (f32_add (f32_mul dx dx) (f32_mul dy dy)).

(** [mag_le] as a test. *)
Definition mag_leb (f : float) (mb eb : Z) : bool :=
  match f with
  | S754_zero _ => true
  | S754_finite _ m e =>
      match cmp_scaled (Zpos m) e mb eb with Gt => false | _ => true end
  | _ => false
  end.

(** What the patterns need of a pixel: [nx], [ny], [nx - 0.5f] and
    [ny - 0.5f] are finite, the distance from the centre is finite and
    ten times it is at most 8. *)
Definition pixel_ok (x y : Z) : bool :=
  let dist := centre_distance x y in
  is_finite (norm_x x) && is_finite (norm_y y)
  && is_finite (f32_sub (norm_x x) (f32_lit 5 10))
  && is_finite (f32_sub (norm_y y) (f32_lit 5 10))
  && is_finite dist
  && mag_leb (f32_mul dist (f32_of_Z 10)) (2 ^ 23) (-20).

(** [m * 2^e] as a rational. *)
Definition val2Q (m e : Z) : Q :=
  match e with
  | Zneg p => Qmake m (2 ^ p)
  | _ => inject_Z (m * 2 ^ e)
  end.

(** The exact value of a finite float (0 for the others). *)
Definition F2Q (f : float) : Q := val2Q (f32_num f) (f32_exp f).

(** A finite float whose value is in [[lo, hi]], and in [[lo, hi)]. *)
Definition in_closed (lo hi : Q) (f : float) : Prop :=
  is_finite f = true /\ (lo <= F2Q f)%Q /\ (F2Q f <= hi)%Q.

Definition in_half_open (lo hi : Q) (f : float) : Prop :=
  is_finite f = true /\ (lo <= F2Q f)%Q /\ (F2Q f < hi)%Q.

Definition in_half_openb (lo hi : Q) (f : float) : bool :=
  is_finite f && Qle_bool lo (F2Q f) && negb (Qle_bool hi (F2Q f)).

(** The policy range of [frequency], on mantissa and exponent. *)
Definition in_policy (f : float) : Prop :=
  match f with
  | S754_finite false m e =>
      vle 13421773 (-27) (Zpos m) e /\ vle (Zpos m) e (2 ^ 23) (-21)
  | _ => False
  end.

Definition in_policyb (f : float) : bool :=
  match f with
  | S754_finite false m e =>
      match cmp_scaled 13421773 (-27) (Zpos m) e with Gt => false | _ => true end
      && match cmp_scaled (Zpos m) e (2 ^ 23) (-21) with Gt => false | _ => true end
  | _ => false
  end.

Section Vocabulary.
Context {platform : Platform}.

(** The part of the state [generate_gradient] and the evolution read. *)
Definition same_inputs (st1 st2 : GenerativeState) : Prop :=
  parameters st1 = parameters st2 /\ frame_count st1 = frame_count st2.

(** The fill loop changes nothing but the raster. *)
Definition same_but_pixels (st0 st : GenerativeState) : Prop :=
  parameters st = parameters st0 /\ frame_count st = frame_count st0 /\
  mode st = mode st0.

Definition filled (st : GenerativeState) : GenerativeState :=
  let st := scan_rows fill_pixel 0 SCREEN_HEIGHT st in
  with_pixels st (apply_dither (pixels st)).

(** What is assumed of the platform's [atan2f]: on finite arguments its
    result is finite and of magnitude at most 4 (the exact result is at
    most pi in magnitude). *)
Definition atan2f_bounded : Prop :=
  forall a b, is_finite a = true -> is_finite b = true ->
              mag_le (atan2f a b) (2 ^ 23) (-21).

(** The states the program reaches: the one [flipper_gen_app_alloc] builds,
    then any sequence of frames and input events. *)
Inductive reachable : GenerativeState -> Prop :=
| reachable_initial tick raster : reachable (initial_state tick raster)
| reachable_frame st : reachable st -> reachable (generate_frame st)
| reachable_input tick input_event st :
    reachable st -> reachable (input_callback tick input_event st).

Definition parameters_ok (st : GenerativeState) : Prop :=
  in_policy (frequency st) /\ in_closed 0 1 (noise_scale st).

End Vocabulary.

(** A state with the default parameters, seed [s] and frame counter [n],
    over a raster of the right size. *)
Definition state_at (s n : Z) : GenerativeState :=
  with_frame_count
    (initial_state s (replicate (SCREEN_WIDTH * SCREEN_HEIGHT) 0)) n.

(** * Display, timer and start-up *)

(** A value an [uint8_t] holds, and a value of a dithered raster. *)
Definition is_byte (v : Z) : Prop := 0 <= v <= 255.
Definition is_binary (v : Z) : Prop := v = 0 \/ v = 255.

(** The sum of the raster's entries. *)
Definition total (pixels : list Z) : Z := foldr Z.add 0 pixels.

(** [error = old_pixel - new_pixel] of [apply_dither], and the sum of the
    four shares [(error * k) / 16] handed to the neighbours of a pixel that
    has all four. *)
Definition quantisation_error (old_pixel : Z) : Z := old_pixel - threshold old_pixel.

Definition shares (error : Z) : Z :=
  Z.quot (error * 7) 16 + Z.quot (error * 3) 16
  + Z.quot (error * 5) 16 + Z.quot (error * 1) 16.

(** The pixels of the raster in the order of the loops, as [(x, y)]. *)
Definition row_major : list (nat * nat) :=
  flat_map (fun y => map (fun x => (x, y)) (seq 0 SCREEN_WIDTH)) (seq 0 SCREEN_HEIGHT).

(** [state->pixels[y * SCREEN_WIDTH + x] > 127] for the pixel [(x, y)]. *)
Definition lit (pixels : list Z) (p : nat * nat) : bool :=
  px pixels (p.2 * SCREEN_WIDTH + p.1) >? 127.

(** A float that is zero, or positive and at most [mb * 2^eb]; the same
    as a test. *)
Definition range_le (f : float) (mb eb : Z) : Prop :=
  match f with
  | S754_zero _ => True
  | S754_finite false m e => vle (Zpos m) e mb eb
  | _ => False
  end.

Definition range_leb (f : float) (mb eb : Z) : bool :=
  match f with
  | S754_zero _ => true
  | S754_finite false m e =>
      match cmp_scaled (Zpos m) e mb eb with Gt => false | _ => true end
  | _ => false
  end.

(** The integral part of a float is one of [0..B], as a test. *)
Definition trunc_leb (f : float) (B : Z) : bool :=
  match f32_trunc f with
  | Some z => (0 <=? z) && (z <=? B)
  | None => false
  end.

(** One press of Right, on the frequency:
    [fminf(4.0f, app->state->frequency + 0.1f)]. *)
Definition frequency_up (f : float) : float :=
  fminf (f32_of_Z 4) (f32_add f (f32_lit 1 10)).

(** The float the cosine wave (kind 5) converts to its angle,
    [ny * 64 * state->frequency + 16]. *)
Definition cosine_angle (y : Z) (f : float) : float :=
  f32_add (f32_mul (f32_mul (norm_y y) (f32_of_Z 64)) f) (f32_of_Z 16).

(** The tail of [generate_gradient] when the noise overlay is off: the
    switch value is clamped, inverted if asked and scaled by 255; [shade]
    is the integral part of the result. *)
Definition shade (value : float) (inv : bool) : option Z :=
  let value := if f32_lt value (f32_of_Z 0) then f32_of_Z 0 else value in
  let value := if f32_gt value (f32_of_Z 1) then f32_of_Z 1 else value in
  let value := if inv then f32_sub (f32_of_Z 1) value else value in
  f32_trunc (f32_mul value (f32_of_Z 255)).

(** [shade] gives the integer it is expected to give, as a test. *)
Definition shade_is (value : float) (inv : bool) (z : Z) : bool :=
  match shade value inv with Some v => v =? z | None => false end.

Definition shade_in (value : float) (inv : bool) (lo hi : Z) : bool :=
  match shade value inv with Some v => (lo <=? v) && (v <=? hi) | None => false end.

(** Two floats are the same datum (sign, mantissa and exponent), as a test. *)
Definition float_eqb (a b : float) : bool :=
  match a, b with
  | S754_zero s, S754_zero t => Bool.eqb s t
  | S754_infinity s, S754_infinity t => Bool.eqb s t
  | S754_nan, S754_nan => true
  | S754_finite s m e, S754_finite t n f =>
      Bool.eqb s t && (Zpos m =? Zpos n) && (e =? f)
  | _, _ => false
  end.

(** [dx*dx] and [dy*dy] of the radial pattern (kind 2). *)
Definition square_x (x : Z) : float :=
  let dx := f32_sub (norm_x x) (f32_lit 5 10) in f32_mul dx dx.

Definition square_y (y : Z) : float :=
  let dy := f32_sub (norm_y y) (f32_lit 5 10) in f32_mul dy dy.

(** A press of a key. *)
Definition press (k : InputKey) : InputEvent :=
  {| type := InputTypePress; key := k |}.

Section Application.
Context {platform : Platform}.

(** The body of the pixel loop of [draw_callback]: [dots] is the list of
    the calls [canvas_draw_dot(canvas, x, y)] made so far, oldest first. *)
Definition draw_pixel (pixels : list Z) (dots : list (nat * nat)) (y x : nat)
    : list (nat * nat) :=
  if px pixels (y * SCREEN_WIDTH + x) >? 127 then dots ++ [(x, y)] else dots.

(** The pixel loop of [draw_callback]: the dots it draws, in order.  The
    status line drawn after the loop is not part of the model. *)
Definition draw_callback (state : GenerativeState) : list (nat * nat) :=
  scan_rows (draw_pixel (pixels state)) 0 SCREEN_HEIGHT [].

(** [timer_callback] on the generator state; the request to redraw is
    not part of the model. *)
Definition timer_callback (state : GenerativeState) : GenerativeState :=
  generate_frame state.

(** The generator state [flipper_gen_app_alloc] returns: the initial
    fields, then the first frame.  The timer is started before that frame
    is generated; the callbacks are taken to run one at a time, after the
    allocation has returned. *)
Definition flipper_gen_app_alloc (tick : Z) (raster : list Z) : GenerativeState :=
  generate_frame (initial_state tick raster).

(** The raster the fill loop of [generate_frame] builds. *)
Definition gradient_raster (state : GenerativeState) : list Z :=
  map (fun p : nat * nat =>
         generate_gradient (u8 (Z.of_nat p.1)) (u8 (Z.of_nat p.2)) state)
      row_major.

(** A float-to-[uint8_t] conversion whose value fits, which is what the C
    standard requires of it. *)
Definition cast_u8_defined (f : float) : Prop :=
  exists z, f32_trunc f = Some z /\ 0 <= z <= 255.

Definition cast_u32_defined (f : float) : Prop :=
  exists z, f32_trunc f = Some z /\ 0 <= z < 2 ^ 32.

End Application.
(** ** Facts about 32-bit words *)

Lemma u32_range z : 0 <= u32 z < 2 ^ 32.
Proof. unfold u32. apply Z.mod_pos_bound. lia. Qed.

Lemma lxor_u32_range a b :
  0 <= a < 2 ^ 32 -> 0 <= b < 2 ^ 32 -> 0 <= Z.lxor a b < 2 ^ 32.
Proof.
  intros [Ha0 Ha] [Hb0 Hb].
  assert (H0 : 0 <= Z.lxor a b) by (apply Z.lxor_nonneg; tauto).
  split; [exact H0|].
  destruct (Z.eq_dec (Z.lxor a b) 0) as [->|Hne]; [lia|].
  apply Z.log2_lt_pow2; [lia|].
  pose proof (Z.log2_lxor a b Ha0 Hb0) as Hl.
  assert (Z.log2 a < 32).
  { destruct (Z.eq_dec a 0) as [->|]; [simpl; lia|]. apply Z.log2_lt_pow2; lia. }
  assert (Z.log2 b < 32).
  { destruct (Z.eq_dec b 0) as [->|]; [simpl; lia|]. apply Z.log2_lt_pow2; lia. }
  lia.
Qed.

Lemma shiftr_u32_range x k : 0 <= k -> 0 <= x < 2 ^ 32 -> 0 <= Z.shiftr x k < 2 ^ 32.
Proof.
  intros Hk [H0 H]. rewrite Z.shiftr_div_pow2 by lia.
  assert (0 < 2 ^ k) by (apply Z.pow_pos_nonneg; lia).
  split; [apply Z.div_pos; lia|].
  apply Z.le_lt_trans with x; [|lia].
  apply Z.div_le_upper_bound; nia.
Qed.

Lemma xor_shl_range k x : 0 <= x < 2 ^ 32 -> 0 <= xor_shl k x < 2 ^ 32.
Proof. intros. apply lxor_u32_range; [lia|apply u32_range]. Qed.

Lemma xor_shr_range k x : 0 <= k -> 0 <= x < 2 ^ 32 -> 0 <= xor_shr k x < 2 ^ 32.
Proof. intros. apply lxor_u32_range; [lia|by apply shiftr_u32_range]. Qed.

(** A left-shift step is injective at zero: an odd multiplier is invertible
    modulo [2^32]. *)
Lemma xor_shl_zero k x :
  0 < k -> 0 <= x < 2 ^ 32 -> xor_shl k x = 0 -> x = 0.
Proof.
  intros Hk Hx H. unfold xor_shl in H. apply Z.lxor_eq in H.
  unfold u32 in H. rewrite Z.shiftl_mul_pow2 in H by lia.
  assert (Hd : (2 ^ 32 | x * (2 ^ k - 1))).
  { exists (x * 2 ^ k / 2 ^ 32).
    pose proof (Z.div_mod (x * 2 ^ k) (2 ^ 32) ltac:(lia)). lia. }
  assert (Hodd : exists m, 2 ^ k - 1 = 2 * m + 1).
  { exists (2 ^ (k - 1) - 1). replace k with (Z.succ (k - 1)) at 1 by lia.
    rewrite Z.pow_succ_r by lia. lia. }
  destruct Hodd as [m Hm].
  assert (Hrel : Z.coprime (2 ^ 32) (2 ^ k - 1)).
  { apply Z.coprime_pow_l; [lia|].
    apply Z.coprime_Bezout. exists (- m), 1. lia. }
  rewrite Z.mul_comm in Hd. apply Z.gauss in Hd; [|exact Hrel].
  destruct Hd as [q Hq]. lia.
Qed.

Lemma xor_shr_zero k x :
  0 < k -> 0 <= x < 2 ^ 32 -> xor_shr k x = 0 -> x = 0.
Proof.
  intros Hk Hx H. unfold xor_shr in H. apply Z.lxor_eq in H.
  rewrite Z.shiftr_div_pow2 in H by lia.
  assert (2 <= 2 ^ k).
  { replace k with (Z.succ (k - 1)) by lia. rewrite Z.pow_succ_r by lia.
    assert (0 < 2 ^ (k - 1)) by (apply Z.pow_pos_nonneg; lia). lia. }
  destruct (Z.eq_dec x 0) as [|Hne]; [assumption|exfalso].
  assert (x / 2 ^ k < x) by (apply Z.div_lt; lia). lia.
Qed.

(** ** The xorshift step *)

Lemma xorshift32_steps s :
  xorshift32 s = (xor_shl 5 (xor_shr 17 (xor_shl 13 s)),
                  xor_shl 5 (xor_shr 17 (xor_shl 13 s))).
Proof. reflexivity. Qed.

Lemma xorshift32_range s :
  0 <= s < 2 ^ 32 -> 0 <= snd (xorshift32 s) < 2 ^ 32.
Proof.
  intros Hs. rewrite xorshift32_steps. simpl.
  apply xor_shl_range, xor_shr_range; [lia|]. by apply xor_shl_range.
Qed.

Lemma xorshift32_nonzero s :
  0 <= s < 2 ^ 32 -> s <> 0 -> snd (xorshift32 s) <> 0.
Proof.
  intros Hs Hnz. rewrite xorshift32_steps. simpl. intros H.
  apply xor_shl_zero in H; [|lia|apply xor_shr_range; [lia|by apply xor_shl_range]].
  apply xor_shr_zero in H; [|lia|by apply xor_shl_range].
  apply xor_shl_zero in H; [|lia|assumption].
  contradiction.
Qed.

(** C7. [xorshift32] is the composition of the three xor-shift steps, left
    by 13, right by 17, left by 5, in that order, on the 32-bit state; the
    returned value is the new state; a nonzero 32-bit state gives a nonzero
    32-bit value and state; zero is a fixed point. *)
Theorem xorshift32_three_steps_nonzero (s : Z) :
  0 <= s < 2 ^ 32 ->
  let step1 := Z.lxor s (Z.shiftl s 13 mod 2 ^ 32) in
  let step2 := Z.lxor step1 (Z.shiftr step1 17) in
  let step3 := Z.lxor step2 (Z.shiftl step2 5 mod 2 ^ 32) in
  xorshift32 s = (step3, step3) /\
  0 <= step3 < 2 ^ 32 /\
  (s <> 0 -> fst (xorshift32 s) <> 0 /\ snd (xorshift32 s) <> 0) /\
  xorshift32 0 = (0, 0).
Proof.
  intros Hs step1 step2 step3. split; [reflexivity|].
  split; [exact (xorshift32_range s Hs)|].
  split; [|reflexivity].
  intros Hnz. pose proof (xorshift32_nonzero s Hs Hnz) as H.
  split; exact H.
Qed.

Lemma xorshift32_three_steps_nonzero_witness :
  xorshift32 1 = (270369, 270369).
Proof.
  destruct (xorshift32_three_steps_nonzero 1 ltac:(lia)) as (H & _).
  exact H.
Defined.


(** ** Row-major passes *)

Lemma SCREEN_WIDTH_ge : (2 <= SCREEN_WIDTH)%nat.
Proof. unfold SCREEN_WIDTH. lia. Qed.

Local Opaque SCREEN_WIDTH SCREEN_HEIGHT.

Section RowMajor.
Context {S : Type} (body : S -> nat -> nat -> S) (raster : S -> list Z).

Hypothesis body_length : forall s y x,
  length (raster (body s y x)) = length (raster s).

(** The body at [(x, y)] leaves every entry before its own alone. *)
Hypothesis body_frozen : forall s y x (i : nat),
  (i < y * SCREEN_WIDTH + x)%nat ->
  raster (body s y x) !! i = raster s !! i.

Lemma scan_cols_split y from a b s :
  scan_cols body y from (a + b) s
  = scan_cols body y (from + a) b (scan_cols body y from a s).
Proof. unfold scan_cols. by rewrite seq_app, fold_left_app. Qed.

Lemma scan_rows_split from a b s :
  scan_rows body from (a + b) s
  = scan_rows body (from + a) b (scan_rows body from a s).
Proof. unfold scan_rows. by rewrite seq_app, fold_left_app. Qed.

Lemma length_scan_cols y from count s :
  length (raster (scan_cols body y from count s)) = length (raster s).
Proof.
  unfold scan_cols. revert s from.
  induction count as [|c IH]; intros s from; simpl; [reflexivity|].
  by rewrite IH.
Qed.

Lemma length_scan_rows from count s :
  length (raster (scan_rows body from count s)) = length (raster s).
Proof.
  unfold scan_rows. revert s from.
  induction count as [|c IH]; intros s from; simpl; [reflexivity|].
  rewrite IH. apply length_scan_cols.
Qed.

Lemma scan_cols_frozen y from count s (i : nat) :
  (i < y * SCREEN_WIDTH + from)%nat ->
  raster (scan_cols body y from count s) !! i = raster s !! i.
Proof.
  unfold scan_cols. revert s from.
  induction count as [|c IH]; intros s from Hi; simpl; [reflexivity|].
  rewrite IH by lia. by apply body_frozen.
Qed.

Lemma scan_rows_frozen from count s (i : nat) :
  (i < from * SCREEN_WIDTH)%nat ->
  raster (scan_rows body from count s) !! i = raster s !! i.
Proof.
  unfold scan_rows. revert s from.
  induction count as [|c IH]; intros s from Hi; simpl; [reflexivity|].
  rewrite IH by lia. apply scan_cols_frozen. lia.
Qed.

(** What a full pass leaves at [(x, y)] is what the body left there when
    the pass reached that pixel. *)
Lemma scan_rows_lookup s y x :
  (x < SCREEN_WIDTH)%nat -> (y < SCREEN_HEIGHT)%nat ->
  raster (scan_rows body 0 SCREEN_HEIGHT s) !! (y * SCREEN_WIDTH + x)%nat
  = raster (body (scan_before body y x s) y x) !! (y * SCREEN_WIDTH + x)%nat.
Proof.
  intros Hx Hy. unfold scan_before.
  replace SCREEN_HEIGHT with (y + (1 + (SCREEN_HEIGHT - y - 1)))%nat at 1 by lia.
  rewrite scan_rows_split. simpl (0 + y)%nat.
  rewrite scan_rows_split.
  rewrite scan_rows_frozen by lia.
  set (q := scan_rows body 0 y s).
  unfold scan_rows at 1. simpl seq. simpl fold_left.
  replace SCREEN_WIDTH with (x + (1 + (SCREEN_WIDTH - x - 1)))%nat at 2 by lia.
  rewrite scan_cols_split. simpl (0 + x)%nat.
  rewrite scan_cols_split.
  rewrite scan_cols_frozen by lia.
  reflexivity.
Qed.

Lemma scan_cols_preserves (P : S -> Prop) :
  (forall s y x, P s -> P (body s y x)) ->
  forall y from count s, P s -> P (scan_cols body y from count s).
Proof.
  intros Hb y from count. unfold scan_cols. revert from.
  induction count as [|c IH]; intros from s Hs; simpl; [exact Hs|].
  apply IH, Hb, Hs.
Qed.

Lemma scan_rows_preserves (P : S -> Prop) :
  (forall s y x, P s -> P (body s y x)) ->
  forall from count s, P s -> P (scan_rows body from count s).
Proof.
  intros Hb from count. unfold scan_rows. revert from.
  induction count as [|c IH]; intros from s Hs; simpl; [exact Hs|].
  apply IH. by apply scan_cols_preserves.
Qed.

Lemma length_scan_before s y x :
  length (raster (scan_before body y x s)) = length (raster s).
Proof. unfold scan_before. by rewrite length_scan_cols, length_scan_rows. Qed.
End RowMajor.

(** Every index of the raster is a pixel [(x, y)]. *)
Lemma raster_index (i : nat) :
  (i < SCREEN_WIDTH * SCREEN_HEIGHT)%nat ->
  exists y x, (x < SCREEN_WIDTH)%nat /\ (y < SCREEN_HEIGHT)%nat /\
              i = (y * SCREEN_WIDTH + x)%nat.
Proof.
  intros Hi. pose proof SCREEN_WIDTH_ge as HW.
  exists (i / SCREEN_WIDTH)%nat, (i mod SCREEN_WIDTH)%nat.
  split; [apply Nat.mod_upper_bound; lia|].
  split; [apply Nat.Div0.div_lt_upper_bound; lia|].
  pose proof (Nat.div_mod_eq i SCREEN_WIDTH). lia.
Qed.

(** ** The Floyd-Steinberg pass writes forward only *)

Lemma threshold_binary v : threshold v = 0 \/ threshold v = 255.
Proof. unfold threshold. destruct (v >? 127); auto. Qed.

Lemma clamp255_range v : 0 <= clamp255 v <= 255.
Proof.
  unfold clamp255. destruct (Z.ltb_spec v 0); [lia|].
  destruct (v >? 255) eqn:E; [lia|]. rewrite Z.gtb_ltb in E.
  apply Z.ltb_ge in E. lia.
Qed.

Lemma length_diffuse p idx e n : length (diffuse p idx e n) = length p.
Proof. unfold diffuse, set_px. apply length_insert. Qed.

Lemma diffuse_lookup_ne p idx e n (i : nat) :
  idx <> i -> diffuse p idx e n !! i = p !! i.
Proof. intros H. unfold diffuse, set_px. by apply list_lookup_insert_ne. Qed.

Ltac dither_cases :=
  unfold dither_pixel;
  repeat match goal with
         | |- context [if ?b then _ else _] => destruct b eqn:?
         end.

Lemma length_dither_pixel p y x : length (dither_pixel p y x) = length p.
Proof.
  dither_cases; rewrite ?length_diffuse; unfold set_px; apply length_insert.
Qed.

(** Entries before the visited index are not written: the four neighbours
    are to the right in the same row or in the row below. *)
Lemma dither_pixel_frozen p y x (i : nat) :
  (i < y * SCREEN_WIDTH + x)%nat ->
  dither_pixel p y x !! i = p !! i.
Proof.
  intros Hi. pose proof SCREEN_WIDTH_ge as HW.
  dither_cases;
    repeat (rewrite diffuse_lookup_ne by lia);
    unfold set_px; apply list_lookup_insert_ne; lia.
Qed.

(** The visited entry ends the step thresholded: none of the four neighbour
    writes lands on it. *)
Lemma dither_pixel_at p y x :
  (y * SCREEN_WIDTH + x < length p)%nat ->
  dither_pixel p y x !! (y * SCREEN_WIDTH + x)%nat
  = Some (threshold (px p (y * SCREEN_WIDTH + x))).
Proof.
  intros Hi. pose proof SCREEN_WIDTH_ge as HW.
  dither_cases;
    repeat (rewrite diffuse_lookup_ne by lia);
    unfold set_px; apply list_lookup_insert_eq; lia.
Qed.

Lemma length_apply_dither p : length (apply_dither p) = length p.
Proof.
  pose proof (length_scan_rows dither_pixel id length_dither_pixel 0 SCREEN_HEIGHT p) as H.
  exact H.
Qed.

(** The final value of pixel [(x, y)] is the threshold of what the pass
    found there when it reached it. *)
Lemma apply_dither_lookup p y x :
  (x < SCREEN_WIDTH)%nat -> (y < SCREEN_HEIGHT)%nat ->
  length p = (SCREEN_WIDTH * SCREEN_HEIGHT)%nat ->
  apply_dither p !! (y * SCREEN_WIDTH + x)%nat
  = Some (threshold (px (scan_before dither_pixel y x p) (y * SCREEN_WIDTH + x))).
Proof.
  intros Hx Hy Hlen. unfold apply_dither.
  pose proof (scan_rows_lookup dither_pixel id dither_pixel_frozen p y x Hx Hy) as H.
  pose proof (length_scan_before dither_pixel id length_dither_pixel p y x) as Hl.
  unfold id in H, Hl. rewrite H.
  apply dither_pixel_at. rewrite Hl, Hlen. nia.
Qed.

(** C1. After [apply_dither] every entry of the 128x64 raster is 0 or 255:
    the value a pixel has after the pass is the threshold of the value the
    pass found when it visited the pixel, because a step writes only its own
    index and larger ones (same row to the right, or the row below), so
    nothing at or before a visited index changes later. *)
Theorem apply_dither_binary (pixels : list Z) :
  length pixels = (SCREEN_WIDTH * SCREEN_HEIGHT)%nat ->
  length (apply_dither pixels) = (SCREEN_WIDTH * SCREEN_HEIGHT)%nat /\
  Forall (fun v => v = 0 \/ v = 255) (apply_dither pixels) /\
  (forall y x, (x < SCREEN_WIDTH)%nat -> (y < SCREEN_HEIGHT)%nat ->
     apply_dither pixels !! (y * SCREEN_WIDTH + x)%nat
     = Some (threshold (px (scan_before dither_pixel y x pixels)
                           (y * SCREEN_WIDTH + x)))) /\
  (forall q y x (i : nat), (i < y * SCREEN_WIDTH + x)%nat ->
     dither_pixel q y x !! i = q !! i).
Proof.
  intros Hlen.
  assert (Hl : length (apply_dither pixels) = (SCREEN_WIDTH * SCREEN_HEIGHT)%nat)
    by (by rewrite length_apply_dither).
  split; [exact Hl|]. split; [|split].
  - apply Forall_forall. intros v Hv. apply list_elem_of_lookup in Hv as [i Hi].
    pose proof (lookup_lt_Some _ _ _ Hi) as Hlt. rewrite Hl in Hlt.
    destruct (raster_index i Hlt) as (y & x & Hx & Hy & ->).
    rewrite (apply_dither_lookup pixels _ _ Hx Hy Hlen) in Hi.
    injection Hi as <-. apply threshold_binary.
  - intros y x Hx Hy. apply apply_dither_lookup; assumption.
  - intros q y x i Hi. apply dither_pixel_frozen; assumption.
Qed.

Lemma apply_dither_binary_witness :
  Forall (fun v => v = 0 \/ v = 255)
         (apply_dither (replicate (SCREEN_WIDTH * SCREEN_HEIGHT) 200)).
Proof.
  exact (proj1 (proj2 (apply_dither_binary
                         (replicate (SCREEN_WIDTH * SCREEN_HEIGHT) 200)
                         (length_replicate (SCREEN_WIDTH * SCREEN_HEIGHT) 200)))).
Defined.


(** ** Frame generation *)

Section Frame.
Context {platform : Platform}.

Lemma generate_gradient_ext x y st1 st2 :
  parameters st1 = parameters st2 ->
  generate_gradient x y st1 = generate_gradient x y st2.
Proof.
  destruct st1, st2. unfold parameters. cbn [seed gradient_type frequency noise_scale invert].
  intros [= -> -> -> -> ->]. reflexivity.
Qed.

Lemma length_fill_pixel st y x :
  length (pixels (fill_pixel st y x)) = length (pixels st).
Proof. unfold fill_pixel, set_px. cbn [pixels with_pixels]. apply length_insert. Qed.

Lemma fill_pixel_frozen st y x (i : nat) :
  (i < y * SCREEN_WIDTH + x)%nat ->
  pixels (fill_pixel st y x) !! i = pixels st !! i.
Proof.
  intros Hi. unfold fill_pixel, set_px. cbn [pixels with_pixels].
  apply list_lookup_insert_ne. lia.
Qed.

Lemma fill_pixel_at st y x :
  (y * SCREEN_WIDTH + x < length (pixels st))%nat ->
  pixels (fill_pixel st y x) !! (y * SCREEN_WIDTH + x)%nat
  = Some (generate_gradient (u8 (Z.of_nat x)) (u8 (Z.of_nat y)) st).
Proof.
  intros Hi. unfold fill_pixel, set_px. cbn [pixels with_pixels].
  by apply list_lookup_insert_eq.
Qed.

Lemma with_pixels_same st0 st p :
  same_but_pixels st0 st -> same_but_pixels st0 (with_pixels st p).
Proof. intros H. exact H. Qed.

Lemma fill_pixel_same st0 st y x :
  same_but_pixels st0 st -> same_but_pixels st0 (fill_pixel st y x).
Proof. apply with_pixels_same. Qed.

Lemma fill_same st :
  same_but_pixels st (scan_rows fill_pixel 0 SCREEN_HEIGHT st).
Proof.
  apply (scan_rows_preserves fill_pixel (same_but_pixels st)).
  - intros s y x. apply fill_pixel_same.
  - repeat split.
Qed.

Lemma length_fill st :
  length (pixels (scan_rows fill_pixel 0 SCREEN_HEIGHT st)) = length (pixels st).
Proof. apply (length_scan_rows fill_pixel pixels length_fill_pixel). Qed.

(** After the fill loop pixel [(x, y)] holds [generate_gradient(x, y, state)]. *)
Lemma fill_lookup st y x :
  (x < SCREEN_WIDTH)%nat -> (y < SCREEN_HEIGHT)%nat ->
  length (pixels st) = (SCREEN_WIDTH * SCREEN_HEIGHT)%nat ->
  pixels (scan_rows fill_pixel 0 SCREEN_HEIGHT st) !! (y * SCREEN_WIDTH + x)%nat
  = Some (generate_gradient (u8 (Z.of_nat x)) (u8 (Z.of_nat y)) st).
Proof.
  intros Hx Hy Hlen.
  rewrite (scan_rows_lookup fill_pixel pixels fill_pixel_frozen st y x Hx Hy).
  rewrite fill_pixel_at.
  - f_equal. apply generate_gradient_ext.
    unfold scan_before.
    apply (scan_cols_preserves fill_pixel (fun s => parameters s = parameters st)).
    + intros s y' x' Hs. destruct s. exact Hs.
    + apply (scan_rows_preserves fill_pixel (fun s => parameters s = parameters st)).
      * intros s y' x' Hs. destruct s. exact Hs.
      * reflexivity.
  - rewrite (length_scan_before fill_pixel pixels length_fill_pixel), Hlen. nia.
Qed.

(** The filled raster does not depend on what the raster held before. *)
Lemma fill_ext st1 st2 :
  parameters st1 = parameters st2 ->
  length (pixels st1) = (SCREEN_WIDTH * SCREEN_HEIGHT)%nat ->
  length (pixels st2) = (SCREEN_WIDTH * SCREEN_HEIGHT)%nat ->
  pixels (scan_rows fill_pixel 0 SCREEN_HEIGHT st1)
  = pixels (scan_rows fill_pixel 0 SCREEN_HEIGHT st2).
Proof.
  intros Hp H1 H2. apply list_eq. intros i.
  destruct (Nat.lt_ge_cases i (SCREEN_WIDTH * SCREEN_HEIGHT)) as [Hi|Hi].
  - destruct (raster_index i Hi) as (y & x & Hx & Hy & ->).
    rewrite !fill_lookup by assumption.
    f_equal. by apply generate_gradient_ext.
  - rewrite !lookup_ge_None_2; [reflexivity| |]; rewrite length_fill; lia.
Qed.

(** ** The evolution block *)

Lemma draw_run s n :
  draw {| rng_state := s; rng_draws := n |}
  = (stream s 1, {| rng_state := stream s 1; rng_draws := S n |}).
Proof. reflexivity. Qed.

Local Opaque xorshift32.

Lemma bind_draw {B} (k : Z -> Rng B) s n :
  bind draw k {| rng_state := s; rng_draws := n |}
  = k (stream s 1) {| rng_state := stream s 1; rng_draws := S n |}.
Proof. unfold bind. rewrite draw_run. reflexivity. Qed.

(** What the block does, by the outcome of its first check: it draws four
    or five times. *)
Lemma evolve_run st s :
  evolve st {| rng_state := s; rng_draws := 0 |}
  = if stream s 1 mod 100 <? 20
    then
      (let st := with_gradient_type st (u8 (stream s 2 mod 10)) in
       let st := with_frequency st (frequency_of (stream s 3)) in
       let st := with_noise_scale st (noise_scale_of (stream s 4)) in
       if stream s 5 mod 100 <? 10 then with_invert st (negb (invert st)) else st,
       {| rng_state := stream s 5; rng_draws := 5 |})
    else
      (let st := with_frequency st (frequency_of (stream s 2)) in
       let st := with_noise_scale st (noise_scale_of (stream s 3)) in
       if stream s 4 mod 100 <? 10 then with_invert st (negb (invert st)) else st,
       {| rng_state := stream s 4; rng_draws := 4 |}).
Proof.
  unfold evolve. rewrite bind_draw.
  destruct (stream s 1 mod 100 <? 20).
  - unfold bind at 1. rewrite bind_draw. unfold ret at 1.
    rewrite !bind_draw. reflexivity.
  - unfold bind at 1. unfold ret at 1.
    rewrite !bind_draw. reflexivity.
Qed.

Lemma evolve_frame_count st r : frame_count (fst (evolve st r)) = frame_count st.
Proof.
  unfold evolve, bind, draw, ret.
  repeat match goal with
         | |- context [xorshift32 ?x] => destruct (xorshift32 x)
         | |- context [if ?b then _ else _] => destruct b
         end; reflexivity.
Qed.

Lemma evolve_pixels st r : pixels (fst (evolve st r)) = pixels st.
Proof.
  unfold evolve, bind, draw, ret.
  repeat match goal with
         | |- context [xorshift32 ?x] => destruct (xorshift32 x)
         | |- context [if ?b then _ else _] => destruct b
         end; reflexivity.
Qed.

Lemma evolve_ext st1 st2 r :
  parameters st1 = parameters st2 ->
  parameters (fst (evolve st1 r)) = parameters (fst (evolve st2 r)) /\
  snd (evolve st1 r) = snd (evolve st2 r).
Proof.
  destruct st1, st2. unfold parameters.
  cbn [seed gradient_type frequency noise_scale invert].
  intros [= -> -> -> -> ->].
  unfold evolve, bind, draw, ret.
  repeat match goal with
         | |- context [xorshift32 ?x] => destruct (xorshift32 x)
         | |- context [if ?b then _ else _] => destruct b
         end; split; reflexivity.
Qed.

Lemma evolve_parameters_frame_count st :
  frame_count (fst (evolve_parameters st)) = u8 (frame_count st + 1).
Proof.
  unfold evolve_parameters. cbn [frame_count with_frame_count seed].
  destruct (_ =? 0); [|reflexivity].
  rewrite evolve_frame_count. reflexivity.
Qed.

Lemma evolve_parameters_pixels st :
  pixels (fst (evolve_parameters st)) = pixels st.
Proof.
  unfold evolve_parameters. cbn [frame_count with_frame_count seed].
  destruct (_ =? 0); [|reflexivity].
  rewrite evolve_pixels. reflexivity.
Qed.

Lemma evolve_parameters_ext st1 st2 :
  same_inputs st1 st2 ->
  same_inputs (fst (evolve_parameters st1)) (fst (evolve_parameters st2)).
Proof.
  intros [Hp Hf]. split; [|by rewrite !evolve_parameters_frame_count, Hf].
  unfold evolve_parameters. cbn [frame_count with_frame_count seed].
  assert (Hs : seed st1 = seed st2) by (unfold parameters in Hp; congruence).
  rewrite Hf, Hs.
  destruct (_ =? 0).
  - apply evolve_ext. destruct st1, st2. exact Hp.
  - destruct st1, st2. exact Hp.
Qed.

Lemma evolve_parameters_off_tick st :
  u8 (frame_count st + 1) mod 30 <> 0 ->
  fst (evolve_parameters st) = with_frame_count st (u8 (frame_count st + 1)).
Proof.
  intros H. unfold evolve_parameters. cbn [frame_count with_frame_count seed].
  apply Z.eqb_neq in H. by rewrite H.
Qed.

Lemma stream_zero k : stream 0 k = 0.
Proof.
  induction k as [|k IH]; [reflexivity|].
  change (stream 0 (S k)) with (snd (xorshift32 (stream 0 k))).
  rewrite IH. vm_compute. reflexivity.
Qed.

Lemma frequency_of_zero : frequency_of 0 = S754_finite false (2 ^ 23) (-24).
Proof. vm_compute. reflexivity. Qed.

Lemma noise_scale_of_zero : noise_scale_of 0 = S754_zero false.
Proof. vm_compute. reflexivity. Qed.

(** ** [generate_frame] *)

Lemma generate_frame_unfold st : generate_frame st = fst (evolve_parameters (filled st)).
Proof. reflexivity. Qed.

Lemma filled_same st : same_but_pixels st (filled st).
Proof.
  unfold filled. apply with_pixels_same, fill_same.
Qed.

Lemma generate_frame_frame_count st :
  frame_count (generate_frame st) = u8 (frame_count st + 1).
Proof.
  rewrite generate_frame_unfold, evolve_parameters_frame_count.
  destruct (filled_same st) as (_ & -> & _). reflexivity.
Qed.

Lemma generate_frame_pixels st :
  pixels (generate_frame st)
  = apply_dither (pixels (scan_rows fill_pixel 0 SCREEN_HEIGHT st)).
Proof.
  rewrite generate_frame_unfold, evolve_parameters_pixels. unfold filled.
  reflexivity.
Qed.

Lemma length_generate_frame st :
  length (pixels (generate_frame st)) = length (pixels st).
Proof. by rewrite generate_frame_pixels, length_apply_dither, length_fill. Qed.

(** C2. A call of [generate_frame] after which [frame_count] is not a
    multiple of 30 leaves [seed], [gradient_type], [frequency],
    [noise_scale] and [invert] as they were: the parameters are only
    touched on calls where the incremented counter is a multiple of 30. *)
Theorem generate_frame_off_tick (st : GenerativeState) :
  u8 (frame_count st + 1) mod 30 <> 0 ->
  frame_count (generate_frame st) = u8 (frame_count st + 1) /\
  parameters (generate_frame st) = parameters st.
Proof.
  intros H. split; [apply generate_frame_frame_count|].
  rewrite generate_frame_unfold.
  destruct (filled_same st) as (Hp & Hf & _).
  rewrite evolve_parameters_off_tick by (by rewrite Hf).
  destruct (filled st). exact Hp.
Qed.

(** C3 (as amended). The draws of an evolution tick are made in a fixed
    order, but their number depends on the first check: when the first
    draw [mod 100] is below 20 a second draw picks the pattern kind and the
    block draws five times, [frequency] coming from the third draw and
    [noise_scale] from the fourth; otherwise the block draws four times,
    [frequency] coming from the second draw and [noise_scale] from the
    third.  The last draw decides the inversion. *)
Theorem evolve_draws (st : GenerativeState) (s : Z) :
  let run := evolve st {| rng_state := s; rng_draws := 0 |} in
  let k := if stream s 1 mod 100 <? 20 then 1%nat else 0%nat in
  rng_draws (snd run) = (4 + k)%nat /\
  rng_state (snd run) = stream s (4 + k) /\
  gradient_type (fst run)
    = (if stream s 1 mod 100 <? 20 then u8 (stream s 2 mod 10) else gradient_type st) /\
  frequency (fst run) = frequency_of (stream s (2 + k)) /\
  noise_scale (fst run) = noise_scale_of (stream s (3 + k)) /\
  invert (fst run)
    = (if stream s (4 + k) mod 100 <? 10 then negb (invert st) else invert st).
Proof.
  intros run k. subst run k. rewrite evolve_run.
  destruct (stream s 1 mod 100 <? 20); cbn [fst snd rng_draws rng_state Nat.add];
    repeat split; try reflexivity;
    match goal with |- context [if ?b then _ else _] => destruct b end; reflexivity.
Qed.

(** What [state->frame_count++] does to the 8-bit field: a call of
    [generate_frame] leaves it at its old value plus one modulo 256, so it
    grows by one on every call except the one that finds it at 255, which
    takes it back to 0. *)
Theorem generate_frame_counter (st : GenerativeState) :
  0 <= frame_count st < 2 ^ 8 ->
  frame_count (generate_frame st) = (frame_count st + 1) mod 2 ^ 8 /\
  0 <= frame_count (generate_frame st) < 2 ^ 8 /\
  (frame_count st <> 255 -> frame_count (generate_frame st) = frame_count st + 1) /\
  (frame_count st = 255 -> frame_count (generate_frame st) = 0).
Proof.
  intros Hfc. rewrite generate_frame_frame_count. unfold u8.
  split; [reflexivity|].
  split; [apply Z.mod_pos_bound; lia|].
  split.
  - intros Hne. apply Z.mod_small. lia.
  - intros ->. reflexivity.
Qed.

(** ** Determinism *)

Lemma generate_frame_ext st1 st2 :
  same_inputs st1 st2 ->
  length (pixels st1) = (SCREEN_WIDTH * SCREEN_HEIGHT)%nat ->
  length (pixels st2) = (SCREEN_WIDTH * SCREEN_HEIGHT)%nat ->
  same_inputs (generate_frame st1) (generate_frame st2) /\
  pixels (generate_frame st1) = pixels (generate_frame st2).
Proof.
  intros [Hp Hf] H1 H2. split.
  - rewrite !generate_frame_unfold. apply evolve_parameters_ext.
    destruct (filled_same st1) as (Hp1 & Hf1 & _).
    destruct (filled_same st2) as (Hp2 & Hf2 & _).
    split; congruence.
  - rewrite !generate_frame_pixels. rewrite (fill_ext st1 st2 Hp H1 H2). reflexivity.
Qed.

Lemma frames_S n st : frames (S n) st = generate_frame (frames n st).
Proof. reflexivity. Qed.

Lemma length_frames n st :
  length (pixels (frames n st)) = length (pixels st).
Proof.
  induction n as [|n IH]; [reflexivity|].
  rewrite frames_S, length_generate_frame. exact IH.
Qed.

(** C8. Two runs that start from the same [seed], [gradient_type],
    [frequency], [noise_scale], [invert] and [frame_count] (whatever their
    rasters hold) and call [generate_frame] the same number of times have,
    after every call, the same raster and the same parameters. *)
Theorem generate_frame_deterministic (st1 st2 : GenerativeState) (n : nat) :
  parameters st1 = parameters st2 ->
  frame_count st1 = frame_count st2 ->
  length (pixels st1) = (SCREEN_WIDTH * SCREEN_HEIGHT)%nat ->
  length (pixels st2) = (SCREEN_WIDTH * SCREEN_HEIGHT)%nat ->
  pixels (frames (S n) st1) = pixels (frames (S n) st2) /\
  parameters (frames (S n) st1) = parameters (frames (S n) st2) /\
  frame_count (frames (S n) st1) = frame_count (frames (S n) st2).
Proof.
  intros Hp Hf H1 H2.
  assert (Hn : same_inputs (frames n st1) (frames n st2)).
  { induction n as [|n IH]; [split; assumption|].
    rewrite !frames_S.
    apply generate_frame_ext; [exact IH| |]; rewrite length_frames; assumption. }
  rewrite !frames_S.
  destruct (generate_frame_ext (frames n st1) (frames n st2) Hn) as ([Hp' Hf'] & Hpx);
    [rewrite length_frames; assumption..|].
  auto.
Qed.

Lemma evolve_parameters_zero_stream st :
  u8 (frame_count st + 1) mod 30 = 0 ->
  (seed st + u8 (frame_count st + 1)) mod 2 ^ 32 = 0 ->
  gradient_type (fst (evolve_parameters st)) = 0 /\
  frequency (fst (evolve_parameters st)) = S754_finite false (2 ^ 23) (-24) /\
  noise_scale (fst (evolve_parameters st)) = S754_zero false /\
  invert (fst (evolve_parameters st)) = negb (invert st).
Proof.
  intros Htick Hzero.
  unfold evolve_parameters. cbn [frame_count with_frame_count seed].
  unfold u32. rewrite Hzero.
  apply Z.eqb_eq in Htick. rewrite Htick.
  set (st' := with_frame_count st (u8 (frame_count st + 1))).
  change (invert st) with (invert st'). clearbody st'.
  rewrite evolve_run, !stream_zero.
  change (0 mod 100 <? 20) with true. change (0 mod 100 <? 10) with true.
  cbv zeta. cbn [fst gradient_type frequency noise_scale invert
                 with_gradient_type with_frequency with_noise_scale with_invert].
  rewrite frequency_of_zero, noise_scale_of_zero.
  repeat split.
Qed.

(** C9. On an evolution tick whose stream seed [seed + frame_count] is 0
    modulo [2^32] every draw is 0, so both checks pass: [gradient_type]
    becomes 0, [frequency] becomes 0.5, [noise_scale] becomes 0 and
    [invert] is toggled. *)
Theorem generate_frame_zero_stream (st : GenerativeState) :
  u8 (frame_count st + 1) mod 30 = 0 ->
  (seed st + u8 (frame_count st + 1)) mod 2 ^ 32 = 0 ->
  (forall k, stream ((seed st + u8 (frame_count st + 1)) mod 2 ^ 32) k = 0) /\
  gradient_type (generate_frame st) = 0 /\
  frequency (generate_frame st) = S754_finite false (2 ^ 23) (-24) /\
  noise_scale (generate_frame st) = S754_zero false /\
  invert (generate_frame st) = negb (invert st).
Proof.
  intros Htick Hzero.
  split; [intros k; rewrite Hzero; apply stream_zero|].
  rewrite generate_frame_unfold.
  destruct (filled_same st) as (Hp & Hf & _).
  assert (Hs : seed (filled st) = seed st) by (unfold parameters in Hp; congruence).
  assert (Hi : invert (filled st) = invert st) by (unfold parameters in Hp; congruence).
  rewrite <- Hi. rewrite <- Hf in Htick, Hzero. rewrite <- Hs in Hzero.
  apply evolve_parameters_zero_stream; assumption.
Qed.

(** C10. A [gradient_type] outside [0..9] takes the [default] branch of the
    switch, which computes the horizontal pattern [value = nx], so
    [generate_gradient] returns what it returns for pattern kind 0. *)
Theorem generate_gradient_default (x y : Z) (nx ny : float) (st : GenerativeState) :
  gradient_type st < 0 \/ 9 < gradient_type st ->
  gradient_switch x y nx ny st = nx /\
  gradient_switch x y nx ny st = gradient_switch x y nx ny (with_gradient_type st 0) /\
  generate_gradient x y st = generate_gradient x y (with_gradient_type st 0).
Proof.
  intros H.
  assert (Hs : forall nx ny, gradient_switch x y nx ny st = nx).
  { intros nx' ny'. unfold gradient_switch.
    destruct (gradient_type st) as [|p|p]; [lia| |reflexivity].
    destruct p as [[[[?|?|]|[?|?|]|]|[[?|?|]|[?|?|]|]|]|[[[?|?|]|[?|?|]|]|[[?|?|]|[?|?|]|]|]|];
      try lia; reflexivity. }
  split; [apply Hs|]. split; [rewrite Hs; reflexivity|].
  unfold generate_gradient, gradient_scaled. rewrite Hs.
  destruct st. reflexivity.
Qed.

End Frame.


Local Transparent SCREEN_WIDTH SCREEN_HEIGHT.


(** ** Rounding to binary32 *)

Lemma pow2_pos k : 0 <= k -> 0 < 2 ^ k.
Proof. intros. apply Z.pow_pos_nonneg; lia. Qed.

Lemma pow2_succ k : 0 <= k -> 2 ^ (k + 1) = 2 * 2 ^ k.
Proof. intros. rewrite Z.pow_add_r by lia. lia. Qed.

Lemma digits2_pos_bounds p :
  2 ^ (Zpos (digits2_pos p) - 1) <= Zpos p < 2 ^ Zpos (digits2_pos p).
Proof.
  induction p as [p IH|p IH|]; cbn [digits2_pos].
  - rewrite Pos2Z.inj_succ.
    replace (Z.succ (Zpos (digits2_pos p)) - 1) with (Zpos (digits2_pos p) - 1 + 1) by lia.
    rewrite !pow2_succ by lia.
    replace (Z.succ (Zpos (digits2_pos p))) with (Zpos (digits2_pos p) + 1) by lia.
    rewrite pow2_succ by lia. lia.
  - rewrite Pos2Z.inj_succ.
    replace (Z.succ (Zpos (digits2_pos p)) - 1) with (Zpos (digits2_pos p) - 1 + 1) by lia.
    rewrite !pow2_succ by lia.
    replace (Z.succ (Zpos (digits2_pos p))) with (Zpos (digits2_pos p) + 1) by lia.
    rewrite pow2_succ by lia. lia.
  - simpl. lia.
Qed.

Lemma iter_pos_nat {A} (f : A -> A) p x :
  SpecFloat.iter_pos f p x = Nat.iter (Pos.to_nat p) f x.
Proof.
  revert x. induction p as [p IH|p IH|]; intros x; cbn [SpecFloat.iter_pos].
  - rewrite !IH, Pos2Nat.inj_xI, <- Nat.iter_add, <- Nat.iter_succ_r.
    f_equal. lia.
  - rewrite !IH, Pos2Nat.inj_xO, <- Nat.iter_add. f_equal. lia.
  - reflexivity.
Qed.

Lemma shr_1_ok M k r :
  0 <= M -> 0 <= k -> shr_ok M k r -> shr_ok M (k + 1) (shr_1 r).
Proof.
  intros HM Hk [Hm Hex]. destruct r as [m rr ss]. cbn [shr_m shr_r shr_s] in *.
  pose proof (pow2_pos k Hk) as Hp.
  assert (Hm0 : 0 <= m) by (subst m; apply Z.div_pos; lia).
  assert (Hdiv : M / 2 ^ (k + 1) = m / 2).
  { rewrite pow2_succ by lia. rewrite (Z.mul_comm 2), <- Z.div_div by lia. by subst. }
  assert (Hmod : M mod 2 ^ (k + 1) = 0 -> M mod 2 ^ k = 0 /\ m mod 2 = 0).
  { rewrite pow2_succ by lia. subst m. intros H.
    apply Z.mod_divide in H as [q Hq]; [|lia].
    replace (q * (2 * 2 ^ k)) with (q * 2 * 2 ^ k) in Hq by ring. subst M.
    split; [apply Z.mod_mul; lia|].
    rewrite Z.div_mul by lia. apply Z.mod_mul. lia. }
  unfold shr_ok. rewrite Hdiv.
  destruct m as [|[p|p|]|p]; cbn [shr_1 shr_m shr_r shr_s]; try lia.
  - split; [reflexivity|]. intros H. apply Hmod in H as [H _].
    destruct (Hex H) as [-> ->]. auto.
  - split; [Z.to_euclidean_division_equations; lia|].
    intros H. apply Hmod in H as [_ H]. exfalso.
    Z.to_euclidean_division_equations. lia.
  - split; [Z.to_euclidean_division_equations; lia|].
    intros H. apply Hmod in H as [H _].
    destruct (Hex H) as [-> ->]. auto.
  - split; [reflexivity|].
    intros H. apply Hmod in H as [_ H]. discriminate.
Qed.

Lemma shr_iter_ok M r n :
  0 <= M -> shr_ok M 0 r -> shr_ok M (Z.of_nat n) (Nat.iter n shr_1 r).
Proof.
  intros HM H0. induction n as [|n IH]; [exact H0|].
  cbn [Nat.iter]. rewrite Nat2Z.inj_succ, <- Z.add_1_r.
  apply shr_1_ok; [assumption|lia|exact IH].
Qed.

(** [shr] from an exact record: the shift is by [Z.max 0 n]. *)
Lemma shr_exact M e n :
  0 <= M ->
  exists r,
    shr (shr_record_of_loc M loc_Exact) e n = (r, e + Z.max 0 n) /\
    shr_ok M (Z.max 0 n) r.
Proof.
  intros HM.
  assert (H0 : shr_ok M 0 (shr_record_of_loc M loc_Exact)).
  { split; cbn; [by rewrite Z.div_1_r|auto]. }
  destruct n as [|p|p]; cbn [shr].
  - eexists. split; [f_equal; lia|]. exact H0.
  - eexists. split; [f_equal; lia|].
    rewrite iter_pos_nat. replace (Z.max 0 (Z.pos p)) with (Z.of_nat (Pos.to_nat p)) by lia.
    by apply shr_iter_ok.
  - eexists. split; [f_equal; lia|]. exact H0.
Qed.

Lemma shr_1_nonneg r : 0 <= shr_m r -> 0 <= shr_m (shr_1 r).
Proof.
  destruct r as [[|[p|p|]|p] rr ss]; cbn; lia.
Qed.

Lemma shr_nonneg r e n : 0 <= shr_m r -> 0 <= shr_m (fst (shr r e n)).
Proof.
  intros H. destruct n as [|p|p]; cbn [shr fst]; try assumption.
  rewrite iter_pos_nat. induction (Pos.to_nat p) as [|k IH]; [assumption|].
  cbn [Nat.iter]. by apply shr_1_nonneg.
Qed.

Lemma round_nearest_even_bounds m l :
  m <= round_nearest_even m l <= m + 1.
Proof.
  destruct l as [|[]]; cbn; try lia. destruct (Z.even m); lia.
Qed.

Lemma loc_of_shr_record_exact r :
  shr_r r = false -> shr_s r = false -> loc_of_shr_record r = loc_Exact.
Proof. destruct r as [m rr ss]. cbn. by intros -> ->. Qed.



(** ** Order of values [m * 2^e] *)

Lemma vle_base m1 e1 m2 e2 k :
  k <= e1 -> k <= e2 ->
  vle m1 e1 m2 e2 <-> m1 * 2 ^ (e1 - k) <= m2 * 2 ^ (e2 - k).
Proof.
  intros H1 H2. unfold vle. set (j := Z.min e1 e2).
  assert (Hj : k <= j) by (unfold j; lia).
  assert (Hj1 : j <= e1) by (unfold j; lia).
  assert (Hj2 : j <= e2) by (unfold j; lia).
  replace (e1 - k) with ((e1 - j) + (j - k)) by lia.
  replace (e2 - k) with ((e2 - j) + (j - k)) by lia.
  rewrite !Z.pow_add_r by lia.
  pose proof (pow2_pos (j - k) ltac:(lia)) as Hp.
  rewrite !Z.mul_assoc. split; intros H.
  - apply Z.mul_le_mono_nonneg_r; lia.
  - apply Z.mul_le_mono_pos_r in H; lia.
Qed.

Lemma vle_scaled m1 e1 m2 e2 k :
  vle m1 e1 m2 e2 -> k <= e1 -> k <= e2 ->
  m1 * 2 ^ (e1 - k) <= m2 * 2 ^ (e2 - k).
Proof. intros H H1 H2. by apply (proj1 (vle_base m1 e1 m2 e2 k H1 H2)). Qed.

Lemma vle_unscaled m1 e1 m2 e2 k :
  k <= e1 -> k <= e2 ->
  m1 * 2 ^ (e1 - k) <= m2 * 2 ^ (e2 - k) -> vle m1 e1 m2 e2.
Proof. intros H1 H2 H. by apply (proj2 (vle_base m1 e1 m2 e2 k H1 H2)). Qed.

Lemma cmp_scaled_lt m1 e1 m2 e2 :
  cmp_scaled m1 e1 m2 e2 = Lt <-> ~ vle m2 e2 m1 e1.
Proof.
  unfold cmp_scaled, vle. cbv zeta. rewrite Z.compare_lt_iff, (Z.min_comm e2 e1). lia.
Qed.

Lemma vle_trans m1 e1 m2 e2 m3 e3 :
  vle m1 e1 m2 e2 -> vle m2 e2 m3 e3 -> vle m1 e1 m3 e3.
Proof.
  set (k := Z.min e1 (Z.min e2 e3)).
  rewrite (vle_base m1 e1 m2 e2 k), (vle_base m2 e2 m3 e3 k), (vle_base m1 e1 m3 e3 k)
    by (unfold k; lia).
  lia.
Qed.

Lemma Zdigits2_bounds M :
  0 < M -> 0 < Zdigits2 M /\ 2 ^ (Zdigits2 M - 1) <= M < 2 ^ Zdigits2 M.
Proof.
  destruct M as [|p|p]; try lia. intros _. cbn [Zdigits2].
  split; [lia|apply digits2_pos_bounds].
Qed.

Lemma fexp32_mono a b : a <= b -> fexp32 a <= fexp32 b.
Proof. unfold fexp32. lia. Qed.

(** A smaller value has no more digits above the binary point. *)
Lemma vle_digits M e mb eb :
  0 < M -> 0 < mb -> vle M e mb eb ->
  Zdigits2 M + e <= Zdigits2 mb + eb.
Proof.
  intros HM Hmb H. unfold vle in H. set (k := Z.min e eb) in *.
  destruct (Zdigits2_bounds M HM) as (Hd & HM1 & _).
  destruct (Zdigits2_bounds mb Hmb) as (Hdb & _ & Hmb2).
  assert (Hk1 : 0 <= e - k) by (unfold k; lia).
  assert (Hk2 : 0 <= eb - k) by (unfold k; lia).
  pose proof (pow2_pos (e - k) Hk1). pose proof (pow2_pos (eb - k) Hk2).
  assert (Hlt : 2 ^ (Zdigits2 M - 1 + (e - k)) < 2 ^ (Zdigits2 mb + (eb - k))).
  { rewrite !Z.pow_add_r by lia.
    assert (2 ^ (Zdigits2 M - 1) * 2 ^ (e - k) <= M * 2 ^ (e - k))
      by (apply Z.mul_le_mono_nonneg_r; lia).
    assert (mb * 2 ^ (eb - k) < 2 ^ Zdigits2 mb * 2 ^ (eb - k))
      by (apply Z.mul_lt_mono_pos_r; lia).
    lia. }
  apply Z.pow_lt_mono_r_iff in Hlt; lia.
Qed.

(** A format number that is an upper bound stays one when the mantissa is
    shifted to the format's exponent and rounded. *)
Lemma floor_stage_upper M e mb eb k m2 :
  0 < M -> 0 < mb -> fexp32 (Zdigits2 mb + eb) = eb ->
  k <= e -> k <= eb ->
  M * 2 ^ (e - k) <= mb * 2 ^ (eb - k) ->
  let n := Z.max 0 (fexp32 (Zdigits2 M + e) - e) in
  M / 2 ^ n <= m2 <= M / 2 ^ n + 1 ->
  (M mod 2 ^ n = 0 -> m2 = M / 2 ^ n) ->
  m2 * 2 ^ (e + n - k) <= mb * 2 ^ (eb - k) /\ e + n <= Z.max e eb.
Proof.
  intros HM Hmb Hcan Hke Hkb Hle n Hm2 Hex.
  assert (Hdig : Zdigits2 M + e <= Zdigits2 mb + eb).
  { apply vle_digits; try assumption. by apply (vle_unscaled M e mb eb k). }
  apply fexp32_mono in Hdig. rewrite Hcan in Hdig.
  split; [|unfold n; lia].
  assert (Hn : 0 <= n) by (unfold n; lia).
  pose proof (pow2_pos n Hn) as Hpn.
  pose proof (pow2_pos (e - k) ltac:(lia)) as Hpe.
  destruct (Z.eq_dec n 0) as [Hn0|Hn0].
  - rewrite Hn0 in *. rewrite Z.pow_0_r, Z.div_1_r in *.
    rewrite Hex by apply Z.mod_1_r. by rewrite Z.add_0_r.
  - assert (He1 : e + n = fexp32 (Zdigits2 M + e)) by (unfold n in *; lia).
    assert (Hb : e + n <= eb) by lia.
    set (K := mb * 2 ^ (eb - (e + n))).
    assert (HB : mb * 2 ^ (eb - k) = K * (2 ^ n * 2 ^ (e - k))).
    { unfold K. rewrite <- Z.pow_add_r, <- Z.mul_assoc, <- Z.pow_add_r by lia.
      do 2 f_equal. lia. }
    replace (e + n - k) with (n + (e - k)) by lia. rewrite Z.pow_add_r by lia.
    rewrite HB in *.
    assert (HMK : M <= K * 2 ^ n) by nia.
    assert (Hm2K : m2 <= K).
    { destruct (Z.eq_dec (M / 2 ^ n) K) as [Heq|Hne].
      - rewrite Hex; [lia|]. Z.to_euclidean_division_equations. nia.
      - assert (M / 2 ^ n <= K) by (Z.to_euclidean_division_equations; nia). lia. }
    nia.
Qed.

(** A format number that is a lower bound stays one when the mantissa is
    shifted to the format's exponent (and then rounded, which never goes
    below the quotient). *)
Lemma floor_stage_lower M e ml el k :
  0 < M -> 0 < ml -> fexp32 (Zdigits2 ml + el) = el ->
  k <= e -> k <= el ->
  ml * 2 ^ (el - k) <= M * 2 ^ (e - k) ->
  let n := Z.max 0 (fexp32 (Zdigits2 M + e) - e) in
  ml * 2 ^ (el - k) <= M / 2 ^ n * 2 ^ (e + n - k).
Proof.
  intros HM Hml Hcan Hke Hkl Hle n.
  assert (Hn : 0 <= n) by (unfold n; lia).
  pose proof (pow2_pos n Hn) as Hpn.
  pose proof (pow2_pos (e - k) ltac:(lia)) as Hpe.
  pose proof (pow2_pos (el - k) ltac:(lia)) as Hpl.
  destruct (Z.eq_dec n 0) as [Hn0|Hn0].
  - rewrite Hn0 in *. by rewrite Z.pow_0_r, Z.div_1_r, Z.add_0_r.
  - assert (He1 : e + n = fexp32 (Zdigits2 M + e)) by (unfold n in *; lia).
    replace (e + n - k) with (n + (e - k)) by lia. rewrite Z.pow_add_r by lia.
    destruct (Z.le_gt_cases (e + n) el) as [Hb|Hb].
    + set (K := ml * 2 ^ (el - (e + n))).
      assert (HB : ml * 2 ^ (el - k) = K * (2 ^ n * 2 ^ (e - k))).
      { unfold K. rewrite <- Z.pow_add_r, <- Z.mul_assoc, <- Z.pow_add_r by lia.
        do 2 f_equal. lia. }
      rewrite HB in *.
      assert (HKM : K * 2 ^ n <= M) by nia.
      assert (K <= M / 2 ^ n) by (Z.to_euclidean_division_equations; nia).
      nia.
    + destruct (Zdigits2_bounds M HM) as (Hd & HM1 & _).
      destruct (Zdigits2_bounds ml Hml) as (Hdl & _ & Hml2).
      assert (Hdl24 : Zdigits2 ml <= 24) by (unfold fexp32 in Hcan; lia).
      assert (Hnd : n = Zdigits2 M - 24) by (unfold fexp32 in *; lia).
      assert (Hq : 2 ^ 23 <= M / 2 ^ n).
      { apply Z.div_le_lower_bound; [lia|].
        replace (Zdigits2 M - 1) with (n + 23) in HM1 by lia.
        rewrite Z.pow_add_r in HM1 by lia. lia. }
      assert (Hml24 : ml < 2 ^ 24).
      { apply Z.lt_le_trans with (2 ^ Zdigits2 ml); [lia|].
        apply Z.pow_le_mono_r; lia. }
      assert (Hpow : 2 * 2 ^ (el - k) <= 2 ^ n * 2 ^ (e - k)).
      { rewrite <- Z.pow_add_r by lia.
        replace (2 * 2 ^ (el - k)) with (2 ^ (el - k + 1)) by (rewrite pow2_succ; lia).
        apply Z.pow_le_mono_r; lia. }
      change (2 ^ 23) with 8388608 in Hq. change (2 ^ 24) with 16777216 in Hml24.
      nia.
Qed.



(** ** [binary_round_aux] on an exact mantissa *)

Lemma round_aux_shape s M e :
  0 < M ->
  exists m2,
    let n1 := Z.max 0 (fexp32 (Zdigits2 M + e) - e) in
    let n2 := Z.max 0 (fexp32 (Zdigits2 m2 + (e + n1)) - (e + n1)) in
    M / 2 ^ n1 <= m2 <= M / 2 ^ n1 + 1 /\
    (M mod 2 ^ n1 = 0 -> m2 = M / 2 ^ n1) /\
    binary_round_aux f32_prec f32_emax s M e loc_Exact
    = round_result s (m2 / 2 ^ n2) (e + n1 + n2).
Proof.
  intros HM. unfold binary_round_aux, shr_fexp.
  change (fexp f32_prec f32_emax (Zdigits2 M + e)) with (fexp32 (Zdigits2 M + e)).
  destruct (shr_exact M e (fexp32 (Zdigits2 M + e) - e) ltac:(lia))
    as (r1 & Heq1 & Hm1 & Hex1).
  rewrite Heq1.
  set (n1 := Z.max 0 (fexp32 (Zdigits2 M + e) - e)) in *.
  set (m2 := round_nearest_even (shr_m r1) (loc_of_shr_record r1)).
  assert (Hn1 : 0 <= n1) by (unfold n1; lia).
  pose proof (pow2_pos n1 Hn1) as Hp1.
  assert (Hr1 : 0 <= shr_m r1) by (rewrite Hm1; apply Z.div_pos; lia).
  pose proof (round_nearest_even_bounds (shr_m r1) (loc_of_shr_record r1)) as Hb.
  fold m2 in Hb.
  destruct (shr_exact m2 (e + n1) (fexp32 (Zdigits2 m2 + (e + n1)) - (e + n1)) ltac:(lia))
    as (r2 & Heq2 & Hm2 & _).
  change (fexp f32_prec f32_emax (Zdigits2 m2 + (e + n1)))
    with (fexp32 (Zdigits2 m2 + (e + n1))).
  rewrite Heq2. exists m2. cbv zeta.
  split; [rewrite <- Hm1; exact Hb|].
  split.
  - intros H. destruct (Hex1 H) as [Hr Hs]. unfold m2.
    rewrite (loc_of_shr_record_exact r1 Hr Hs). cbn. exact Hm1.
  - rewrite Hm2. reflexivity.
Qed.

Lemma round_aux_below s M e mb eb :
  0 < M -> e <= 104 -> format32 mb eb -> vle M e mb eb ->
  below s (binary_round_aux f32_prec f32_emax s M e loc_Exact) mb eb.
Proof.
  intros HM He (Hmb & Hcan & Heb) Hle.
  destruct (round_aux_shape s M e HM) as (m2 & Hm2 & Hex & ->).
  set (k := Z.min e eb).
  apply (vle_scaled M e mb eb k) in Hle; [|unfold k; lia..].
  set (n1 := Z.max 0 (fexp32 (Zdigits2 M + e) - e)) in *.
  destruct (floor_stage_upper M e mb eb k m2 HM Hmb Hcan ltac:(unfold k; lia)
              ltac:(unfold k; lia) Hle Hm2 Hex) as [Hs1 He1].
  fold n1 in Hs1, He1.
  set (e1 := e + n1) in *.
  set (n2 := Z.max 0 (fexp32 (Zdigits2 m2 + e1) - e1)).
  assert (Hn2 : 0 <= n2) by (unfold n2; lia).
  pose proof (pow2_pos n2 Hn2) as Hp2.
  assert (Hk1 : k <= e1) by (unfold e1, n1, k; lia).
  pose proof (pow2_pos (e1 - k) ltac:(lia)) as Hpe.
  unfold round_result.
  destruct (m2 / 2 ^ n2) as [|p|p] eqn:Hq; [reflexivity| |].
  - assert (Hm2pos : 0 < m2).
    { destruct (Z.le_gt_cases m2 0) as [Hn|]; [|assumption]. exfalso.
      assert (m2 / 2 ^ n2 <= 0) by (Z.to_euclidean_division_equations; nia). lia. }
    assert (Hdig : Zdigits2 m2 + e1 <= Zdigits2 mb + eb).
    { apply vle_digits; try assumption.
      apply (vle_unscaled m2 e1 mb eb k); [lia|unfold k; lia|exact Hs1]. }
    apply fexp32_mono in Hdig. rewrite Hcan in Hdig.
    assert (Hef : e1 + n2 <= 104) by (unfold n2; lia).
    apply Z.leb_le in Hef. rewrite Hef. split; [reflexivity|].
    apply (vle_unscaled (Zpos p) (e1 + n2) mb eb k); [lia|unfold k; lia|].
    replace (e1 + n2 - k) with (n2 + (e1 - k)) by lia. rewrite Z.pow_add_r by lia.
    assert (Z.pos p * 2 ^ n2 <= m2) by (rewrite <- Hq; Z.to_euclidean_division_equations; nia).
    nia.
  - exfalso.
    assert (0 <= m2) by (pose proof (Z.div_pos M (2 ^ n1) ltac:(lia) ltac:(unfold n1; apply pow2_pos; lia)); lia).
    assert (0 <= m2 / 2 ^ n2) by (apply Z.div_pos; lia). lia.
Qed.

Lemma round_aux_above s M e ml el :
  0 < M -> 0 < ml -> fexp32 (Zdigits2 ml + el) = el -> vle ml el M e ->
  above s (binary_round_aux f32_prec f32_emax s M e loc_Exact) ml el.
Proof.
  intros HM Hml Hcan Hle.
  destruct (round_aux_shape s M e HM) as (m2 & Hm2 & _ & ->).
  set (k := Z.min e el).
  apply (vle_scaled ml el M e k) in Hle; [|unfold k; lia..].
  pose proof (floor_stage_lower M e ml el k HM Hml Hcan ltac:(unfold k; lia)
                ltac:(unfold k; lia) Hle) as Hs1.
  set (n1 := Z.max 0 (fexp32 (Zdigits2 M + e) - e)) in *.
  cbv zeta in Hs1. fold n1 in Hs1.
  set (e1 := e + n1) in *.
  assert (Hk1 : k <= e1) by (unfold e1, n1, k; lia).
  pose proof (pow2_pos (e1 - k) ltac:(lia)) as Hpe.
  pose proof (pow2_pos (el - k) ltac:(unfold k; lia)) as Hpl.
  assert (Hs2 : ml * 2 ^ (el - k) <= m2 * 2 ^ (e1 - k)) by nia.
  assert (Hm2pos : 0 < m2) by nia.
  pose proof (floor_stage_lower m2 e1 ml el k Hm2pos Hml Hcan Hk1
                ltac:(unfold k; lia) Hs2) as Hs3.
  set (n2 := Z.max 0 (fexp32 (Zdigits2 m2 + e1) - e1)) in *.
  cbv zeta in Hs3. fold n2 in Hs3.
  assert (Hn2 : 0 <= n2) by (unfold n2; lia).
  pose proof (pow2_pos (e1 + n2 - k) ltac:(lia)) as Hpf.
  unfold round_result.
  destruct (m2 / 2 ^ n2) as [|p|p] eqn:Hq; [lia| |nia].
  destruct (e1 + n2 <=? 104); [|reflexivity].
  split; [reflexivity|].
  apply (vle_unscaled ml el (Zpos p) (e1 + n2) k); [unfold k; lia|lia|exact Hs3].
Qed.

(** With any location, [binary_round_aux] on a non-negative mantissa does
    not build a NaN. *)
Lemma round_aux_not_nan s m e l :
  0 <= m -> binary_round_aux f32_prec f32_emax s m e l <> S754_nan.
Proof.
  intros Hm. unfold binary_round_aux, shr_fexp.
  destruct (shr (shr_record_of_loc m l) e _) as [r1 e1] eqn:E1.
  assert (H1 : 0 <= shr_m r1).
  { replace r1 with (fst (shr (shr_record_of_loc m l) e
                            (fexp f32_prec f32_emax (Zdigits2 m + e) - e)))
      by (by rewrite E1).
    apply shr_nonneg. destruct l as [|[]]; exact Hm. }
  set (m2 := round_nearest_even (shr_m r1) (loc_of_shr_record r1)).
  pose proof (round_nearest_even_bounds (shr_m r1) (loc_of_shr_record r1)) as Hb.
  fold m2 in Hb.
  destruct (shr (shr_record_of_loc m2 loc_Exact) e1 _) as [r2 e2] eqn:E2.
  assert (H2 : 0 <= shr_m r2).
  { replace r2 with (fst (shr (shr_record_of_loc m2 loc_Exact) e1
                            (fexp f32_prec f32_emax (Zdigits2 m2 + e1) - e1)))
      by (by rewrite E2).
    apply shr_nonneg. cbn. lia. }
  destruct (shr_m r2) as [|p|p]; [discriminate| |lia].
  destruct (_ <=? _); discriminate.
Qed.



(** ** [binary_round] and [binary_normalize] *)

Lemma pos_iter_xO m d : Zpos (Pos.iter xO m d) = Zpos m * 2 ^ Zpos d.
Proof.
  induction d as [|d IH] using Pos.peano_ind.
  - cbn. lia.
  - rewrite Pos.iter_succ, Pos2Z.inj_xO, IH, Pos2Z.inj_succ, <- Z.add_1_r, pow2_succ by lia.
    lia.
Qed.

Lemma shl_align_spec mx ex ex' :
  snd (shl_align mx ex ex') = Z.min ex ex' /\
  Zpos (fst (shl_align mx ex ex')) = Zpos mx * 2 ^ (ex - Z.min ex ex').
Proof.
  unfold shl_align. destruct (ex' - ex) as [|d|d] eqn:E; cbn [fst snd].
  - replace (Z.min ex ex') with ex by lia. rewrite Z.sub_diag. lia.
  - replace (Z.min ex ex') with ex by lia. rewrite Z.sub_diag. lia.
  - replace (Z.min ex ex') with ex' by lia.
    rewrite pos_iter_xO. split; [reflexivity|]. do 2 f_equal. lia.
Qed.

(** Aligning keeps the value. *)
Lemma shl_align_vle mx ex ex' m e :
  vle (Zpos mx) ex m e <->
  vle (Zpos (fst (shl_align mx ex ex'))) (snd (shl_align mx ex ex')) m e.
Proof.
  destruct (shl_align_spec mx ex ex') as [-> ->].
  set (j := Z.min ex ex'). set (k := Z.min j e).
  rewrite (vle_base (Zpos mx) ex m e k), (vle_base (Zpos mx * 2 ^ (ex - j)) j m e k)
    by (unfold k, j; lia).
  rewrite <- Z.mul_assoc, <- Z.pow_add_r by (unfold k, j; lia).
  replace (ex - j + (j - k)) with (ex - k) by lia. reflexivity.
Qed.

Lemma shl_align_vge mx ex ex' m e :
  vle m e (Zpos mx) ex <->
  vle m e (Zpos (fst (shl_align mx ex ex'))) (snd (shl_align mx ex ex')).
Proof.
  destruct (shl_align_spec mx ex ex') as [-> ->].
  set (j := Z.min ex ex'). set (k := Z.min j e).
  rewrite (vle_base m e (Zpos mx) ex k), (vle_base m e (Zpos mx * 2 ^ (ex - j)) j k)
    by (unfold k, j; lia).
  rewrite <- Z.mul_assoc, <- Z.pow_add_r by (unfold k, j; lia).
  replace (ex - j + (j - k)) with (ex - k) by lia. reflexivity.
Qed.

Lemma binary_round_unfold s mx ex :
  binary_round f32_prec f32_emax s mx ex
  = binary_round_aux f32_prec f32_emax s
      (Zpos (fst (shl_align mx ex (fexp32 (Zpos (digits2_pos mx) + ex)))))
      (snd (shl_align mx ex (fexp32 (Zpos (digits2_pos mx) + ex)))) loc_Exact.
Proof.
  unfold binary_round.
  change (fexp f32_prec f32_emax (Zpos (digits2_pos mx) + ex))
    with (fexp32 (Zpos (digits2_pos mx) + ex)).
  destruct (shl_align mx ex _). reflexivity.
Qed.

Lemma binary_round_below s mx ex mb eb :
  ex <= 104 -> format32 mb eb -> vle (Zpos mx) ex mb eb ->
  below s (binary_round f32_prec f32_emax s mx ex) mb eb.
Proof.
  intros He Hf Hle. rewrite binary_round_unfold.
  apply round_aux_below; [lia| |exact Hf|by apply shl_align_vle].
  destruct (shl_align_spec mx ex (fexp32 (Zpos (digits2_pos mx) + ex))) as [-> _]. lia.
Qed.

Lemma binary_round_above s mx ex ml el :
  0 < ml -> fexp32 (Zdigits2 ml + el) = el -> vle ml el (Zpos mx) ex ->
  above s (binary_round f32_prec f32_emax s mx ex) ml el.
Proof.
  intros Hml Hcan Hle. rewrite binary_round_unfold.
  apply round_aux_above; [lia|assumption..|by apply shl_align_vge].
Qed.

Lemma binary_round_not_nan s mx ex :
  binary_round f32_prec f32_emax s mx ex <> S754_nan.
Proof. rewrite binary_round_unfold. apply round_aux_not_nan. lia. Qed.

Lemma round_aux_has_sign s m e l :
  0 <= m -> has_sign s (binary_round_aux f32_prec f32_emax s m e l).
Proof.
  intros Hm. pose proof (round_aux_not_nan s m e l Hm) as Hn.
  unfold binary_round_aux in *.
  destruct (shr_fexp _ _ m e l) as [r1 e1].
  destruct (shr_fexp _ _ _ e1 loc_Exact) as [r2 e2].
  destruct (shr_m r2); [reflexivity| |contradiction].
  destruct (_ <=? _); reflexivity.
Qed.

Lemma binary_round_has_sign s mx ex :
  has_sign s (binary_round f32_prec f32_emax s mx ex).
Proof. rewrite binary_round_unfold. apply round_aux_has_sign. lia. Qed.

Lemma binary_normalize_not_nan m e sz :
  binary_normalize f32_prec f32_emax m e sz <> S754_nan.
Proof.
  destruct m; cbn [binary_normalize]; [discriminate|apply binary_round_not_nan..].
Qed.

Lemma below_mag_le s f mb eb : below s f mb eb -> mag_le f mb eb.
Proof. destruct f; cbn; tauto. Qed.

Lemma mag_le_finite f mb eb : mag_le f mb eb -> is_finite f = true.
Proof. destruct f; cbn; tauto. Qed.

Lemma binary_normalize_mag_le m e sz mb eb :
  e <= 104 -> format32 mb eb -> vle (Z.abs m) e mb eb ->
  mag_le (binary_normalize f32_prec f32_emax m e sz) mb eb.
Proof.
  intros He Hf Hle. destruct m as [|p|p]; cbn [binary_normalize]; [exact I| |].
  - apply (below_mag_le false). by apply binary_round_below.
  - apply (below_mag_le true). by apply binary_round_below.
Qed.



(** ** Operations that cannot build a NaN *)

Lemma f32_mul_finite_r_not_nan v s m e :
  v <> S754_nan -> f32_mul v (S754_finite s m e) <> S754_nan.
Proof.
  intros Hv. destruct v as [sv|sv| |sv mv ev]; cbn; try discriminate; [contradiction|].
  apply round_aux_not_nan. lia.
Qed.

Lemma f32_add_finite_r_not_nan a w :
  a <> S754_nan -> is_finite w = true -> f32_add a w <> S754_nan.
Proof.
  intros Ha Hw.
  destruct a as [sa|sa| |sa ma ea]; destruct w as [sw|sw| |sw mw ew];
    try discriminate; try contradiction; cbn.
  - destruct sa, sw; discriminate.
  - apply binary_normalize_not_nan.
Qed.

Lemma div_eucl_nonneg a b : 0 <= a -> 0 < b -> 0 <= fst (IntDef.Z.div_eucl a b).
Proof.
  intros Ha Hb. change (fst (IntDef.Z.div_eucl a b)) with (a / b). apply Z.div_pos; lia.
Qed.

Lemma f32_div_finite_r_not_nan v s m e :
  v <> S754_nan -> f32_div v (S754_finite s m e) <> S754_nan.
Proof.
  intros Hv. destruct v as [sv|sv| |sv mv ev]; cbn; try discriminate; [contradiction|].
  unfold SFdiv_core_binary.
  match goal with
  | |- context [IntDef.Z.div_eucl ?a ?b] =>
      pose proof (div_eucl_nonneg a b) as Hq; destruct (IntDef.Z.div_eucl a b) as [q r]
  end.
  apply round_aux_not_nan. apply Hq; [|lia].
  destruct (_ - _ - _) as [|p|p]; try lia.
  apply Z.shiftl_nonneg. lia.
Qed.

Lemma fmodf_finite_not_nan x s m e :
  is_finite x = true -> fmodf x (S754_finite s m e) <> S754_nan.
Proof.
  destruct x as [sx|sx| |sx mx ex]; cbn [is_finite]; try discriminate; intros _; cbn [fmodf].
  apply binary_normalize_not_nan.
Qed.

(** ** The clamp, the inversion and the scaling to a byte *)

Lemma f32_of_Z_0 : f32_of_Z 0 = S754_zero false.
Proof. reflexivity. Qed.

Lemma f32_of_Z_1 : f32_of_Z 1 = S754_finite false (2 ^ 23) (-23).
Proof. reflexivity. Qed.

Lemma f32_of_Z_255 : f32_of_Z 255 = S754_finite false 16711680 (-16).
Proof. reflexivity. Qed.

Lemma format32_one : format32 (2 ^ 23) (-23).
Proof. repeat split; cbn; lia. Qed.

Lemma format32_255 : format32 16711680 (-16).
Proof. repeat split; cbn; lia. Qed.

Lemma unit_range_one : unit_range (S754_finite false (2 ^ 23) (-23)).
Proof. cbn. unfold vle. lia. Qed.

Lemma f32_lt_finite_zero s m e :
  f32_lt (S754_finite s m e) (S754_zero false) = s.
Proof.
  unfold f32_lt, f32_compare, cmp_scaled. cbn [f32_num f32_exp].
  pose proof (pow2_pos (e - Z.min e 0) ltac:(lia)) as Hp.
  destruct s; cbn [sgn_Z].
  - assert (H : (Zneg m * 2 ^ (e - Z.min e 0) ?= 0 * 2 ^ (0 - Z.min e 0)) = Lt)
      by (apply Z.compare_lt_iff; lia).
    by rewrite H.
  - assert (H : (Zpos m * 2 ^ (e - Z.min e 0) ?= 0 * 2 ^ (0 - Z.min e 0)) = Gt)
      by (apply Z.compare_gt_iff; lia).
    by rewrite H.
Qed.

Lemma f32_lt_false_vle m1 e1 m2 e2 :
  f32_lt (S754_finite false m1 e1) (S754_finite false m2 e2) = false ->
  vle (Zpos m2) e2 (Zpos m1) e1.
Proof.
  unfold f32_lt, f32_compare. cbn [f32_num f32_exp sgn_Z]. intros H.
  destruct (cmp_scaled (Zpos m1) e1 (Zpos m2) e2) eqn:E; try discriminate.
  - unfold cmp_scaled in E. cbv zeta in E. apply Z.compare_eq_iff in E.
    unfold vle. rewrite (Z.min_comm e2 e1). lia.
  - unfold cmp_scaled in E. cbv zeta in E. apply Z.compare_gt_iff in E.
    unfold vle. rewrite (Z.min_comm e2 e1). lia.
Qed.

Lemma f32_lt_true_nvle m1 e1 m2 e2 :
  f32_lt (S754_finite false m1 e1) (S754_finite false m2 e2) = true ->
  ~ vle (Zpos m2) e2 (Zpos m1) e1.
Proof.
  unfold f32_lt, f32_compare. cbn [f32_num f32_exp sgn_Z]. intros H.
  destruct (cmp_scaled (Zpos m1) e1 (Zpos m2) e2) eqn:E; try discriminate.
  by apply cmp_scaled_lt.
Qed.

(** Clamping a float that is not a NaN puts it in [0, 1]. *)
Lemma clamp_unit_range v :
  v <> S754_nan ->
  let value := if f32_lt v (f32_of_Z 0) then f32_of_Z 0 else v in
  unit_range (if f32_gt value (f32_of_Z 1) then f32_of_Z 1 else value).
Proof.
  intros Hv. rewrite f32_of_Z_0, f32_of_Z_1. cbv zeta.
  destruct v as [s|s| |s m e]; [| | contradiction |].
  - by destruct s.
  - destruct s; [exact I|apply unit_range_one].
  - rewrite f32_lt_finite_zero. destruct s; [exact I|].
    unfold f32_gt.
    destruct (f32_lt (S754_finite false (2 ^ 23) (-23)) (S754_finite false m e)) eqn:E.
    + apply unit_range_one.
    + by apply f32_lt_false_vle in E.
Qed.

(** [1.0f - value] stays in [0, 1]. *)
Lemma sub_one_unit_range c :
  unit_range c -> unit_range (f32_sub (f32_of_Z 1) c).
Proof.
  rewrite f32_of_Z_1. destruct c as [s|s| |s m e]; try contradiction.
  - intros _. apply unit_range_one.
  - destruct s; [contradiction|]. intros Hc.
    unfold f32_sub, SFsub. cbn [cond_Zopp].
    set (ez := Z.min (-23) e).
    destruct (shl_align_spec (2 ^ 23) (-23) ez) as [_ H1].
    destruct (shl_align_spec m e ez) as [_ H2].
    rewrite H1, H2.
    replace (Z.min (-23) ez) with ez by (unfold ez; lia).
    replace (Z.min e ez) with ez by (unfold ez; lia).
    apply (vle_scaled (Zpos m) e (2 ^ 23) (-23) ez) in Hc; [|unfold ez; lia..].
    change (Zpos (2 ^ 23)) with (2 ^ 23) in *.
    set (N := 2 ^ 23 * 2 ^ (-23 - ez) - Zpos m * 2 ^ (e - ez)).
    assert (HN : 0 <= N) by (unfold N; lia).
    pose proof (pow2_pos (e - ez) ltac:(unfold ez; lia)) as Hpe.
    destruct N as [|p|p] eqn:EN; [exact I| |lia].
    cbn [binary_normalize].
    assert (Hb : below false (binary_round f32_prec f32_emax false p ez) (2 ^ 23) (-23)).
    { apply binary_round_below; [unfold ez; lia|apply format32_one|].
      apply (vle_unscaled (Zpos p) ez (2 ^ 23) (-23) ez); [lia|unfold ez; lia|].
      rewrite Z.sub_diag, Z.pow_0_r. lia. }
    destruct (binary_round f32_prec f32_emax false p ez) as [s'|s'| |s' m' e'];
      cbn in Hb |- *; try tauto.
    destruct Hb as [-> Hb]. exact Hb.
Qed.

Lemma clamp_invert_unit_range v st :
  v <> S754_nan -> unit_range (clamp_invert v st).
Proof.
  intros Hv. unfold clamp_invert.
  pose proof (clamp_unit_range v Hv) as H. cbv zeta in H.
  destruct (invert st); [by apply sub_one_unit_range|exact H].
Qed.

(** The integral part of a non-negative float that is at most the integer [B]. *)
Lemma f32_trunc_bound m e B :
  vle (Zpos m) e B 0 ->
  exists z, f32_trunc (S754_finite false m e) = Some z /\ 0 <= z <= B.
Proof.
  intros H. cbn [f32_trunc sgn_Z]. eexists. split; [reflexivity|].
  destruct (Z.leb_spec 0 e) as [He|He].
  - apply (vle_scaled (Zpos m) e B 0 0) in H; [|lia..].
    rewrite Z.sub_0_r, Z.sub_diag, Z.pow_0_r in H.
    pose proof (pow2_pos e He). nia.
  - apply (vle_scaled (Zpos m) e B 0 e) in H; [|lia..].
    rewrite Z.sub_diag, Z.pow_0_r, Z.sub_0_l in H.
    pose proof (pow2_pos (- e) ltac:(lia)) as Hp.
    rewrite Z.quot_div_nonneg by lia.
    split; [apply Z.div_pos; lia|].
    apply Z.div_le_upper_bound; lia.
Qed.

(** [value * 255] for [value] in [0, 1] has its integral part in [0..255]. *)
Lemma scale_byte c :
  unit_range c ->
  exists z, f32_trunc (f32_mul c (f32_of_Z 255)) = Some z /\ 0 <= z <= 255.
Proof.
  rewrite f32_of_Z_255. destruct c as [s|s| |s m e]; try contradiction.
  - intros _. exists 0. cbn. split; [reflexivity|lia].
  - destruct s; [contradiction|]. intros Hc.
    unfold f32_mul, SFmul. cbn [xorb].
    assert (He : e <= 0).
    { pose proof (vle_digits (Zpos m) e (2 ^ 23) (-23) ltac:(lia) (pow2_pos 23 ltac:(lia)) Hc) as Hd.
      destruct (Zdigits2_bounds (Zpos m) ltac:(lia)) as [Hd0 _].
      change (Zdigits2 (2 ^ 23)) with 24 in Hd. lia. }
    assert (Hb : below false
                   (binary_round_aux f32_prec f32_emax false (Zpos (m * 16711680))
                      (e + -16) loc_Exact) 16711680 (-16)).
    { apply round_aux_below; [lia|lia|apply format32_255|].
      set (k := Z.min e (-23) + -16).
      apply (vle_scaled (Zpos m) e (2 ^ 23) (-23) (Z.min e (-23))) in Hc; [|lia..].
      apply (vle_unscaled _ _ _ _ k); [unfold k; lia..|].
      rewrite Pos2Z.inj_mul.
      replace (e + -16 - k) with (e - Z.min e (-23)) by (unfold k; lia).
      replace (-16 - k) with (-23 - Z.min e (-23) + 23) by (unfold k; lia).
      rewrite Z.pow_add_r by lia.
      change (2 ^ 23) with 8388608 in *. nia. }
    destruct (binary_round_aux _ _ _ _ _ _) as [s'|s'| |s' m' e'];
      cbn [below] in Hb; try contradiction.
    + exists 0. cbn. split; [reflexivity|lia].
    + destruct Hb as [-> Hb]. apply f32_trunc_bound.
      apply (vle_trans _ _ _ _ _ _ Hb). unfold vle. vm_compute. discriminate.
Qed.



(** ** The value before the clamp is not a NaN *)

Lemma forallb_range (P : Z -> bool) (n : nat) :
  forallb P (map Z.of_nat (seq 0 n)) = true ->
  forall z, 0 <= z < Z.of_nat n -> P z = true.
Proof.
  intros H z Hz. rewrite forallb_forall in H. apply H.
  apply in_map_iff. exists (Z.to_nat z). split; [lia|].
  apply in_seq. lia.
Qed.

Lemma mag_leb_spec f mb eb : mag_leb f mb eb = true -> mag_le f mb eb.
Proof.
  destruct f as [s|s| |s m e]; cbn [mag_leb mag_le]; try discriminate; [tauto|].
  intros H. unfold vle. unfold cmp_scaled in H. cbv zeta in H.
  apply Z.compare_le_iff. intros E. rewrite E in H. discriminate H.
Qed.

Lemma pixels_ok :
  forallb (fun y => forallb (fun x => pixel_ok x y)
                      (map Z.of_nat (seq 0 SCREEN_WIDTH)))
          (map Z.of_nat (seq 0 SCREEN_HEIGHT)) = true.
Proof. vm_compute. reflexivity. Qed.

Lemma pixel_ok_raster x y :
  0 <= x < Z.of_nat SCREEN_WIDTH -> 0 <= y < Z.of_nat SCREEN_HEIGHT ->
  pixel_ok x y = true.
Proof.
  intros Hx Hy.
  pose proof (forallb_range _ _ pixels_ok y Hy) as H. cbv beta in H.
  exact (forallb_range _ _ H x Hx).
Qed.

Lemma f32_of_Z_not_nan z : f32_of_Z z <> S754_nan.
Proof. apply binary_normalize_not_nan. Qed.

Lemma is_finite_not_nan f : is_finite f = true -> f <> S754_nan.
Proof. destruct f; cbn; congruence. Qed.

(** The quotient of an integer by a nonzero integer constant. *)
Lemma f32_div_of_Z_not_nan z c s m e :
  f32_of_Z c = S754_finite s m e ->
  f32_div (f32_of_Z z) (f32_of_Z c) <> S754_nan.
Proof.
  intros ->. apply f32_div_finite_r_not_nan, f32_of_Z_not_nan.
Qed.

Lemma format32_16 : format32 (2 ^ 23) (-19).
Proof. repeat split; cbn; lia. Qed.

(** An angle of magnitude at most 4 plus a float of magnitude at most 8 is
    finite. *)
Lemma f32_add_angle_finite a t :
  mag_le a (2 ^ 23) (-21) -> mag_le t (2 ^ 23) (-20) ->
  is_finite (f32_add a t) = true.
Proof.
  intros Ha Ht.
  destruct a as [sa|sa| |sa ma ea]; try contradiction;
    destruct t as [st|st| |st mt et]; try contradiction; cbn [mag_le] in *.
  - cbn. by destruct sa, st.
  - reflexivity.
  - reflexivity.
  - unfold f32_add, SFadd. apply (mag_le_finite _ (2 ^ 23) (-19)).
    set (ez := Z.min ea et).
    destruct (shl_align_spec ma ea ez) as [_ H1].
    destruct (shl_align_spec mt et ez) as [_ H2].
    rewrite H1, H2.
    replace (Z.min ea ez) with ez by (unfold ez; lia).
    replace (Z.min et ez) with ez by (unfold ez; lia).
    assert (Het : et <= 3).
    { pose proof (vle_digits (Zpos mt) et (2 ^ 23) (-20) ltac:(lia)
                    (pow2_pos 23 ltac:(lia)) Ht) as Hd.
      destruct (Zdigits2_bounds (Zpos mt) ltac:(lia)) as [Hd0 _].
      change (Zdigits2 (2 ^ 23)) with 24 in Hd. lia. }
    apply binary_normalize_mag_le; [unfold ez; lia|apply format32_16|].
    set (k := Z.min ez (-21)).
    apply (vle_scaled _ _ _ _ k) in Ha; [|unfold k, ez; lia..].
    apply (vle_scaled _ _ _ _ k) in Ht; [|unfold k, ez; lia..].
    apply (vle_unscaled _ _ _ _ k); [unfold k; lia..|].
    pose proof (pow2_pos (ez - k) ltac:(unfold k; lia)) as Hpz.
    pose proof (pow2_pos (ea - ez) ltac:(unfold ez; lia)) as Hpa.
    pose proof (pow2_pos (et - ez) ltac:(unfold ez; lia)) as Hpt.
    pose proof (pow2_pos (-21 - k) ltac:(unfold k; lia)) as Hpk.
    replace (ea - k) with ((ea - ez) + (ez - k)) in Ha by lia.
    replace (et - k) with ((et - ez) + (ez - k)) in Ht by lia.
    rewrite Z.pow_add_r in Ha, Ht by (unfold k, ez; lia).
    replace (-20 - k) with (-21 - k + 1) in Ht by lia.
    replace (-19 - k) with (-21 - k + 2) by lia.
    rewrite Z.pow_add_r in Ht |- * by lia.
    change (2 ^ 1) with 2 in Ht. change (2 ^ 2) with 4.
    change (2 ^ 23) with 8388608 in *.
    set (A := Zpos ma * 2 ^ (ea - ez)) in *.
    set (T := Zpos mt * 2 ^ (et - ez)) in *.
    assert (HA : 0 < A) by (unfold A; lia).
    assert (HT : 0 < T) by (unfold T; lia).
    assert (Habs : Z.abs (cond_Zopp sa A + cond_Zopp st T) <= A + T)
      by (destruct sa, st; cbn [cond_Zopp]; lia).
    assert (Ha' : A * 2 ^ (ez - k) <= 8388608 * 2 ^ (-21 - k)) by (unfold A; lia).
    assert (Ht' : T * 2 ^ (ez - k) <= 8388608 * (2 ^ (-21 - k) * 2)) by (unfold T; lia).
    assert (Hm : Z.abs (cond_Zopp sa A + cond_Zopp st T) * 2 ^ (ez - k)
                 <= (A + T) * 2 ^ (ez - k))
      by (apply Z.mul_le_mono_nonneg_r; lia).
    lia.
Qed.



Section Range.
Context {platform : Platform}.

Lemma simple_noise_range x y s : 0 <= simple_noise x y s < 256.
Proof.
  unfold simple_noise. cbv zeta. change 255 with (Z.ones 8).
  rewrite Z.land_ones by lia. apply Z.mod_pos_bound. lia.
Qed.

Lemma noise_term_finite n :
  0 <= n < 256 ->
  is_finite (f32_mul (f32_div (f32_of_Z n) (f32_of_Z 255)) (f32_lit 3 10)) = true.
Proof.
  apply (forallb_range
           (fun n => is_finite (f32_mul (f32_div (f32_of_Z n) (f32_of_Z 255))
                                        (f32_lit 3 10))) 256).
  vm_compute. reflexivity.
Qed.

Lemma noise_overlay_not_nan x y v st :
  v <> S754_nan -> noise_overlay x y v st <> S754_nan.
Proof.
  intros Hv. unfold noise_overlay. destruct (f32_gt _ _); [|exact Hv].
  apply f32_add_finite_r_not_nan.
  - change (f32_lit 7 10) with (S754_finite false 11744051 (-24)).
    by apply f32_mul_finite_r_not_nan.
  - apply noise_term_finite, simple_noise_range.
Qed.

Lemma gradient_switch_not_nan x y st :
  atan2f_bounded ->
  0 <= x < Z.of_nat SCREEN_WIDTH -> 0 <= y < Z.of_nat SCREEN_HEIGHT ->
  gradient_switch x y (norm_x x) (norm_y y) st <> S754_nan.
Proof.
  intros Hatan Hx Hy.
  pose proof (pixel_ok_raster x y Hx Hy) as Hok. unfold pixel_ok in Hok.
  cbv zeta in Hok.
  repeat (apply andb_prop in Hok as [Hok ?]).
  match goal with H : mag_leb _ _ _ = true |- _ => apply mag_leb_spec in H; rename H into Ht end.
  match goal with H : is_finite (centre_distance _ _) = true |- _ => rename H into Hdist end.
  match goal with H : is_finite (f32_sub (norm_y _) _) = true |- _ => rename H into Hdy end.
  match goal with H : is_finite (f32_sub (norm_x _) _) = true |- _ => rename H into Hdx end.
  match goal with H : is_finite (norm_y _) = true |- _ => rename H into Hny end.
  rename Hok into Hnx.
  assert (H0 : norm_x x <> S754_nan) by (by apply is_finite_not_nan).
  assert (H1 : norm_y y <> S754_nan) by (by apply is_finite_not_nan).
  assert (H2 : f32_mul (centre_distance x y) (f32_lit 1414 1000) <> S754_nan).
  { change (f32_lit 1414 1000) with (S754_finite false 11861492 (-23)).
    by apply f32_mul_finite_r_not_nan, is_finite_not_nan. }
  assert (H3 : f32_div (f32_add (norm_x x) (norm_y y)) (f32_of_Z 2) <> S754_nan).
  { change (f32_of_Z 2) with (S754_finite false (2 ^ 23) (-22)).
    by apply f32_div_finite_r_not_nan, f32_add_finite_r_not_nan. }
  assert (H4 : forall a, f32_div (f32_of_Z a) (f32_of_Z 128) <> S754_nan)
    by (intros a; by apply (f32_div_of_Z_not_nan a 128 false (2 ^ 23) (-16))).
  assert (H8 : forall a, f32_div (f32_of_Z a) (f32_of_Z 255) <> S754_nan)
    by (intros a; by apply (f32_div_of_Z_not_nan a 255 false 16711680 (-16))).
  assert (H9 : f32_div
                 (fmodf (f32_add (atan2f (f32_sub (norm_y y) (f32_lit 5 10))
                                         (f32_sub (norm_x x) (f32_lit 5 10)))
                                 (f32_mul (centre_distance x y) (f32_of_Z 10)))
                        (f32_lit 628 100))
                 (f32_lit 628 100) <> S754_nan).
  { change (f32_lit 628 100) with (S754_finite false 13170115 (-21)).
    apply f32_div_finite_r_not_nan, fmodf_finite_not_nan, f32_add_angle_finite;
      [by apply Hatan|exact Ht]. }
  unfold gradient_switch.
  destruct (gradient_type st) as [|p|p]; [exact H0| |exact H0].
  destruct p as [[[[?|?|]|[?|?|]|]|[[?|?|]|[?|?|]|]|]|[[[?|?|]|[?|?|]|]|[[?|?|]|[?|?|]|]|]|];
    first [ exact H0 | exact H1 | exact H2 | exact H3 | apply H4 | apply H8 | exact H9
          | destruct (_ =? 0); apply f32_of_Z_not_nan ].
Qed.

(** C6. For every pixel of the raster and whatever the pattern kind, the
    frequency and the noise scale (so in particular for a frequency of at
    least 0 and a noise scale in [0, 1]), the value [generate_gradient]
    scales to a byte is clamped into [0, 1], stays there through the
    inversion, and its product by 255 has its integral part in [0..255]:
    that integral part is what [generate_gradient] returns. *)
Theorem generate_gradient_byte (x y : Z) (st : GenerativeState) :
  atan2f_bounded ->
  0 <= x < Z.of_nat SCREEN_WIDTH -> 0 <= y < Z.of_nat SCREEN_HEIGHT ->
  let value :=
    clamp_invert (noise_overlay x y (gradient_switch x y (norm_x x) (norm_y y) st) st) st in
  unit_range value /\
  gradient_scaled x y st = f32_mul value (f32_of_Z 255) /\
  exists z,
    f32_trunc (gradient_scaled x y st) = Some z /\
    0 <= z <= 255 /\
    generate_gradient x y st = z.
Proof.
  intros Hatan Hx Hy value.
  pose proof (gradient_switch_not_nan x y st Hatan Hx Hy) as Hv.
  apply (noise_overlay_not_nan x y _ st) in Hv.
  apply (clamp_invert_unit_range _ st) in Hv. fold value in Hv.
  destruct (scale_byte value Hv) as (z & Hz & Hr).
  split; [exact Hv|]. split; [reflexivity|].
  exists z.
  change (gradient_scaled x y st) with (f32_mul value (f32_of_Z 255)).
  split; [exact Hz|]. split; [exact Hr|].
  unfold generate_gradient, cast_u8.
  change (gradient_scaled x y st) with (f32_mul value (f32_of_Z 255)).
  rewrite Hz.
  destruct (Z.leb_spec 0 z); [|lia]. destruct (Z.leb_spec z 255); [|lia].
  reflexivity.
Qed.

End Range.



(** ** Exact values as rationals *)

Lemma in_half_openb_spec lo hi f :
  in_half_openb lo hi f = true -> in_half_open lo hi f.
Proof.
  unfold in_half_openb, in_half_open. intros H.
  apply andb_prop in H as [H H3]. apply andb_prop in H as [H1 H2].
  split; [exact H1|]. split; [by apply Qle_bool_iff|].
  apply Qnot_le_lt. intros Hle. apply Qle_bool_iff in Hle.
  rewrite Hle in H3. discriminate.
Qed.

Lemma in_half_open_closed lo hi lo' hi' f :
  (lo' <= lo)%Q -> (hi <= hi')%Q -> in_half_open lo hi f -> in_closed lo' hi' f.
Proof.
  intros Hlo Hhi (Hf & H1 & H2). split; [exact Hf|]. split.
  - by apply (Qle_trans _ lo).
  - apply Qlt_le_weak. by apply (Qlt_le_trans _ hi).
Qed.

Lemma pos_pow2 p : Zpos (2 ^ p) = 2 ^ Zpos p.
Proof. apply Pos2Z.inj_pow. Qed.

Lemma val2Q_le m1 e1 m2 e2 :
  (val2Q m1 e1 <= val2Q m2 e2)%Q <-> vle m1 e1 m2 e2.
Proof.
  unfold val2Q, Qle.
  destruct e1 as [|p1|p1], e2 as [|p2|p2]; cbn [Qnum Qden inject_Z];
    rewrite ?pos_pow2.
  - rewrite (vle_base _ _ _ _ 0) by lia. cbn. lia.
  - rewrite (vle_base _ _ _ _ 0) by lia. rewrite !Z.sub_0_r. cbn [Z.pow]. lia.
  - rewrite (vle_base _ _ _ _ (Zneg p2)) by lia.
    replace (0 - Zneg p2) with (Zpos p2) by lia. rewrite Z.sub_diag.
    cbn [Z.pow]. rewrite Z.pow_0_r. lia.
  - rewrite (vle_base _ _ _ _ 0) by lia. rewrite !Z.sub_0_r. cbn [Z.pow]. lia.
  - rewrite (vle_base _ _ _ _ 0) by lia. rewrite !Z.sub_0_r. lia.
  - rewrite (vle_base _ _ _ _ (Zneg p2)) by lia.
    replace (Zpos p1 - Zneg p2) with (Zpos p1 + Zpos p2) by lia.
    rewrite Z.sub_diag, Z.pow_0_r, Z.pow_add_r by lia. lia.
  - rewrite (vle_base _ _ _ _ (Zneg p1)) by lia.
    replace (0 - Zneg p1) with (Zpos p1) by lia. rewrite Z.sub_diag.
    cbn [Z.pow]. rewrite Z.pow_0_r. lia.
  - rewrite (vle_base _ _ _ _ (Zneg p1)) by lia.
    replace (Zpos p2 - Zneg p1) with (Zpos p2 + Zpos p1) by lia.
    rewrite Z.sub_diag, Z.pow_0_r, Z.pow_add_r by lia. lia.
  - rewrite (vle_base _ _ _ _ (Zneg p1 + Zneg p2)) by lia.
    replace (Zneg p1 - (Zneg p1 + Zneg p2)) with (Zpos p2) by lia.
    replace (Zneg p2 - (Zneg p1 + Zneg p2)) with (Zpos p1) by lia.
    lia.
Qed.

Lemma vle_total m1 e1 m2 e2 : ~ vle m1 e1 m2 e2 -> vle m2 e2 m1 e1.
Proof. unfold vle. rewrite (Z.min_comm e2 e1). lia. Qed.



(** ** The ranges of [frequency] and [noise_scale] *)

Lemma f32_lit_1_10 : f32_lit 1 10 = S754_finite false 13421773 (-27).
Proof. reflexivity. Qed.

Lemma f32_of_Z_4 : f32_of_Z 4 = S754_finite false (2 ^ 23) (-21).
Proof. reflexivity. Qed.

Lemma format32_tenth : format32 13421773 (-27).
Proof. repeat split; cbn; lia. Qed.

Lemma format32_four : format32 (2 ^ 23) (-21).
Proof. repeat split; cbn; lia. Qed.

(** [0.1f] is not below 0.1, and [4.0f] is 4. *)
Lemma tenth_le : (1 # 10 <= val2Q 13421773 (-27))%Q.
Proof. vm_compute. discriminate. Qed.

Lemma four_le : (val2Q (2 ^ 23) (-21) <= 4)%Q.
Proof. vm_compute. discriminate. Qed.

Lemma tenth_le_four : vle 13421773 (-27) (2 ^ 23) (-21).
Proof. unfold vle. vm_compute. discriminate. Qed.

Lemma in_policy_closed f : in_policy f -> in_closed (1 # 10) 4 f.
Proof.
  destruct f as [s|s| |[] m e]; try contradiction. intros [H1 H2].
  split; [reflexivity|]. unfold F2Q. cbn [f32_num f32_exp sgn_Z]. split.
  - apply (Qle_trans _ _ _ tenth_le). by apply val2Q_le.
  - apply (Qle_trans _ (val2Q (2 ^ 23) (-21))); [by apply val2Q_le|apply four_le].
Qed.

Lemma cmp_scaled_not_gt m1 e1 m2 e2 :
  match cmp_scaled m1 e1 m2 e2 with Gt => false | _ => true end = true ->
  vle m1 e1 m2 e2.
Proof.
  unfold cmp_scaled, vle. cbv zeta. intros H.
  apply Z.compare_le_iff. intros E. rewrite E in H. discriminate H.
Qed.

Lemma in_policyb_spec f : in_policyb f = true -> in_policy f.
Proof.
  destruct f as [s|s| |[] m e]; cbn [in_policyb in_policy]; try discriminate.
  intros H. apply andb_prop in H as [H1 H2].
  split; by apply cmp_scaled_not_gt.
Qed.

Lemma vle_refl m e : vle m e m e.
Proof. unfold vle. lia. Qed.

Lemma in_policy_tenth : in_policy (S754_finite false 13421773 (-27)).
Proof. split; [apply vle_refl|apply tenth_le_four]. Qed.

Lemma in_policy_four : in_policy (S754_finite false (2 ^ 23) (-21)).
Proof. split; [apply tenth_le_four|apply vle_refl]. Qed.

(** [fminf(4.0f, frequency + 0.1f)] *)
Lemma increase_in_policy f :
  in_policy f -> in_policy (fminf (f32_of_Z 4) (f32_add f (f32_lit 1 10))).
Proof.
  rewrite f32_of_Z_4, f32_lit_1_10.
  destruct f as [s|s| |[] m e]; try contradiction. intros [_ _].
  assert (Hs : above false (f32_add (S754_finite false m e)
                                    (S754_finite false 13421773 (-27)))
                     13421773 (-27)).
  { unfold f32_add, SFadd. cbn [cond_Zopp]. set (ez := Z.min e (-27)).
    destruct (shl_align_spec m e ez) as [_ H1].
    destruct (shl_align_spec 13421773 (-27) ez) as [_ H2].
    rewrite H1, H2.
    replace (Z.min e ez) with ez by (unfold ez; lia).
    replace (Z.min (-27) ez) with ez by (unfold ez; lia).
    pose proof (pow2_pos (e - ez) ltac:(unfold ez; lia)) as Hpe.
    pose proof (pow2_pos (-27 - ez) ltac:(unfold ez; lia)) as Hpc.
    destruct (Zpos m * 2 ^ (e - ez) + 13421773 * 2 ^ (-27 - ez)) as [|p|p] eqn:EN;
      try lia.
    cbn [binary_normalize].
    apply binary_round_above; [lia|by destruct format32_tenth as (_ & ? & _)|].
    apply (vle_unscaled _ _ _ _ ez); [unfold ez; lia|lia|].
    rewrite Z.sub_diag, Z.pow_0_r, <- EN. lia. }
  destruct (f32_add _ _) as [s'|s'| |s' m' e']; cbn [above] in Hs; try contradiction.
  - subst s'. cbn. apply in_policy_four.
  - destruct Hs as [-> Hs]. cbn [fminf].
    destruct (f32_lt (S754_finite false m' e') (S754_finite false (2 ^ 23) (-21))) eqn:E.
    + split; [exact Hs|]. by apply vle_total, f32_lt_true_nvle.
    + apply in_policy_four.
Qed.

Lemma f32_lt_sign_true c e f :
  has_sign true f -> f32_lt (S754_finite false c e) f = false.
Proof.
  destruct f as [s|s| |s m' e']; cbn [has_sign]; try contradiction; intros ->.
  - unfold f32_lt, f32_compare, cmp_scaled. cbn [f32_num f32_exp sgn_Z].
    pose proof (pow2_pos (e - Z.min e 0) ltac:(lia)) as Hp.
    assert (H : (Zpos c * 2 ^ (e - Z.min e 0) ?= 0 * 2 ^ (0 - Z.min e 0)) = Gt)
      by (apply Z.compare_gt_iff; lia).
    by rewrite H.
  - reflexivity.
  - unfold f32_lt, f32_compare, cmp_scaled. cbn [f32_num f32_exp sgn_Z].
    pose proof (pow2_pos (e - Z.min e e') ltac:(lia)) as Hp.
    pose proof (pow2_pos (e' - Z.min e e') ltac:(lia)) as Hp'.
    assert (H : (Zpos c * 2 ^ (e - Z.min e e') ?= Zneg m' * 2 ^ (e' - Z.min e e')) = Gt)
      by (apply Z.compare_gt_iff; lia).
    by rewrite H.
Qed.

(** [fmaxf(0.1f, frequency - 0.1f)] *)
Lemma decrease_in_policy f :
  in_policy f -> in_policy (fmaxf (f32_lit 1 10) (f32_sub f (f32_lit 1 10))).
Proof.
  rewrite f32_lit_1_10.
  destruct f as [s|s| |[] m e]; try contradiction. intros [_ Hf].
  set (d := f32_sub (S754_finite false m e) (S754_finite false 13421773 (-27))).
  assert (Hd : f32_lt (S754_finite false 13421773 (-27)) d = true ->
               below false d (2 ^ 23) (-21)).
  { unfold d, f32_sub, SFsub. cbn [cond_Zopp]. set (ez := Z.min e (-27)).
    destruct (shl_align_spec m e ez) as [_ H1].
    destruct (shl_align_spec 13421773 (-27) ez) as [_ H2].
    rewrite H1, H2.
    replace (Z.min e ez) with ez by (unfold ez; lia).
    replace (Z.min (-27) ez) with ez by (unfold ez; lia).
    pose proof (pow2_pos (e - ez) ltac:(unfold ez; lia)) as Hpe.
    pose proof (pow2_pos (-27 - ez) ltac:(unfold ez; lia)) as Hpc.
    destruct (Zpos m * 2 ^ (e - ez) - 13421773 * 2 ^ (-27 - ez)) as [|p|p] eqn:EN;
      cbn [binary_normalize].
    - discriminate.
    - intros _. apply binary_round_below; [unfold ez; lia|apply format32_four|].
      apply (vle_scaled _ _ _ _ ez) in Hf; [|unfold ez; lia..].
      apply (vle_unscaled _ _ _ _ ez); [lia|unfold ez; lia|].
      rewrite Z.sub_diag, Z.pow_0_r. lia.
    - intros H. rewrite f32_lt_sign_true in H by apply binary_round_has_sign.
      discriminate. }
  destruct d as [s'|s'| |s' m' e'] eqn:Ed; cbn [fmaxf].
  - destruct (f32_lt _ _) eqn:E; [|apply in_policy_tenth].
    exfalso. revert E. unfold f32_lt, f32_compare, cmp_scaled. vm_compute. discriminate.
  - destruct (f32_lt _ _) eqn:E; [|apply in_policy_tenth].
    specialize (Hd eq_refl). contradiction.
  - apply in_policy_tenth.
  - destruct (f32_lt _ _) eqn:E; [|apply in_policy_tenth].
    destruct (Hd eq_refl) as [-> Hb].
    split; [|exact Hb]. by apply vle_total, f32_lt_true_nvle.
Qed.

(** The resampled values, by what the draw is modulo 100 and 50. *)
Lemma frequency_of_range d :
  in_policy (frequency_of d) /\ in_half_open (1 # 2) (5 # 2) (frequency_of d).
Proof.
  pose proof (forallb_range
                (fun r => in_policyb (frequency_of r)
                          && in_half_openb (1 # 2) (5 # 2) (frequency_of r)) 100
                ltac:(vm_compute; reflexivity) (d mod 100)
                ltac:(apply Z.mod_pos_bound; lia)) as H.
  cbv beta in H. apply andb_prop in H as [H1 H2].
  assert (E : frequency_of (d mod 100) = frequency_of d)
    by (unfold frequency_of; rewrite Z.mod_mod by lia; reflexivity).
  rewrite E in H1, H2.
  split; [by apply in_policyb_spec|by apply in_half_openb_spec].
Qed.

Lemma noise_scale_of_range d : in_half_open 0 (1 # 20) (noise_scale_of d).
Proof.
  pose proof (forallb_range
                (fun r => in_half_openb 0 (1 # 20) (noise_scale_of r)) 50
                ltac:(vm_compute; reflexivity) (d mod 50)
                ltac:(apply Z.mod_pos_bound; lia)) as H.
  cbv beta in H.
  assert (E : noise_scale_of (d mod 50) = noise_scale_of d)
    by (unfold noise_scale_of; rewrite Z.mod_mod by lia; reflexivity).
  rewrite E in H. by apply in_half_openb_spec.
Qed.

Section Policy.
Context {platform : Platform}.

Lemma initial_state_ok tick raster : parameters_ok (initial_state tick raster).
Proof.
  split.
  - apply in_policyb_spec. reflexivity.
  - apply (in_half_open_closed (1 # 20) (1 # 10)); [vm_compute; discriminate..|].
    apply in_half_openb_spec. vm_compute. reflexivity.
Qed.

Lemma evolve_ok st s :
  in_half_open (1 # 2) (5 # 2) (frequency (fst (evolve st {| rng_state := s; rng_draws := 0 |}))) /\
  in_policy (frequency (fst (evolve st {| rng_state := s; rng_draws := 0 |}))) /\
  in_half_open 0 (1 # 20) (noise_scale (fst (evolve st {| rng_state := s; rng_draws := 0 |}))).
Proof.
  rewrite evolve_run.
  destruct (_ <? 20); cbv zeta; cbn [fst];
    match goal with |- context [if ?b then _ else _] => destruct b end;
    cbn [frequency noise_scale with_invert with_noise_scale with_frequency with_gradient_type];
    (split; [apply frequency_of_range|split; [apply frequency_of_range|apply noise_scale_of_range]]).
Qed.

Lemma evolve_parameters_ok st :
  parameters_ok st -> parameters_ok (fst (evolve_parameters st)).
Proof.
  intros Hok. unfold evolve_parameters. cbn [frame_count with_frame_count seed].
  destruct (_ =? 0).
  - destruct (evolve_ok (with_frame_count st (u8 (frame_count st + 1)))
                (u32 (seed st + u8 (frame_count st + 1)))) as (_ & H1 & H2).
    split; [exact H1|].
    apply (in_half_open_closed 0 (1 # 20)); [vm_compute; discriminate..|exact H2].
  - exact Hok.
Qed.

Lemma generate_frame_ok st : parameters_ok st -> parameters_ok (generate_frame st).
Proof.
  intros Hok. rewrite generate_frame_unfold. apply evolve_parameters_ok.
  destruct (filled_same st) as (Hp & _). unfold parameters in Hp.
  unfold parameters_ok in *.
  assert (Hf : frequency (filled st) = frequency st) by congruence.
  assert (Hn : noise_scale (filled st) = noise_scale st) by congruence.
  rewrite Hf, Hn. exact Hok.
Qed.

Lemma input_callback_ok tick input_event st :
  parameters_ok st -> parameters_ok (input_callback tick input_event st).
Proof.
  intros [Hf Hn]. unfold input_callback.
  destruct (type input_event); try (split; assumption).
  destruct (key input_event); try (split; assumption);
    split; cbn [frequency noise_scale with_frequency with_gradient_type with_seed seed];
    try assumption.
  - by apply increase_in_policy.
  - by apply decrease_in_policy.
  - apply frequency_of_range.
Qed.

Lemma reachable_ok st : reachable st -> parameters_ok st.
Proof.
  induction 1 as [tick raster|st _ IH|tick ev st _ IH].
  - apply initial_state_ok.
  - by apply generate_frame_ok.
  - by apply input_callback_ok.
Qed.

Lemma evolve_parameters_tick_ranges st :
  u8 (frame_count st + 1) mod 30 = 0 ->
  in_half_open (1 # 2) (5 # 2) (frequency (fst (evolve_parameters st))) /\
  in_half_open 0 (1 # 20) (noise_scale (fst (evolve_parameters st))).
Proof.
  intros Htick. unfold evolve_parameters. cbn [frame_count with_frame_count seed].
  apply Z.eqb_eq in Htick. rewrite Htick.
  destruct (evolve_ok (with_frame_count st (u8 (frame_count st + 1)))
              (u32 (seed st + u8 (frame_count st + 1)))) as (H1 & _ & H2).
  split; assumption.
Qed.

Lemma generate_frame_tick_ranges st :
  u8 (frame_count st + 1) mod 30 = 0 ->
  in_half_open (1 # 2) (5 # 2) (frequency (generate_frame st)) /\
  in_half_open 0 (1 # 20) (noise_scale (generate_frame st)).
Proof.
  intros Htick. rewrite generate_frame_unfold.
  apply evolve_parameters_tick_ranges.
  destruct (filled_same st) as (_ & Hfc & _). rewrite Hfc. exact Htick.
Qed.

(** C5. In every state reached from the default parameters by frames
    (with their evolution ticks) and input events (pattern change,
    frequency increase and decrease, reseed), [frequency] is in [0.1, 4.0]
    and [noise_scale] in [0, 1]; an evolution tick leaves [frequency] in
    [0.5, 2.5) and [noise_scale] in [0, 0.05). *)
Theorem parameters_in_range (st : GenerativeState) :
  reachable st ->
  in_closed (1 # 10) 4 (frequency st) /\
  in_closed 0 1 (noise_scale st) /\
  (u8 (frame_count st + 1) mod 30 = 0 ->
   in_half_open (1 # 2) (5 # 2) (frequency (generate_frame st)) /\
   in_half_open 0 (1 # 20) (noise_scale (generate_frame st))).
Proof.
  intros Hr. destruct (reachable_ok st Hr) as [Hf Hn].
  split; [by apply in_policy_closed|]. split; [exact Hn|].
  apply generate_frame_tick_ranges.
Qed.

End Policy.


(** * More on the integer helpers *)

(** ** The xorshift step is injective *)

Lemma u32_land z : u32 z = Z.land z (Z.ones 32).
Proof. unfold u32. now rewrite Z.land_ones by lia. Qed.

Lemma xor_shl_lxor k a b :
  xor_shl k (Z.lxor a b) = Z.lxor (xor_shl k a) (xor_shl k b).
Proof.
  unfold xor_shl. rewrite !u32_land, Z.shiftl_lxor.
  apply Z.bits_inj'. intros n Hn.
  rewrite !Z.lxor_spec, !Z.land_spec, !Z.lxor_spec.
  destruct (Z.testbit a n), (Z.testbit b n), (Z.testbit (Z.shiftl a k) n),
    (Z.testbit (Z.shiftl b k) n), (Z.testbit (Z.ones 32) n); reflexivity.
Qed.

Lemma xor_shr_lxor k a b :
  xor_shr k (Z.lxor a b) = Z.lxor (xor_shr k a) (xor_shr k b).
Proof.
  unfold xor_shr. rewrite Z.shiftr_lxor.
  apply Z.bits_inj'. intros n Hn.
  rewrite !Z.lxor_spec.
  destruct (Z.testbit a n), (Z.testbit b n), (Z.testbit (Z.shiftr a k) n),
    (Z.testbit (Z.shiftr b k) n); reflexivity.
Qed.

Lemma xor_shl_inj k a b :
  0 < k -> 0 <= a < 2 ^ 32 -> 0 <= b < 2 ^ 32 ->
  xor_shl k a = xor_shl k b -> a = b.
Proof.
  intros Hk Ha Hb H.
  apply Z.lxor_eq. apply (xor_shl_zero k); [exact Hk | now apply lxor_u32_range |].
  rewrite xor_shl_lxor, H. apply Z.lxor_nilpotent.
Qed.

Lemma xor_shr_inj k a b :
  0 < k -> 0 <= a < 2 ^ 32 -> 0 <= b < 2 ^ 32 ->
  xor_shr k a = xor_shr k b -> a = b.
Proof.
  intros Hk Ha Hb H.
  apply Z.lxor_eq. apply (xor_shr_zero k); [exact Hk | now apply lxor_u32_range |].
  rewrite xor_shr_lxor, H. apply Z.lxor_nilpotent.
Qed.

(** X1. On 32-bit words [xorshift32] is injective: two states give the same
    output exactly when they are the same state, so the stream never merges
    two seeds. *)
Theorem xorshift32_injective (a b : Z) :
  0 <= a < 2 ^ 32 -> 0 <= b < 2 ^ 32 ->
  (fst (xorshift32 a) =? fst (xorshift32 b)) = (a =? b) /\
  (snd (xorshift32 a) =? snd (xorshift32 b)) = (a =? b).
Proof.
  intros Ha Hb. rewrite !xorshift32_steps. cbn [fst snd].
  assert (E : (xor_shl 5 (xor_shr 17 (xor_shl 13 a))
               =? xor_shl 5 (xor_shr 17 (xor_shl 13 b))) = (a =? b)).
  { destruct (Z.eqb_spec a b) as [->|Hne].
    - apply Z.eqb_refl.
    - apply Z.eqb_neq. intros H. apply Hne.
      apply (xor_shl_inj 13); [lia | exact Ha | exact Hb |].
      apply (xor_shr_inj 17); [lia | now apply xor_shl_range | now apply xor_shl_range |].
      apply (xor_shl_inj 5); [lia | | | exact H];
        apply xor_shr_range; try lia; now apply xor_shl_range. }
  split; exact E.
Qed.

(** ** The sine table *)

Lemma land_63 angle : Z.land angle 63 = angle mod 64.
Proof. change 63 with (Z.ones 6). now rewrite Z.land_ones by lia. Qed.

Lemma fast_sin_mod angle : fast_sin angle = fast_sin (angle mod 64).
Proof.
  unfold fast_sin. rewrite !land_63. now rewrite Z.mod_mod by lia.
Qed.

(** X2. [fast_sin] reads only the low six bits of the angle and returns a
    value between -64 and 64. The table holds one wave of 60 steps (the
    second half-wave is the negated first) followed by four zeros. *)
Theorem fast_sin_wave (angle : Z) :
  fast_sin (angle + 64) = fast_sin angle /\
  -64 <= fast_sin angle <= 64 /\
  (angle mod 64 < 30 -> fast_sin (angle mod 64 + 30) = - fast_sin angle) /\
  (angle mod 64 <= 30 -> fast_sin (30 - angle mod 64) = fast_sin angle) /\
  (60 <= angle mod 64 -> fast_sin angle = 0).
Proof.
  assert (Hr : 0 <= angle mod 64 < 64) by (apply Z.mod_pos_bound; lia).
  split.
  { rewrite (fast_sin_mod (angle + 64)), (fast_sin_mod angle).
    f_equal. replace (angle + 64) with (angle + 1 * 64) by lia.
    apply Z.mod_add. lia. }
  rewrite (fast_sin_mod angle).
  pose proof (forallb_range
    (fun r => (-64 <=? fast_sin r) && (fast_sin r <=? 64)
              && (if r <? 30 then fast_sin (r + 30) =? - fast_sin r else true)
              && (if r <=? 30 then fast_sin (30 - r) =? fast_sin r else true)
              && (if 60 <=? r then fast_sin r =? 0 else true))
    64 ltac:(vm_compute; reflexivity) (angle mod 64) ltac:(lia)) as H.
  cbv beta in H.
  apply andb_prop in H as [H H5]. apply andb_prop in H as [H H4].
  apply andb_prop in H as [H H3]. apply andb_prop in H as [H1 H2].
  repeat split.
  - lia.
  - lia.
  - intros Hlt. destruct (Z.ltb_spec (angle mod 64) 30); [lia | lia].
  - intros Hle. destruct (Z.leb_spec (angle mod 64) 30); [lia | lia].
  - intros Hge. destruct (Z.leb_spec 60 (angle mod 64)); [lia | lia].
Qed.

(** ** The hash noise *)

Lemma simple_noise_hash x y s :
  simple_noise x y s = simple_noise 0 0 (x * 374761393 + y * 668265263 + s).
Proof.
  unfold simple_noise. cbn zeta.
  replace (u32 (u32 (u32 (0 * 374761393) + u32 (0 * 668265263))
                + (x * 374761393 + y * 668265263 + s)))
    with (u32 (u32 (u32 (x * 374761393) + u32 (y * 668265263)) + s)).
  { reflexivity. }
  unfold u32. Z.to_euclidean_division_equations. lia.
Qed.

(** X3. [simple_noise] is a byte that depends on its arguments only through
    the 32-bit sum [x * 374761393 + y * 668265263 + seed]: an argument can
    be replaced by its low 32 bits, and a step of one pixel to the right or
    down is the same as a change of the seed by a constant. *)
Theorem simple_noise_translation (x y s : Z) :
  0 <= simple_noise x y s <= 255 /\
  simple_noise (u32 x) (u32 y) (u32 s) = simple_noise x y s /\
  simple_noise (x + 1) y s = simple_noise x y (s + 374761393) /\
  simple_noise x (y + 1) s = simple_noise x y (s + 668265263).
Proof.
  split; [| split; [| split]].
  - unfold simple_noise. cbn zeta.
    match goal with |- 0 <= Z.land ?h 255 <= 255 =>
      change 255 with (Z.ones 8) at 1 2; rewrite (Z.land_ones h 8) by lia;
      pose proof (Z.mod_pos_bound h (2 ^ 8) ltac:(lia)); lia end.
  - rewrite (simple_noise_hash (u32 x)), (simple_noise_hash x y s).
    unfold simple_noise. cbn zeta.
    replace (u32 (u32 (u32 (0 * 374761393) + u32 (0 * 668265263))
                  + (u32 x * 374761393 + u32 y * 668265263 + u32 s)))
      with (u32 (u32 (u32 (0 * 374761393) + u32 (0 * 668265263))
                  + (x * 374761393 + y * 668265263 + s))).
    { reflexivity. }
    unfold u32. Z.to_euclidean_division_equations. lia.
  - rewrite (simple_noise_hash (x + 1)), (simple_noise_hash x y (s + 374761393)).
    f_equal. lia.
  - rewrite (simple_noise_hash x (y + 1)), (simple_noise_hash x y (s + 668265263)).
    f_equal. lia.
Qed.

(** * More on the Floyd-Steinberg pass *)

Lemma is_binary_byte v : is_binary v -> is_byte v.
Proof. unfold is_binary, is_byte. lia. Qed.

Lemma threshold_is_binary v : is_binary (threshold v).
Proof. exact (threshold_binary v). Qed.

Lemma clamp255_id v : is_byte v -> clamp255 v = v.
Proof.
  unfold is_byte, clamp255. intros H.
  destruct (Z.ltb_spec v 0); [lia |].
  destruct (v >? 255) eqn:E; [| reflexivity].
  apply Z.gtb_lt in E. lia.
Qed.

Lemma px_Forall (P : Z -> Prop) p i : P 0 -> Forall P p -> P (px p i).
Proof.
  intros H0 Hp. unfold px. destruct (p !! i) as [v|] eqn:E; [| exact H0].
  exact (proj1 (Forall_lookup P p) Hp i v E).
Qed.

Lemma set_px_px p i : set_px p i (px p i) = p.
Proof.
  unfold set_px, px. apply list_insert_id'. intros Hi.
  destruct (lookup_lt_is_Some_2 p i Hi) as [v ->]. reflexivity.
Qed.

Lemma px_set_px_ne p i j v : i <> j -> px (set_px p i v) j = px p j.
Proof. intros H. unfold px, set_px. now rewrite list_lookup_insert_ne. Qed.

(** ** Every store is a byte *)

Lemma diffuse_byte p idx e n : Forall is_byte p -> Forall is_byte (diffuse p idx e n).
Proof.
  intros Hp. unfold diffuse, set_px. apply Forall_insert; [exact Hp |].
  exact (clamp255_range _).
Qed.

Lemma dither_pixel_byte p y x : Forall is_byte p -> Forall is_byte (dither_pixel p y x).
Proof.
  intros Hp.
  assert (H0 : Forall is_byte
                 (set_px p (y * SCREEN_WIDTH + x)
                         (threshold (px p (y * SCREEN_WIDTH + x))))).
  { unfold set_px. apply Forall_insert; [exact Hp |].
    apply is_binary_byte, threshold_is_binary. }
  dither_cases; repeat apply diffuse_byte; exact H0.
Qed.

(** X4. The dither pass keeps the raster a raster of bytes at every stage:
    when the loops reach any pixel, and when they end, every entry is in
    0..255, so no store into [pixels] is truncated. *)
Theorem apply_dither_bytes (p : list Z) (y x : nat) :
  Forall is_byte p ->
  Forall is_byte (scan_before dither_pixel y x p) /\
  Forall is_byte (dither_pixel (scan_before dither_pixel y x p) y x) /\
  Forall is_byte (apply_dither p).
Proof.
  intros Hp.
  assert (H1 : Forall is_byte (scan_before dither_pixel y x p)).
  { unfold scan_before.
    apply (scan_cols_preserves dither_pixel (Forall is_byte) dither_pixel_byte).
    apply (scan_rows_preserves dither_pixel (Forall is_byte) dither_pixel_byte).
    exact Hp. }
  split; [exact H1 |]. split; [exact (dither_pixel_byte _ y x H1) |].
  unfold apply_dither.
  apply (scan_rows_preserves dither_pixel (Forall is_byte) dither_pixel_byte).
  exact Hp.
Qed.

(** ** Black-and-white rasters are left alone *)

Lemma diffuse_no_error p idx n : Forall is_byte p -> diffuse p idx 0 n = p.
Proof.
  intros Hp. unfold diffuse. rewrite Z.mul_0_l.
  change (Z.quot 0 16) with 0. rewrite Z.add_0_r.
  rewrite clamp255_id; [apply set_px_px |].
  apply px_Forall; [unfold is_byte; lia | exact Hp].
Qed.

Lemma threshold_fixed v : is_binary v -> threshold v = v.
Proof. intros [-> | ->]; reflexivity. Qed.

Lemma dither_pixel_fixed p y x : Forall is_binary p -> dither_pixel p y x = p.
Proof.
  intros Hp.
  assert (Hb : Forall is_byte p).
  { eapply Forall_impl; [exact Hp | exact is_binary_byte]. }
  assert (Ht : threshold (px p (y * SCREEN_WIDTH + x)) = px p (y * SCREEN_WIDTH + x)).
  { apply threshold_fixed. apply px_Forall; [now left | exact Hp]. }
  unfold dither_pixel. cbv zeta. rewrite Ht, Z.sub_diag, set_px_px.
  repeat match goal with
         | |- context [if ?b then _ else _] => destruct b
         end;
    rewrite ?(diffuse_no_error p _ _ Hb); reflexivity.
Qed.

Lemma apply_dither_fixed p : Forall is_binary p -> apply_dither p = p.
Proof.
  intros Hp. unfold apply_dither.
  apply (scan_rows_preserves dither_pixel (fun s => s = p)); [| reflexivity].
  intros s y x ->. exact (dither_pixel_fixed p y x Hp).
Qed.

Lemma apply_dither_is_binary p :
  length p = (SCREEN_WIDTH * SCREEN_HEIGHT)%nat -> Forall is_binary (apply_dither p).
Proof.
  intros Hlen. apply Forall_lookup. intros i v Hi.
  assert (Hlt : (i < SCREEN_WIDTH * SCREEN_HEIGHT)%nat).
  { rewrite <- Hlen, <- (length_apply_dither p). exact (lookup_lt_Some _ _ _ Hi). }
  destruct (raster_index i Hlt) as (y & x & Hx & Hy & ->).
  rewrite (apply_dither_lookup p y x Hx Hy Hlen) in Hi.
  injection Hi as <-. apply threshold_is_binary.
Qed.

(** X5. A raster that is already black and white is a fixed point of the
    dither pass, whatever its length, and the pass is idempotent on a full
    raster: dithering a dithered frame changes nothing. *)
Theorem apply_dither_idempotent (p : list Z) :
  length p = (SCREEN_WIDTH * SCREEN_HEIGHT)%nat ->
  apply_dither (apply_dither p) = apply_dither p /\
  (forall q, Forall is_binary q -> apply_dither q = q).
Proof.
  intros Hlen. split.
  - apply apply_dither_fixed, apply_dither_is_binary, Hlen.
  - exact apply_dither_fixed.
Qed.

(** ** What a step does to the sum of the raster *)

Lemma total_set_px p i v :
  (i < length p)%nat -> total (set_px p i v) = total p - px p i + v.
Proof.
  revert i. induction p as [|a p IH]; intros i Hi; [cbn in Hi; lia |].
  destruct i as [|i].
  - unfold set_px, px, total. cbn. lia.
  - cbn in Hi.
    change (set_px (a :: p) (S i) v) with (a :: set_px p i v).
    change (px (a :: p) (S i)) with (px p i).
    change (total (a :: set_px p i v)) with (a + total (set_px p i v)).
    change (total (a :: p)) with (a + total p).
    rewrite (IH i) by lia. lia.
Qed.

Lemma length_set_px p i v : length (set_px p i v) = length p.
Proof. apply length_insert. Qed.

Lemma total_diffuse p idx e n :
  (idx < length p)%nat -> is_byte (px p idx + Z.quot (e * n) 16) ->
  total (diffuse p idx e n) = total p + Z.quot (e * n) 16.
Proof.
  intros Hi Hb. unfold diffuse. cbv zeta.
  rewrite total_set_px by exact Hi. rewrite (clamp255_id _ Hb). lia.
Qed.

Lemma px_diffuse_ne p idx e n j : idx <> j -> px (diffuse p idx e n) j = px p j.
Proof. intros H. unfold diffuse. cbv zeta. now apply px_set_px_ne. Qed.

Lemma quantisation_error_range v :
  is_byte v -> -127 <= quantisation_error v <= 127.
Proof.
  unfold is_byte, quantisation_error, threshold. intros H.
  destruct (v >? 127) eqn:E.
  - apply Z.gtb_lt in E. lia.
  - assert (v <= 127) by (destruct (Z.gtb_spec v 127); [discriminate | lia]). lia.
Qed.

Lemma shares_loss e :
  (0 <= e -> 0 <= e - shares e <= 3) /\ (e <= 0 -> -3 <= e - shares e <= 0).
Proof. unfold shares. Z.to_euclidean_division_equations. lia. Qed.

(** X6. Error diffusion conserves brightness up to rounding. At a pixel
    with all four forward neighbours, when no neighbour is clamped, a step
    changes the sum of the raster by the shares handed out minus the error
    taken; the error of a byte is within -127..127, and the shares sum to
    the error up to a loss of at most 3, on the side of zero. *)
Theorem dither_pixel_conserves (p : list Z) (y x : nat) :
  (0 < x)%nat -> (x + 1 < SCREEN_WIDTH)%nat -> (y + 1 < SCREEN_HEIGHT)%nat ->
  length p = (SCREEN_WIDTH * SCREEN_HEIGHT)%nat ->
  let error := quantisation_error (px p (y * SCREEN_WIDTH + x)) in
  is_byte (px p (y * SCREEN_WIDTH + x)) ->
  is_byte (px p (y * SCREEN_WIDTH + (x + 1)) + Z.quot (error * 7) 16) ->
  is_byte (px p ((y + 1) * SCREEN_WIDTH + (x - 1)) + Z.quot (error * 3) 16) ->
  is_byte (px p ((y + 1) * SCREEN_WIDTH + x) + Z.quot (error * 5) 16) ->
  is_byte (px p ((y + 1) * SCREEN_WIDTH + (x + 1)) + Z.quot (error * 1) 16) ->
  total (dither_pixel p y x) = total p - error + shares error /\
  -127 <= error <= 127 /\
  (0 <= error -> 0 <= error - shares error <= 3) /\
  (error <= 0 -> -3 <= error - shares error <= 0).
Proof.
  intros Hx0 Hx1 Hy1 Hlen error Hb H7 H3 H5 H1.
  split; [| split; [exact (quantisation_error_range _ Hb) | exact (shares_loss error)]].
  assert (Hx0' : (0 <? x)%nat = true) by (apply Nat.ltb_lt; exact Hx0).
  assert (Hx1' : (x + 1 <? SCREEN_WIDTH)%nat = true) by (apply Nat.ltb_lt; exact Hx1).
  assert (Hy1' : (y + 1 <? SCREEN_HEIGHT)%nat = true) by (apply Nat.ltb_lt; exact Hy1).
  assert (Hrow : ((y + 1) * SCREEN_WIDTH + SCREEN_WIDTH
                  <= SCREEN_WIDTH * SCREEN_HEIGHT)%nat) by nia.
  unfold dither_pixel. cbv zeta. rewrite Hx0', Hx1', Hy1'.
  fold (quantisation_error (px p (y * SCREEN_WIDTH + x))). fold error.
  set (idx := (y * SCREEN_WIDTH + x)%nat) in *.
  set (p0 := set_px p idx (threshold (px p idx))).
  assert (L0 : length p0 = length p) by apply length_set_px.
  assert (T0 : total p0 = total p - error).
  { unfold p0. rewrite total_set_px by (subst idx; lia).
    unfold error, quantisation_error. lia. }
  set (i1 := (y * SCREEN_WIDTH + (x + 1))%nat) in *.
  set (i2 := ((y + 1) * SCREEN_WIDTH + (x - 1))%nat) in *.
  set (i3 := ((y + 1) * SCREEN_WIDTH + x)%nat) in *.
  set (i4 := ((y + 1) * SCREEN_WIDTH + (x + 1))%nat) in *.
  set (p1 := diffuse p0 i1 error 7).
  set (p2 := diffuse p1 i2 error 3).
  set (p3 := diffuse p2 i3 error 5).
  assert (L1 : length p1 = length p) by (unfold p1; now rewrite length_diffuse).
  assert (L2 : length p2 = length p) by (unfold p2; now rewrite length_diffuse).
  assert (L3 : length p3 = length p) by (unfold p3; now rewrite length_diffuse).
  assert (E1 : px p0 i1 = px p i1).
  { unfold p0. apply px_set_px_ne. subst idx i1. lia. }
  assert (E2 : px p1 i2 = px p i2).
  { unfold p1, p0. rewrite px_diffuse_ne by (subst i1 i2; lia).
    apply px_set_px_ne. subst idx i2. lia. }
  assert (E3 : px p2 i3 = px p i3).
  { unfold p2, p1, p0. rewrite !px_diffuse_ne by (subst i1 i2 i3; lia).
    apply px_set_px_ne. subst idx i3. lia. }
  assert (E4 : px p3 i4 = px p i4).
  { unfold p3, p2, p1, p0. rewrite !px_diffuse_ne by (subst i1 i2 i3 i4; lia).
    apply px_set_px_ne. subst idx i4. lia. }
  rewrite (total_diffuse p3 i4) by (rewrite ?E4, ?L3; first [exact H1 | subst i4; lia]).
  unfold p3 at 1.
  rewrite (total_diffuse p2 i3) by (rewrite ?E3, ?L2; first [exact H5 | subst i3; lia]).
  unfold p2 at 1.
  rewrite (total_diffuse p1 i2) by (rewrite ?E2, ?L1; first [exact H3 | subst i2; lia]).
  unfold p1 at 1.
  rewrite (total_diffuse p0 i1) by (rewrite ?E1, ?L0; first [exact H7 | subst i1; lia]).
  rewrite T0. unfold shares. lia.
Qed.

(** * Frames, display and keys *)

Local Opaque SCREEN_WIDTH SCREEN_HEIGHT.

Lemma u8_byte z : is_byte (u8 z).
Proof.
  unfold is_byte, u8. pose proof (Z.mod_pos_bound z (2 ^ 8) ltac:(lia)). lia.
Qed.

Lemma u8_id z : is_byte z -> u8 z = z.
Proof. unfold is_byte, u8. intros H. apply Z.mod_small. lia. Qed.

Lemma u8_succ a k : u8 (u8 (a + k) + 1) = u8 (a + (k + 1)).
Proof. unfold u8. rewrite Zplus_mod_idemp_l. f_equal. lia. Qed.

(** ** The pixels in the order of the loops *)

Lemma flat_map_rows_lookup {A} (f : nat -> list A) (a n y x : nat) :
  (forall r, length (f r) = SCREEN_WIDTH) ->
  (y < n)%nat -> (x < SCREEN_WIDTH)%nat ->
  flat_map f (seq a n) !! (y * SCREEN_WIDTH + x)%nat = f (a + y)%nat !! x.
Proof.
  intros Hf. revert a y. induction n as [|n IH]; intros a y Hy Hx; [lia |].
  cbn [seq flat_map]. destruct y as [|y].
  - rewrite lookup_app_l by (rewrite Hf; lia).
    rewrite Nat.add_0_r. reflexivity.
  - rewrite lookup_app_r by (rewrite Hf; lia).
    rewrite Hf.
    replace (S y * SCREEN_WIDTH + x - SCREEN_WIDTH)%nat
      with (y * SCREEN_WIDTH + x)%nat by lia.
    rewrite (IH (S a) y) by lia.
    replace (S a + y)%nat with (a + S y)%nat by lia. reflexivity.
Qed.

Lemma length_flat_map_rows {A} (f : nat -> list A) (a n : nat) :
  (forall r, length (f r) = SCREEN_WIDTH) ->
  length (flat_map f (seq a n)) = (SCREEN_WIDTH * n)%nat.
Proof.
  intros Hf. revert a. induction n as [|n IH]; intros a; [cbn; lia |].
  cbn [seq flat_map]. rewrite length_app, Hf, IH. lia.
Qed.

Lemma row_lookup (y x : nat) :
  (x < SCREEN_WIDTH)%nat ->
  map (fun x => (x, y)) (seq 0 SCREEN_WIDTH) !! x = Some (x, y).
Proof.
  intros Hx. change (map (fun x => (x, y)) (seq 0 SCREEN_WIDTH))
    with ((fun x => (x, y)) <$> seq 0 SCREEN_WIDTH).
  rewrite list_lookup_fmap, lookup_seq_lt by exact Hx. reflexivity.
Qed.

Lemma length_row (y : nat) :
  length (map (fun x => (x, y)) (seq 0 SCREEN_WIDTH)) = SCREEN_WIDTH.
Proof. now rewrite length_map, length_seq. Qed.

Lemma row_major_lookup (y x : nat) :
  (x < SCREEN_WIDTH)%nat -> (y < SCREEN_HEIGHT)%nat ->
  row_major !! (y * SCREEN_WIDTH + x)%nat = Some (x, y).
Proof.
  intros Hx Hy. unfold row_major.
  rewrite (flat_map_rows_lookup _ 0 SCREEN_HEIGHT y x length_row Hy Hx).
  exact (row_lookup y x Hx).
Qed.

Lemma length_row_major : length row_major = (SCREEN_WIDTH * SCREEN_HEIGHT)%nat.
Proof. unfold row_major. exact (length_flat_map_rows _ 0 SCREEN_HEIGHT length_row). Qed.

Lemma NoDup_row_major : NoDup row_major.
Proof.
  apply NoDup_alt. intros i j d Hi Hj.
  pose proof (lookup_lt_Some _ _ _ Hi) as Li.
  pose proof (lookup_lt_Some _ _ _ Hj) as Lj.
  rewrite length_row_major in Li, Lj.
  destruct (raster_index i Li) as (y1 & x1 & Hx1 & Hy1 & ->).
  destruct (raster_index j Lj) as (y2 & x2 & Hx2 & Hy2 & ->).
  rewrite (row_major_lookup y1 x1 Hx1 Hy1) in Hi.
  rewrite (row_major_lookup y2 x2 Hx2 Hy2) in Hj.
  congruence.
Qed.

Lemma In_row_major (x y : nat) :
  In (x, y) row_major <-> (x < SCREEN_WIDTH)%nat /\ (y < SCREEN_HEIGHT)%nat.
Proof.
  unfold row_major. rewrite in_flat_map. split.
  - intros (r & Hr & Hin). apply in_map_iff in Hin as (c & Hc & Hin).
    apply in_seq in Hr, Hin. injection Hc as -> ->. lia.
  - intros [Hx Hy]. exists y. split; [apply in_seq; lia |].
    apply in_map_iff. exists x. split; [reflexivity | apply in_seq; lia].
Qed.

Section Program.
Context {platform : Platform}.

(** ** The raster of a frame *)

Lemma cast_u8_byte f : is_byte (cast_u8 f).
Proof.
  unfold cast_u8. destruct (f32_trunc f) as [z|]; [| apply u8_byte].
  destruct (Z.leb_spec 0 z); destruct (Z.leb_spec z 255); cbn [andb];
    try apply u8_byte.
  unfold is_byte. lia.
Qed.

Lemma gradient_raster_lookup st (y x : nat) :
  (x < SCREEN_WIDTH)%nat -> (y < SCREEN_HEIGHT)%nat ->
  gradient_raster st !! (y * SCREEN_WIDTH + x)%nat
  = Some (generate_gradient (u8 (Z.of_nat x)) (u8 (Z.of_nat y)) st).
Proof.
  intros Hx Hy. unfold gradient_raster.
  match goal with |- map ?f ?l !! _ = _ => change (map f l) with (f <$> l) end.
  rewrite list_lookup_fmap, (row_major_lookup y x Hx Hy). reflexivity.
Qed.

Lemma length_gradient_raster st :
  length (gradient_raster st) = (SCREEN_WIDTH * SCREEN_HEIGHT)%nat.
Proof. unfold gradient_raster. now rewrite length_map, length_row_major. Qed.

Lemma gradient_raster_byte st : Forall is_byte (gradient_raster st).
Proof.
  unfold gradient_raster. apply List.Forall_map. apply Forall_forall.
  intros p _. apply cast_u8_byte.
Qed.

Lemma fill_gradient_raster st :
  length (pixels st) = (SCREEN_WIDTH * SCREEN_HEIGHT)%nat ->
  pixels (scan_rows fill_pixel 0 SCREEN_HEIGHT st) = gradient_raster st.
Proof.
  intros Hlen. apply list_eq. intros i.
  destruct (Nat.lt_ge_cases i (SCREEN_WIDTH * SCREEN_HEIGHT)) as [Hi|Hi].
  - destruct (raster_index i Hi) as (y & x & Hx & Hy & ->).
    rewrite (fill_lookup st y x Hx Hy Hlen).
    rewrite (gradient_raster_lookup st y x Hx Hy). reflexivity.
  - rewrite !lookup_ge_None_2; [reflexivity | |].
    + rewrite length_gradient_raster. exact Hi.
    + rewrite length_fill, Hlen. exact Hi.
Qed.

(** X7. The raster a frame leaves is the dithered raster of gradient
    values: it does not depend on the raster the frame found, every value
    the fill loop stores is a byte, and every entry of the result is 0 or
    255, for any parameters and any platform. *)
Theorem generate_frame_raster (st : GenerativeState) :
  length (pixels st) = (SCREEN_WIDTH * SCREEN_HEIGHT)%nat ->
  pixels (generate_frame st) = apply_dither (gradient_raster st) /\
  Forall is_byte (gradient_raster st) /\
  Forall is_binary (pixels (generate_frame st)) /\
  length (pixels (generate_frame st)) = (SCREEN_WIDTH * SCREEN_HEIGHT)%nat.
Proof.
  intros Hlen.
  assert (E : pixels (generate_frame st) = apply_dither (gradient_raster st)).
  { rewrite generate_frame_pixels, (fill_gradient_raster st Hlen). reflexivity. }
  split; [exact E |]. split; [apply gradient_raster_byte |]. split.
  - rewrite E. apply apply_dither_is_binary, length_gradient_raster.
  - rewrite length_generate_frame. exact Hlen.
Qed.

(** ** The dots drawn *)

Lemma draw_cols p y cols dots :
  fold_left (fun dots x => draw_pixel p dots y x) cols dots
  = dots ++ List.filter (lit p) (map (fun x => (x, y)) cols).
Proof.
  revert dots. induction cols as [|x cols IH]; intros dots.
  - cbn. now rewrite app_nil_r.
  - cbn [map fold_left List.filter]. rewrite IH.
    unfold draw_pixel.
    change (lit p (x, y)) with (px p (y * SCREEN_WIDTH + x) >? 127).
    destruct (px p (y * SCREEN_WIDTH + x) >? 127); [| reflexivity].
    rewrite <- app_assoc. reflexivity.
Qed.

Lemma flat_map_cons_eq {A B} (f : A -> list B) a l :
  flat_map f (a :: l) = f a ++ flat_map f l.
Proof. reflexivity. Qed.

Lemma fold_left_cons_eq {A B} (f : A -> B -> A) b l a :
  fold_left f (b :: l) a = fold_left f l (f a b).
Proof. reflexivity. Qed.

Lemma draw_rows p rows dots :
  fold_left (fun dots y => scan_cols (draw_pixel p) y 0 SCREEN_WIDTH dots) rows dots
  = dots ++ List.filter (lit p)
              (flat_map (fun y => map (fun x => (x, y)) (seq 0 SCREEN_WIDTH)) rows).
Proof.
  revert dots. induction rows as [|y rows IH]; intros dots.
  - cbn [flat_map fold_left List.filter]. now rewrite app_nil_r.
  - rewrite flat_map_cons_eq, fold_left_cons_eq. rewrite IH. unfold scan_cols.
    rewrite draw_cols, List.filter_app, <- app_assoc. reflexivity.
Qed.

Lemma draw_callback_filter st :
  draw_callback st = List.filter (lit (pixels st)) row_major.
Proof.
  unfold draw_callback, scan_rows. rewrite draw_rows. unfold row_major.
  apply app_nil_l.
Qed.

Lemma In_draw_callback st (x y : nat) :
  In (x, y) (draw_callback st)
  <-> (x < SCREEN_WIDTH)%nat /\ (y < SCREEN_HEIGHT)%nat /\
      px (pixels st) (y * SCREEN_WIDTH + x) > 127.
Proof.
  rewrite draw_callback_filter, filter_In, In_row_major.
  unfold lit. cbn [fst snd].
  destruct (Z.gtb_spec (px (pixels st) (y * SCREEN_WIDTH + x)) 127);
    intuition (try discriminate; try lia).
Qed.

(** X8. The pixel loop of [draw_callback] draws, in the order of the
    loops and each at most once, exactly the pixels of the screen whose
    raster entry is above 127; it draws no dot outside the 128 by 64
    screen. *)
Theorem draw_callback_dots (st : GenerativeState) :
  draw_callback st = List.filter (lit (pixels st)) row_major /\
  List.NoDup (draw_callback st) /\
  (forall x y : nat,
     In (x, y) (draw_callback st)
     <-> (x < SCREEN_WIDTH)%nat /\ (y < SCREEN_HEIGHT)%nat /\
         px (pixels st) (y * SCREEN_WIDTH + x) > 127).
Proof.
  split; [apply draw_callback_filter |]. split; [| apply In_draw_callback].
  rewrite draw_callback_filter.
  apply List.NoDup_filter, NoDup_ListNoDup, NoDup_row_major.
Qed.

(** X9. After a frame the display is the raster: a pixel of the screen is
    drawn exactly when its entry is 255 and left blank exactly when its
    entry is 0, and the entry is the threshold of what the dither pass
    found there on the gradient raster. *)
Theorem draw_callback_after_frame (st : GenerativeState) (x y : nat) :
  length (pixels st) = (SCREEN_WIDTH * SCREEN_HEIGHT)%nat ->
  (x < SCREEN_WIDTH)%nat -> (y < SCREEN_HEIGHT)%nat ->
  let v := px (pixels (generate_frame st)) (y * SCREEN_WIDTH + x) in
  (In (x, y) (draw_callback (generate_frame st)) <-> v = 255) /\
  (v = 255 \/ v = 0) /\
  v = threshold (px (scan_before dither_pixel y x (gradient_raster st))
                    (y * SCREEN_WIDTH + x)).
Proof.
  intros Hlen Hx Hy v.
  assert (E : pixels (generate_frame st) = apply_dither (gradient_raster st)).
  { rewrite generate_frame_pixels, (fill_gradient_raster st Hlen). reflexivity. }
  assert (Hv : v = threshold (px (scan_before dither_pixel y x (gradient_raster st))
                                 (y * SCREEN_WIDTH + x))).
  { unfold v, px at 1. rewrite E.
    rewrite (apply_dither_lookup _ y x Hx Hy (length_gradient_raster st)).
    reflexivity. }
  assert (Hb : v = 255 \/ v = 0).
  { rewrite Hv. destruct (threshold_binary
      (px (scan_before dither_pixel y x (gradient_raster st)) (y * SCREEN_WIDTH + x)));
      [right | left]; assumption. }
  split; [| split; [exact Hb | exact Hv]].
  rewrite In_draw_callback. fold v. lia.
Qed.

(** ** What every reachable state satisfies *)

Lemma evolve_mode st r : mode (fst (evolve st r)) = mode st.
Proof.
  unfold evolve, bind, draw, ret.
  repeat match goal with
         | |- context [xorshift32 ?x] => destruct (xorshift32 x)
         | |- context [if ?b then _ else _] => destruct b
         end; reflexivity.
Qed.

Lemma kind_range z : 0 <= u8 (z mod 10) <= 9.
Proof. unfold u8. Z.to_euclidean_division_equations. lia. Qed.

Lemma evolve_kind st s :
  0 <= gradient_type st <= 9 ->
  0 <= gradient_type (fst (evolve st {| rng_state := s; rng_draws := 0 |})) <= 9.
Proof.
  intros H. rewrite evolve_run.
  destruct (stream s 1 mod 100 <? 20); cbn [fst]; cbv zeta.
  - destruct (stream s 5 mod 100 <? 10);
      cbn [gradient_type with_invert with_noise_scale with_frequency with_gradient_type];
      apply kind_range.
  - destruct (stream s 4 mod 100 <? 10);
      cbn [gradient_type with_invert with_noise_scale with_frequency with_gradient_type];
      exact H.
Qed.

Lemma evolve_parameters_kind st :
  0 <= gradient_type st <= 9 ->
  0 <= gradient_type (fst (evolve_parameters st)) <= 9.
Proof.
  intros H. unfold evolve_parameters. cbv zeta.
  destruct (_ =? 0); [| exact H].
  apply evolve_kind. exact H.
Qed.

Lemma evolve_parameters_mode st : mode (fst (evolve_parameters st)) = mode st.
Proof.
  unfold evolve_parameters. cbv zeta.
  destruct (_ =? 0); [| reflexivity].
  rewrite evolve_mode. reflexivity.
Qed.

Lemma generate_frame_kind st :
  0 <= gradient_type st <= 9 -> 0 <= gradient_type (generate_frame st) <= 9.
Proof.
  intros H. rewrite generate_frame_unfold.
  destruct (filled_same st) as (Hp & _ & _).
  revert Hp. generalize (filled st). intros st' Hp.
  apply evolve_parameters_kind.
  unfold parameters in Hp. injection Hp as _ Hg _ _ _. rewrite Hg. exact H.
Qed.

Lemma generate_frame_mode st : mode (generate_frame st) = mode st.
Proof.
  rewrite generate_frame_unfold, evolve_parameters_mode.
  destruct (filled_same st) as (_ & _ & Hm). exact Hm.
Qed.

Lemma input_callback_kind tick ev st :
  0 <= gradient_type st <= 9 ->
  0 <= gradient_type (input_callback tick ev st) <= 9.
Proof.
  intros H. unfold input_callback.
  destruct (type ev); try exact H.
  destruct (key ev); try exact H;
    cbn [gradient_type with_frequency with_gradient_type with_seed seed];
    try exact H; apply kind_range.
Qed.

Lemma input_callback_frame tick ev st :
  pixels (input_callback tick ev st) = pixels st /\
  noise_scale (input_callback tick ev st) = noise_scale st /\
  invert (input_callback tick ev st) = invert st /\
  frame_count (input_callback tick ev st) = frame_count st /\
  mode (input_callback tick ev st) = mode st.
Proof.
  unfold input_callback.
  destruct (type ev); try (repeat split; reflexivity).
  destruct (key ev); repeat split; reflexivity.
Qed.

(** X10. In every state the program reaches the pattern kind is one of the
    ten kinds 0..9, so the [default] branch of [generate_gradient] is never
    taken; the frame counter is a byte and [mode] is still 0. *)
Theorem reachable_kind (st : GenerativeState) :
  reachable st ->
  0 <= gradient_type st <= 9 /\ is_byte (frame_count st) /\ mode st = 0.
Proof.
  induction 1 as [tick raster|st _ (Hk & Hc & Hm)|tick ev st _ (Hk & Hc & Hm)].
  - cbn. unfold is_byte. lia.
  - split; [exact (generate_frame_kind st Hk) |]. split.
    + rewrite generate_frame_frame_count. apply u8_byte.
    + rewrite generate_frame_mode. exact Hm.
  - destruct (input_callback_frame tick ev st) as (_ & _ & _ & Ec & Em).
    split; [exact (input_callback_kind tick ev st Hk) |].
    rewrite Ec, Em. split; assumption.
Qed.

(** ** Runs of frames *)

Lemma generate_frame_quiet st :
  u8 (frame_count st + 1) mod 30 <> 0 ->
  parameters (generate_frame st) = parameters st.
Proof.
  intros H. rewrite generate_frame_unfold.
  destruct (filled_same st) as (Hp & Hf & _).
  rewrite evolve_parameters_off_tick by (rewrite Hf; exact H).
  destruct (filled st). exact Hp.
Qed.

Lemma frames_quiet (n : nat) st :
  is_byte (frame_count st) ->
  (forall k, 1 <= k <= Z.of_nat n -> u8 (frame_count st + k) mod 30 <> 0) ->
  parameters (frames n st) = parameters st /\
  frame_count (frames n st) = u8 (frame_count st + Z.of_nat n).
Proof.
  intros Hb. induction n as [|n IH]; intros Hk.
  - split; [reflexivity |]. cbn [frames Nat.iter Z.of_nat].
    rewrite Z.add_0_r, (u8_id _ Hb). reflexivity.
  - destruct IH as [IHp IHc]; [intros k Hk'; apply Hk; lia |].
    rewrite frames_S. split.
    + rewrite generate_frame_quiet; [exact IHp |].
      rewrite IHc, u8_succ. apply Hk. lia.
    + rewrite generate_frame_frame_count, IHc, u8_succ. f_equal. lia.
Qed.

Lemma frames_frame_count (n : nat) st :
  is_byte (frame_count st) ->
  frame_count (frames n st) = u8 (frame_count st + Z.of_nat n).
Proof.
  intros Hb. induction n as [|n IH].
  - cbn [frames Nat.iter Z.of_nat]. rewrite Z.add_0_r, (u8_id _ Hb). reflexivity.
  - rewrite frames_S, generate_frame_frame_count, IH, u8_succ. f_equal. lia.
Qed.

(** X11. A run of frames counts modulo 256: after [n] frames the counter
    is the old one plus [n], reduced modulo 256, so it is back where it
    was after 256 frames; and as long as the counter passes no multiple of
    30 on the way the five parameters stay as they were. *)
Theorem frames_between_ticks (n : nat) (st : GenerativeState) :
  is_byte (frame_count st) ->
  frame_count (frames n st) = (frame_count st + Z.of_nat n) mod 256 /\
  frame_count (frames (256 + n) st) = frame_count (frames n st) /\
  ((forall k, 1 <= k <= Z.of_nat n -> u8 (frame_count st + k) mod 30 <> 0) ->
   parameters (frames n st) = parameters st).
Proof.
  intros Hb. split; [exact (frames_frame_count n st Hb) |]. split.
  - rewrite !(frames_frame_count _ st Hb). unfold u8.
    replace (frame_count st + Z.of_nat (256 + n))
      with (frame_count st + Z.of_nat n + 1 * 2 ^ 8) by lia.
    apply Z.mod_add. lia.
  - intros Hk. exact (proj1 (frames_quiet n st Hb Hk)).
Qed.

(** ** Start-up *)

Lemma timer_frames (n : nat) tick raster :
  Nat.iter n timer_callback (flipper_gen_app_alloc tick raster)
  = frames (S n) (initial_state tick raster).
Proof.
  unfold flipper_gen_app_alloc, frames.
  change timer_callback with (fun st => generate_frame st).
  symmetry. exact (Nat.iter_succ_r n generate_frame (initial_state tick raster)).
Qed.

Lemma evolve_parameters_tick st :
  u8 (frame_count st + 1) mod 30 = 0 ->
  evolve_parameters st
  = evolve (with_frame_count st (u8 (frame_count st + 1)))
           {| rng_state := u32 (seed st + u8 (frame_count st + 1)); rng_draws := 0 |}.
Proof.
  intros H. unfold evolve_parameters. cbv zeta.
  cbn [frame_count seed with_frame_count]. rewrite H. reflexivity.
Qed.

Lemma generate_frame_tick_frequency st :
  u8 (frame_count st + 1) mod 30 = 0 ->
  let s := u32 (seed st + u8 (frame_count st + 1)) in
  frequency (generate_frame st)
  = frequency_of (stream s (if stream s 1 mod 100 <? 20 then 3 else 2)) /\
  noise_scale (generate_frame st)
  = noise_scale_of (stream s (if stream s 1 mod 100 <? 20 then 4 else 3)).
Proof.
  intros H s. rewrite generate_frame_unfold.
  destruct (filled_same st) as (Hp & Hf & _).
  assert (Hs : seed (filled st) = seed st).
  { revert Hp. generalize (filled st). intros st' Hp.
    unfold parameters in Hp. injection Hp as Hs _ _ _ _. exact Hs. }
  revert Hf Hs. generalize (filled st). intros st' Hf Hs.
  rewrite evolve_parameters_tick by (rewrite Hf; exact H).
  rewrite Hf, Hs. fold s. rewrite evolve_run.
  destruct (stream s 1 mod 100 <? 20); cbn [fst]; cbv zeta.
  - destruct (stream s 5 mod 100 <? 10);
      cbn [frequency noise_scale with_invert with_noise_scale with_frequency];
      split; reflexivity.
  - destruct (stream s 4 mod 100 <? 10);
      cbn [frequency noise_scale with_invert with_noise_scale with_frequency];
      split; reflexivity.
Qed.

Lemma startup_quiet (m : nat) tick raster :
  (m <= 29)%nat ->
  parameters (frames m (initial_state tick raster))
  = parameters (initial_state tick raster) /\
  frame_count (frames m (initial_state tick raster)) = Z.of_nat m.
Proof.
  intros Hm. set (st0 := initial_state tick raster).
  assert (Hb : is_byte (frame_count st0)) by (cbn; unfold is_byte; lia).
  destruct (frames_quiet m st0 Hb) as [Hp Hc].
  - intros k Hk. change (frame_count st0) with 0. unfold u8.
    Z.to_euclidean_division_equations. lia.
  - split; [exact Hp |]. rewrite Hc. change (frame_count st0) with 0.
    unfold u8. Z.to_euclidean_division_equations. lia.
Qed.

Lemma startup_first tick raster :
  let first := generate_frame (frames 29 (initial_state tick raster)) in
  let s := u32 (tick + 30) in
  frame_count first = 30 /\
  frequency first = frequency_of (stream s (if stream s 1 mod 100 <? 20 then 3 else 2)) /\
  noise_scale first
  = noise_scale_of (stream s (if stream s 1 mod 100 <? 20 then 4 else 3)).
Proof.
  destruct (startup_quiet 29 tick raster ltac:(lia)) as [Hp Hc].
  revert Hp Hc. generalize (frames 29 (initial_state tick raster)).
  intros st' Hp Hc first s. unfold first.
  assert (Hs : seed st' = tick).
  { unfold parameters in Hp. injection Hp as Hs _ _ _ _. exact Hs. }
  assert (Ht : u8 (frame_count st' + 1) mod 30 = 0) by (rewrite Hc; reflexivity).
  split.
  - rewrite generate_frame_frame_count, Hc. reflexivity.
  - pose proof (generate_frame_tick_frequency st' Ht) as Hf.
    cbv zeta in Hf. rewrite Hs, Hc in Hf.
    change (u8 (Z.of_nat 29 + 1)) with 30 in Hf. exact Hf.
Qed.

(** X12. Start-up. [flipper_gen_app_alloc] leaves the counter at 1, and
    through the first 28 timer callbacks (29 frames in all) the parameters
    are the defaults: seed the start tick, horizontal gradient, frequency
    1.0f, noise scale 0.05f, not inverted. The 29th callback is the first
    evolution; its stream is seeded with the start tick plus 30. *)
Theorem startup_defaults (n : nat) (tick : Z) (raster : list Z) :
  (n <= 28)%nat ->
  let st := Nat.iter n timer_callback (flipper_gen_app_alloc tick raster) in
  let first := Nat.iter 29 timer_callback (flipper_gen_app_alloc tick raster) in
  let s := u32 (tick + 30) in
  parameters st = (tick, 0, f32_of_Z 1, f32_lit 5 100, false) /\
  frame_count st = Z.of_nat n + 1 /\
  frame_count first = 30 /\
  frequency first = frequency_of (stream s (if stream s 1 mod 100 <? 20 then 3 else 2)) /\
  noise_scale first
  = noise_scale_of (stream s (if stream s 1 mod 100 <? 20 then 4 else 3)).
Proof.
  intros Hn st first s.
  assert (E1 : st = frames (S n) (initial_state tick raster)) by apply timer_frames.
  assert (E2 : first = generate_frame (frames 29 (initial_state tick raster))).
  { unfold first. rewrite timer_frames. apply frames_S. }
  clearbody st first. subst st first.
  destruct (startup_quiet (S n) tick raster ltac:(lia)) as [Hp Hc].
  split; [exact Hp |]. split; [rewrite Hc; lia |].
  exact (startup_first tick raster).
Qed.

(** ** Keys *)

Lemma up_down_kind g :
  0 <= g <= 9 ->
  u8 ((u8 ((g + 1) mod 10) + 9) mod 10) = g /\
  u8 ((u8 ((g + 9) mod 10) + 1) mod 10) = g.
Proof. unfold u8. intros H. Z.to_euclidean_division_equations. lia. Qed.

Lemma press_up_iter (n : nat) tick st :
  Nat.iter n (input_callback tick (press InputKeyUp)) st
  = with_gradient_type st
      (Nat.iter n (fun g => u8 ((g + 1) mod 10)) (gradient_type st)).
Proof.
  induction n as [|n IH].
  - destruct st. reflexivity.
  - rewrite !Nat.iter_succ, IH. reflexivity.
Qed.

(** X13. The pattern keys walk a cycle of ten. On a state whose kind is one
    of 0..9, Up followed by Down and Down followed by Up give the state
    back, and ten presses of Up give it back as well. *)
Theorem up_down_cycle (tick1 tick2 : Z) (st : GenerativeState) :
  0 <= gradient_type st <= 9 ->
  input_callback tick2 (press InputKeyDown) (input_callback tick1 (press InputKeyUp) st) = st /\
  input_callback tick2 (press InputKeyUp) (input_callback tick1 (press InputKeyDown) st) = st /\
  Nat.iter 10 (input_callback tick1 (press InputKeyUp)) st = st.
Proof.
  intros H. destruct st as [p s m g f ns i c]. cbn [gradient_type] in H.
  destruct (up_down_kind g H) as [E1 E2].
  split; [| split].
  - unfold input_callback, press. cbn. rewrite E1. reflexivity.
  - unfold input_callback, press. cbn. rewrite E2. reflexivity.
  - rewrite press_up_iter. unfold with_gradient_type. cbn [gradient_type pixels seed mode frequency noise_scale invert frame_count].
    f_equal.
    assert (Hg : g = 0 \/ g = 1 \/ g = 2 \/ g = 3 \/ g = 4 \/ g = 5 \/ g = 6
                 \/ g = 7 \/ g = 8 \/ g = 9) by lia.
    repeat (destruct Hg as [-> | Hg]; [reflexivity |]). subst g. reflexivity.
Qed.

(** X14. What the input callback never does. An event that is not a press
    changes nothing, and neither does a press of Back; no event changes the
    raster, the noise scale, the inversion, the frame counter or [mode];
    only a press of OK changes the seed, and only presses of OK, Left and
    Right change the frequency. *)
Theorem input_callback_untouched (tick : Z) (ev : InputEvent) (st : GenerativeState) :
  (type ev <> InputTypePress -> input_callback tick ev st = st) /\
  (key ev = InputKeyBack \/ key ev = InputKeyMAX -> input_callback tick ev st = st) /\
  pixels (input_callback tick ev st) = pixels st /\
  noise_scale (input_callback tick ev st) = noise_scale st /\
  invert (input_callback tick ev st) = invert st /\
  frame_count (input_callback tick ev st) = frame_count st /\
  mode (input_callback tick ev st) = mode st /\
  (key ev <> InputKeyOk -> seed (input_callback tick ev st) = seed st) /\
  (key ev = InputKeyUp \/ key ev = InputKeyDown ->
   frequency (input_callback tick ev st) = frequency st).
Proof.
  destruct (input_callback_frame tick ev st) as (E1 & E2 & E3 & E4 & E5).
  repeat (split; [first [exact E1 | exact E2 | exact E3 | exact E4 | exact E5 | idtac] |]).
  - intros H. unfold input_callback. destruct (type ev); congruence.
  - intros [H | H]; unfold input_callback; rewrite H; destruct (type ev); reflexivity.
  - intros H. unfold input_callback.
    destruct (type ev); try reflexivity. destruct (key ev); try reflexivity. congruence.
  - intros [H | H]; unfold input_callback; rewrite H; destruct (type ev); reflexivity.
Qed.

(** X15. A press of OK stores the tick as the seed and derives the kind and
    the frequency from it alone: the kind is the tick modulo 10 and the
    frequency is a function of the tick modulo 100, so two ticks that agree
    modulo 100 give the same kind and frequency, whatever the state was. *)
Theorem ok_press_mod_100 (t1 t2 : Z) (st1 st2 : GenerativeState) :
  t1 mod 100 = t2 mod 100 ->
  seed (input_callback t1 (press InputKeyOk) st1) = t1 /\
  gradient_type (input_callback t1 (press InputKeyOk) st1) = t1 mod 100 mod 10 /\
  gradient_type (input_callback t1 (press InputKeyOk) st1)
  = gradient_type (input_callback t2 (press InputKeyOk) st2) /\
  frequency (input_callback t1 (press InputKeyOk) st1)
  = frequency (input_callback t2 (press InputKeyOk) st2).
Proof.
  intros H. unfold input_callback, press.
  cbn [type key seed gradient_type frequency with_seed with_gradient_type with_frequency].
  split; [reflexivity |]. split; [| split].
  - unfold u8. Z.to_euclidean_division_equations. lia.
  - unfold u8. Z.to_euclidean_division_equations. lia.
  - unfold frequency_of. rewrite H. reflexivity.
Qed.

End Program.

(** * The patterns and their conversions *)

Local Transparent SCREEN_WIDTH SCREEN_HEIGHT.

Lemma range_leb_spec f mb eb : range_leb f mb eb = true -> range_le f mb eb.
Proof.
  destruct f as [s|s| |[] m e]; cbn [range_leb range_le]; try discriminate;
    try (intros _; exact I).
  apply cmp_scaled_not_gt.
Qed.

Lemma range_le_unit f : range_le f (2 ^ 23) (-23) -> unit_range f.
Proof. destruct f as [s|s| |[] m e]; cbn [range_le unit_range]; tauto. Qed.

Lemma below_range_le f mb eb : below false f mb eb -> range_le f mb eb.
Proof.
  destruct f as [s|s| |s m e]; cbn [below range_le]; try tauto.
  intros [-> H]. exact H.
Qed.

Lemma vle_mul m1 e1 b1 f1 m2 e2 b2 f2 :
  0 <= m1 -> 0 <= m2 ->
  vle m1 e1 b1 f1 -> vle m2 e2 b2 f2 ->
  vle (m1 * m2) (e1 + e2) (b1 * b2) (f1 + f2).
Proof.
  intros H1 H2 V1 V2. unfold vle in V1, V2.
  set (k1 := Z.min e1 f1) in *. set (k2 := Z.min e2 f2) in *.
  apply (vle_unscaled _ _ _ _ (k1 + k2)); [unfold k1, k2; lia .. |].
  replace (e1 + e2 - (k1 + k2)) with ((e1 - k1) + (e2 - k2)) by lia.
  replace (f1 + f2 - (k1 + k2)) with ((f1 - k1) + (f2 - k2)) by lia.
  rewrite !Z.pow_add_r by (unfold k1, k2; lia).
  pose proof (pow2_pos (e1 - k1) ltac:(unfold k1; lia)).
  pose proof (pow2_pos (e2 - k2) ltac:(unfold k2; lia)).
  assert (0 <= m1 * 2 ^ (e1 - k1)) by nia.
  assert (0 <= m2 * 2 ^ (e2 - k2)) by nia.
  pose proof (Z.mul_le_mono_nonneg (m1 * 2 ^ (e1 - k1)) (b1 * 2 ^ (f1 - k1))
                (m2 * 2 ^ (e2 - k2)) (b2 * 2 ^ (f2 - k2)) H3 V1 H4 V2).
  lia.
Qed.

Lemma f32_mul_range_le a b A eA B eB M E :
  range_le a A eA -> range_le b B eB ->
  format32 M E -> Zdigits2 M + E <= 105 ->
  vle (A * B) (eA + eB) M E ->
  range_le (f32_mul a b) M E.
Proof.
  intros Ha Hb HF HD HV.
  destruct a as [sa|sa| |[] ma ea]; cbn [range_le] in Ha; try contradiction;
    destruct b as [sb|sb| |[] mb eb]; cbn [range_le] in Hb; try contradiction;
    try exact I.
  unfold f32_mul, SFmul. cbn [xorb].
  assert (V : vle (Zpos (ma * mb)) (ea + eb) M E).
  { rewrite Pos2Z.inj_mul.
    apply (vle_trans _ _ (A * B) (eA + eB)); [| exact HV].
    apply vle_mul; [lia | lia | exact Ha | exact Hb]. }
  apply below_range_le. apply round_aux_below; [lia | | exact HF | exact V].
  destruct HF as (HM & _ & _).
  pose proof (vle_digits (Zpos (ma * mb)) (ea + eb) M E ltac:(lia) HM V) as Hd.
  destruct (Zdigits2_bounds (Zpos (ma * mb)) ltac:(lia)) as [Hd0 _]. lia.
Qed.

Lemma range_le_weaken f M E M' E' :
  range_le f M E -> vle M E M' E' -> range_le f M' E'.
Proof.
  destruct f as [s|s| |[] m e]; cbn [range_le]; try tauto.
  intros H1 H2. exact (vle_trans _ _ _ _ _ _ H1 H2).
Qed.

Lemma range_le_trunc f B :
  0 <= B -> range_le f B 0 -> exists z, f32_trunc f = Some z /\ 0 <= z <= B.
Proof.
  intros HB. destruct f as [s|s| |[] m e]; cbn [range_le]; try contradiction.
  - intros _. exists 0. split; [reflexivity | lia].
  - apply f32_trunc_bound.
Qed.

Lemma trunc_leb_spec f B :
  trunc_leb f B = true -> exists z, f32_trunc f = Some z /\ 0 <= z <= B.
Proof.
  unfold trunc_leb. destruct (f32_trunc f) as [z|]; [| discriminate].
  intros H. apply andb_prop in H as [H1 H2]. exists z. split; [reflexivity | lia].
Qed.

Lemma in_policy_range_le f : in_policy f -> range_le f (2 ^ 23) (-21).
Proof.
  destruct f as [s|s| |[] m e]; cbn [in_policy range_le]; try contradiction.
  intros [_ H]. exact H.
Qed.

Lemma format32_254 : format32 16646144 (-16).
Proof. unfold format32. vm_compute. repeat split; congruence. Qed.

(** A value of at most 63.5 times a frequency of at most 4 converts. *)
Lemma scaled_cast_defined v f :
  range_le v 127 (-1) -> in_policy f -> cast_u8_defined (f32_mul v f).
Proof.
  intros Hv Hf. apply in_policy_range_le in Hf.
  assert (H : range_le (f32_mul v f) 16646144 (-16)).
  { apply (f32_mul_range_le v f 127 (-1) (2 ^ 23) (-21));
      [exact Hv | exact Hf | exact format32_254 | vm_compute; discriminate |].
    unfold vle. vm_compute. discriminate. }
  apply (range_le_weaken _ _ _ 255 0) in H; [| unfold vle; vm_compute; discriminate].
  exact (range_le_trunc _ 255 ltac:(lia) H).
Qed.

Lemma scaled_columns x :
  0 <= x < Z.of_nat SCREEN_WIDTH ->
  range_le (f32_mul (norm_x x) (f32_of_Z 64)) 127 (-1) /\
  range_le (f32_mul (norm_x x) (f32_of_Z 32)) 127 (-1) /\
  range_le (f32_mul (norm_x x) (f32_of_Z 8)) 127 (-1).
Proof.
  intros Hx.
  pose proof (forallb_range
    (fun x => range_leb (f32_mul (norm_x x) (f32_of_Z 64)) 127 (-1)
              && range_leb (f32_mul (norm_x x) (f32_of_Z 32)) 127 (-1)
              && range_leb (f32_mul (norm_x x) (f32_of_Z 8)) 127 (-1))
    SCREEN_WIDTH ltac:(vm_compute; reflexivity) x Hx) as H.
  cbv beta in H. apply andb_prop in H as [H H3]. apply andb_prop in H as [H1 H2].
  repeat split; apply range_leb_spec; assumption.
Qed.

Lemma scaled_rows y :
  0 <= y < Z.of_nat SCREEN_HEIGHT ->
  range_le (f32_mul (norm_y y) (f32_of_Z 64)) 63 0 /\
  range_le (f32_mul (norm_y y) (f32_of_Z 32)) 127 (-1) /\
  range_le (f32_mul (norm_y y) (f32_of_Z 8)) 127 (-1).
Proof.
  intros Hy.
  pose proof (forallb_range
    (fun y => range_leb (f32_mul (norm_y y) (f32_of_Z 64)) 63 0
              && range_leb (f32_mul (norm_y y) (f32_of_Z 32)) 127 (-1)
              && range_leb (f32_mul (norm_y y) (f32_of_Z 8)) 127 (-1))
    SCREEN_HEIGHT ltac:(vm_compute; reflexivity) y Hy) as H.
  cbv beta in H. apply andb_prop in H as [H H3]. apply andb_prop in H as [H1 H2].
  repeat split; apply range_leb_spec; assumption.
Qed.

Lemma fast_sin_range angle : -64 <= fast_sin angle <= 64.
Proof.
  rewrite (fast_sin_mod angle).
  pose proof (forallb_range
    (fun r => (-64 <=? fast_sin r) && (fast_sin r <=? 64))
    64 ltac:(vm_compute; reflexivity) (angle mod 64)
    ltac:(apply Z.mod_pos_bound; lia)) as H.
  cbv beta in H. apply andb_prop in H as [H1 H2]. lia.
Qed.

Lemma wave_value_unit n :
  0 <= n <= 128 -> unit_range (f32_div (f32_of_Z n) (f32_of_Z 128)).
Proof.
  intros Hn. apply range_le_unit, range_leb_spec.
  exact (forallb_range
    (fun n => range_leb (f32_div (f32_of_Z n) (f32_of_Z 128)) (2 ^ 23) (-23))
    129 ltac:(vm_compute; reflexivity) n ltac:(lia)).
Qed.

Section Patterns.
Context {platform : Platform}.

(** X16. The three wave patterns (kinds 4, 5 and 6) need no clamping: for
    any coordinates, any frequency and any platform the value of the
    switch is [n / 128.0f] for an integer [n] in 0..128, which is zero or a
    positive float of at most 1. *)
Theorem wave_patterns_unit_range (x y : Z) (nx ny : float) (st : GenerativeState) :
  gradient_type st = 4 \/ gradient_type st = 5 \/ gradient_type st = 6 ->
  exists n,
    0 <= n <= 128 /\
    gradient_switch x y nx ny st = f32_div (f32_of_Z n) (f32_of_Z 128) /\
    unit_range (gradient_switch x y nx ny st).
Proof.
  intros H. unfold gradient_switch.
  destruct H as [-> | [-> | ->]]; cbv zeta.
  - match goal with |- context [fast_sin ?a] =>
      pose proof (fast_sin_range a) as Hs; exists (fast_sin a + 64) end.
    split; [lia |]. split; [reflexivity |]. apply wave_value_unit. lia.
  - match goal with |- context [fast_sin ?a] =>
      pose proof (fast_sin_range a) as Hs; exists (fast_sin a + 64) end.
    split; [lia |]. split; [reflexivity |]. apply wave_value_unit. lia.
  - match goal with |- context [Z.quot (fast_sin ?a * fast_sin ?b) 64] =>
      pose proof (fast_sin_range a) as Hs1; pose proof (fast_sin_range b) as Hs2;
      set (w1 := fast_sin a) in *; set (w2 := fast_sin b) in *;
      exists (Z.quot (w1 * w2) 64 + 64) end.
    assert (Hq : -64 <= Z.quot (w1 * w2) 64 <= 64).
    { assert (-4096 <= w1 * w2 <= 4096) by nia.
      Z.to_euclidean_division_equations. lia. }
    split; [lia |]. split; [reflexivity |]. apply wave_value_unit. lia.
Qed.

(** X17. With the noise overlay off, the checkerboard (kind 7) stores only
    0 and 255: 255 where the two parities differ and 0 where they agree,
    the other way round when inverted, for any frequency and platform. *)
Theorem checkerboard_black_white (x y : Z) (st : GenerativeState) :
  gradient_type st = 7 ->
  f32_gt (noise_scale st) (f32_of_Z 0) = false ->
  let check_x := Z.land (cast_u8 (f32_mul (f32_mul (norm_x x) (f32_of_Z 8)) (frequency st))) 1 in
  let check_y := Z.land (cast_u8 (f32_mul (f32_mul (norm_y y) (f32_of_Z 8)) (frequency st))) 1 in
  generate_gradient x y st
  = (if xorb (Z.lxor check_x check_y =? 0) (invert st) then 0 else 255) /\
  (generate_gradient x y st = 0 \/ generate_gradient x y st = 255).
Proof.
  intros Hk Hn check_x check_y.
  assert (E : generate_gradient x y st
              = if xorb (Z.lxor check_x check_y =? 0) (invert st) then 0 else 255).
  { unfold generate_gradient, gradient_scaled, noise_overlay, clamp_invert.
    cbv zeta. rewrite Hn. unfold gradient_switch. rewrite Hk. cbv zeta.
    fold (norm_x x). fold (norm_y y). fold check_x. fold check_y.
    destruct (Z.lxor check_x check_y =? 0); destruct (invert st);
      vm_compute; reflexivity. }
  split; [exact E |]. rewrite E.
  destruct (xorb _ _); [left | right]; reflexivity.
Qed.

(** X18. In every reachable state and at every pixel of the screen, the
    float-to-[uint8_t] conversions of the sine wave (kind 4), the
    interference pattern (kind 6) and the checkerboard (kind 7) get a value
    whose integral part is in 0..255: none of them is undefined. *)
Theorem pattern_casts_defined (x y : Z) (st : GenerativeState) :
  reachable st ->
  0 <= x < Z.of_nat SCREEN_WIDTH -> 0 <= y < Z.of_nat SCREEN_HEIGHT ->
  cast_u8_defined (f32_mul (f32_mul (norm_x x) (f32_of_Z 64)) (frequency st)) /\
  cast_u8_defined (f32_mul (f32_mul (norm_x x) (f32_of_Z 32)) (frequency st)) /\
  cast_u8_defined (f32_mul (f32_mul (norm_y y) (f32_of_Z 32)) (frequency st)) /\
  cast_u8_defined (f32_mul (f32_mul (norm_x x) (f32_of_Z 8)) (frequency st)) /\
  cast_u8_defined (f32_mul (f32_mul (norm_y y) (f32_of_Z 8)) (frequency st)).
Proof.
  intros Hr Hx Hy. destruct (reachable_ok st Hr) as [Hf _].
  destruct (scaled_columns x Hx) as (X64 & X32 & X8).
  destruct (scaled_rows y Hy) as (_ & Y32 & Y8).
  repeat split; apply scaled_cast_defined; assumption.
Qed.

End Patterns.

(** * Exact shades, and the conversion of the cosine wave *)

Lemma shade_is_spec v inv z : shade_is v inv z = true -> shade v inv = Some z.
Proof.
  unfold shade_is. destruct (shade v inv) as [w|]; [| discriminate].
  intros H. apply Z.eqb_eq in H. now subst.
Qed.

Lemma forallb_raster (P : Z -> Z -> bool) :
  forallb (fun y => forallb (fun x => P x y) (map Z.of_nat (seq 0 SCREEN_WIDTH)))
          (map Z.of_nat (seq 0 SCREEN_HEIGHT)) = true ->
  forall x y, 0 <= x < Z.of_nat SCREEN_WIDTH -> 0 <= y < Z.of_nat SCREEN_HEIGHT ->
              P x y = true.
Proof.
  intros H x y Hx Hy.
  pose proof (forallb_range
    (fun y => forallb (fun x => P x y) (map Z.of_nat (seq 0 SCREEN_WIDTH)))
    SCREEN_HEIGHT H y Hy) as Hrow.
  cbv beta in Hrow.
  exact (forallb_range (fun x => P x y) SCREEN_WIDTH Hrow x Hx).
Qed.

Lemma shade_horizontal x inv :
  0 <= x < Z.of_nat SCREEN_WIDTH ->
  shade (norm_x x) inv
  = Some (if inv then 255 * (128 - x) / 128 else 255 * x / 128).
Proof.
  intros Hx. apply shade_is_spec. destruct inv.
  - exact (forallb_range
      (fun x => shade_is (norm_x x) true (255 * (128 - x) / 128))
      SCREEN_WIDTH ltac:(vm_compute; reflexivity) x Hx).
  - exact (forallb_range
      (fun x => shade_is (norm_x x) false (255 * x / 128))
      SCREEN_WIDTH ltac:(vm_compute; reflexivity) x Hx).
Qed.

Lemma shade_vertical y inv :
  0 <= y < Z.of_nat SCREEN_HEIGHT ->
  shade (norm_y y) inv
  = Some (if inv then 255 * (64 - y) / 64 else 255 * y / 64).
Proof.
  intros Hy. apply shade_is_spec. destruct inv.
  - exact (forallb_range
      (fun y => shade_is (norm_y y) true (255 * (64 - y) / 64))
      SCREEN_HEIGHT ltac:(vm_compute; reflexivity) y Hy).
  - exact (forallb_range
      (fun y => shade_is (norm_y y) false (255 * y / 64))
      SCREEN_HEIGHT ltac:(vm_compute; reflexivity) y Hy).
Qed.

Lemma shade_diagonal x y inv :
  0 <= x < Z.of_nat SCREEN_WIDTH -> 0 <= y < Z.of_nat SCREEN_HEIGHT ->
  shade (f32_div (f32_add (norm_x x) (norm_y y)) (f32_of_Z 2)) inv
  = Some (if inv then 255 * (256 - (x + 2 * y)) / 256 else 255 * (x + 2 * y) / 256).
Proof.
  intros Hx Hy. apply shade_is_spec. destruct inv.
  - exact (forallb_raster
      (fun x y => shade_is (f32_div (f32_add (norm_x x) (norm_y y)) (f32_of_Z 2)) true
                           (255 * (256 - (x + 2 * y)) / 256))
      ltac:(vm_compute; reflexivity) x y Hx Hy).
  - exact (forallb_raster
      (fun x y => shade_is (f32_div (f32_add (norm_x x) (norm_y y)) (f32_of_Z 2)) false
                           (255 * (x + 2 * y) / 256))
      ltac:(vm_compute; reflexivity) x y Hx Hy).
Qed.

Lemma shade_in_spec v inv lo hi :
  shade_in v inv lo hi = true -> exists z, shade v inv = Some z /\ lo <= z <= hi.
Proof.
  unfold shade_in. destruct (shade v inv) as [w|]; [| discriminate].
  intros H. apply andb_prop in H as [H1 H2]. exists w. split; [reflexivity | lia].
Qed.

Lemma shade_noise n :
  0 <= n < 256 ->
  shade (f32_div (f32_of_Z n) (f32_of_Z 255)) false = Some n /\
  exists z, shade (f32_div (f32_of_Z n) (f32_of_Z 255)) true = Some z /\
            254 - n <= z <= 255 - n /\ 0 <= z.
Proof.
  intros Hn. split.
  - apply shade_is_spec.
    exact (forallb_range
      (fun n => shade_is (f32_div (f32_of_Z n) (f32_of_Z 255)) false n)
      256 ltac:(vm_compute; reflexivity) n Hn).
  - pose proof (forallb_range
      (fun n => shade_in (f32_div (f32_of_Z n) (f32_of_Z 255)) true
                         (Z.max 0 (254 - n)) (255 - n))
      256 ltac:(vm_compute; reflexivity) n Hn) as H.
    cbv beta in H. apply shade_in_spec in H as (z & E & Hz).
    exists z. split; [exact E | lia].
Qed.

Section Shades.
Context {platform : Platform}.

Lemma cast_u8_trunc f z : f32_trunc f = Some z -> 0 <= z <= 255 -> cast_u8 f = z.
Proof.
  intros E H. unfold cast_u8. rewrite E.
  destruct (Z.leb_spec 0 z); [| lia]. destruct (Z.leb_spec z 255); [| lia].
  reflexivity.
Qed.

Lemma generate_gradient_shade x y st z :
  f32_gt (noise_scale st) (f32_of_Z 0) = false ->
  shade (gradient_switch x y (norm_x x) (norm_y y) st) (invert st) = Some z ->
  0 <= z <= 255 ->
  generate_gradient x y st = z.
Proof.
  intros Hn Hs Hz. unfold generate_gradient. apply cast_u8_trunc; [| exact Hz].
  unfold gradient_scaled, noise_overlay, clamp_invert. cbv zeta. rewrite Hn.
  exact Hs.
Qed.

(** X23. With the noise overlay off the linear gradients have closed
    forms on the screen: the horizontal one stores [255 * x / 128], the
    vertical one [255 * y / 64] and the diagonal one
    [255 * (x + 2 * y) / 256] (integer division), and inverted they store
    the same with [128 - x], [64 - y] and [256 - (x + 2 * y)]. *)
Theorem linear_gradients_closed_form (x y : Z) (st : GenerativeState) :
  0 <= x < Z.of_nat SCREEN_WIDTH -> 0 <= y < Z.of_nat SCREEN_HEIGHT ->
  f32_gt (noise_scale st) (f32_of_Z 0) = false ->
  (gradient_type st = 0 ->
   generate_gradient x y st
   = if invert st then 255 * (128 - x) / 128 else 255 * x / 128) /\
  (gradient_type st = 1 ->
   generate_gradient x y st
   = if invert st then 255 * (64 - y) / 64 else 255 * y / 64) /\
  (gradient_type st = 3 ->
   generate_gradient x y st
   = if invert st then 255 * (256 - (x + 2 * y)) / 256 else 255 * (x + 2 * y) / 256).
Proof.
  intros Hx Hy Hn.
  change (Z.of_nat SCREEN_WIDTH) with 128 in Hx.
  change (Z.of_nat SCREEN_HEIGHT) with 64 in Hy.
  assert (Hd : forall a b, 0 <= a <= b -> 0 < b -> 0 <= 255 * a / b <= 255).
  { intros a b Ha Hb. Z.to_euclidean_division_equations. nia. }
  split; [| split]; intros Hk.
  - apply (generate_gradient_shade x y st _ Hn).
    + unfold gradient_switch. rewrite Hk. apply shade_horizontal. exact Hx.
    + destruct (invert st); apply Hd; lia.
  - apply (generate_gradient_shade x y st _ Hn).
    + unfold gradient_switch. rewrite Hk. apply shade_vertical. exact Hy.
    + destruct (invert st); apply Hd; lia.
  - apply (generate_gradient_shade x y st _ Hn).
    + unfold gradient_switch. rewrite Hk. apply shade_diagonal; [exact Hx | exact Hy].
    + destruct (invert st); apply Hd; lia.
Qed.

(** X24. With the noise overlay off the noise pattern (kind 8) stores the
    hash byte itself: dividing the byte by 255.0f, scaling by 255 and
    truncating gives the byte back, for every byte. Inverted, it stores 255
    minus the byte or one less: the rounding of [1.0f - value] can cost
    one level. *)
Theorem noise_pattern_exact (x y : Z) (st : GenerativeState) :
  gradient_type st = 8 ->
  f32_gt (noise_scale st) (f32_of_Z 0) = false ->
  let n := simple_noise x y (seed st) in
  (invert st = false -> generate_gradient x y st = n) /\
  (invert st = true ->
   254 - n <= generate_gradient x y st <= 255 - n /\ 0 <= generate_gradient x y st).
Proof.
  intros Hk Hn n. pose proof (simple_noise_range x y (seed st)) as Hr. fold n in Hr.
  destruct (shade_noise n Hr) as (E0 & z & E1 & Hz).
  split; intros Hi.
  - apply (generate_gradient_shade x y st _ Hn); [| lia].
    unfold gradient_switch. rewrite Hk, Hi. exact E0.
  - assert (E : generate_gradient x y st = z).
    { apply (generate_gradient_shade x y st _ Hn); [| lia].
      unfold gradient_switch. rewrite Hk, Hi. exact E1. }
    rewrite E. lia.
Qed.

End Shades.

(** * The cosine wave and the noise overlay *)

Lemma f32_of_Z_16 : f32_of_Z 16 = S754_finite false (2 ^ 23) (-19).
Proof. vm_compute. reflexivity. Qed.

Lemma format32_236 : format32 15482880 (-16).
Proof. unfold format32. vm_compute. repeat split; congruence. Qed.

Lemma format32_252 : format32 16531456 (-16).
Proof. unfold format32. vm_compute. repeat split; congruence. Qed.

(** Adding 16 to a value of at most 236.25 gives at most 252.25. *)
Lemma add_16_range_le a :
  range_le a 15482880 (-16) ->
  range_le (f32_add a (f32_of_Z 16)) 16531456 (-16).
Proof.
  rewrite f32_of_Z_16.
  destruct a as [s|s| |[] m e]; cbn [range_le]; try contradiction.
  - intros _. cbn. unfold vle. vm_compute. discriminate.
  - intros Ha. unfold f32_add, SFadd. cbn [cond_Zopp]. set (ez := Z.min e (-19)).
    destruct (shl_align_spec m e ez) as [_ H1].
    destruct (shl_align_spec (2 ^ 23) (-19) ez) as [_ H2].
    rewrite H1, H2.
    replace (Z.min e ez) with ez by (unfold ez; lia).
    replace (Z.min (-19) ez) with ez by (unfold ez; lia).
    pose proof (pow2_pos (e - ez) ltac:(unfold ez; lia)) as Hpe.
    pose proof (pow2_pos (-19 - ez) ltac:(unfold ez; lia)) as Hpc.
    apply (vle_scaled _ _ _ _ ez) in Ha; [| unfold ez; lia ..].
    replace (-16 - ez) with ((-19 - ez) + 3) in Ha by lia.
    rewrite Z.pow_add_r in Ha by (unfold ez; lia).
    destruct (Zpos m * 2 ^ (e - ez) + Zpos (2 ^ 23) * 2 ^ (-19 - ez)) as [|p|p] eqn:EN;
      try lia.
    cbn [binary_normalize]. apply below_range_le.
    apply binary_round_below; [unfold ez; lia | exact format32_252 |].
    apply (vle_unscaled _ _ _ _ ez); [lia | unfold ez; lia |].
    rewrite Z.sub_diag, Z.pow_0_r, Z.mul_1_r, <- EN.
    replace (-16 - ez) with ((-19 - ez) + 3) by lia.
    rewrite Z.pow_add_r by (unfold ez; lia).
    change (Zpos (2 ^ 23)) with 8388608. change (2 ^ 3) with 8 in *. lia.
Qed.

Lemma frequency_of_low d : range_le (frequency_of d) 15 (-2).
Proof.
  pose proof (forallb_range
    (fun r => range_leb (frequency_of r) 15 (-2)) 100
    ltac:(vm_compute; reflexivity) (d mod 100)
    ltac:(apply Z.mod_pos_bound; lia)) as H.
  cbv beta in H.
  assert (E : frequency_of (d mod 100) = frequency_of d)
    by (unfold frequency_of; rewrite Z.mod_mod by lia; reflexivity).
  rewrite E in H. apply range_leb_spec. exact H.
Qed.

Lemma noise_scale_of_mod d : noise_scale_of (d mod 50) = noise_scale_of d.
Proof. unfold noise_scale_of. rewrite Z.mod_mod by lia. reflexivity. Qed.

Lemma overlay_columns d x :
  0 <= x < Z.of_nat SCREEN_WIDTH ->
  trunc_leb (f32_mul (f32_of_Z x) (noise_scale_of d)) 6 = true.
Proof.
  intros Hx. rewrite <- (noise_scale_of_mod d).
  pose proof (forallb_range
    (fun d => forallb (fun x => trunc_leb (f32_mul (f32_of_Z x) (noise_scale_of d)) 6)
                      (map Z.of_nat (seq 0 SCREEN_WIDTH)))
    50 ltac:(vm_compute; reflexivity) (d mod 50)
    ltac:(apply Z.mod_pos_bound; lia)) as H.
  cbv beta in H.
  exact (forallb_range
    (fun x => trunc_leb (f32_mul (f32_of_Z x) (noise_scale_of (d mod 50))) 6)
    SCREEN_WIDTH H x Hx).
Qed.

Lemma overlay_rows d y :
  0 <= y < Z.of_nat SCREEN_HEIGHT ->
  trunc_leb (f32_mul (f32_of_Z y) (noise_scale_of d)) 3 = true.
Proof.
  intros Hy. rewrite <- (noise_scale_of_mod d).
  pose proof (forallb_range
    (fun d => forallb (fun y => trunc_leb (f32_mul (f32_of_Z y) (noise_scale_of d)) 3)
                      (map Z.of_nat (seq 0 SCREEN_HEIGHT)))
    50 ltac:(vm_compute; reflexivity) (d mod 50)
    ltac:(apply Z.mod_pos_bound; lia)) as H.
  cbv beta in H.
  exact (forallb_range
    (fun y => trunc_leb (f32_mul (f32_of_Z y) (noise_scale_of (d mod 50))) 3)
    SCREEN_HEIGHT H y Hy).
Qed.

Lemma overlay_default x y :
  0 <= x < Z.of_nat SCREEN_WIDTH -> 0 <= y < Z.of_nat SCREEN_HEIGHT ->
  trunc_leb (f32_mul (f32_of_Z x) (f32_lit 5 100)) 6 = true /\
  trunc_leb (f32_mul (f32_of_Z y) (f32_lit 5 100)) 3 = true.
Proof.
  intros Hx Hy. split.
  - exact (forallb_range
      (fun x => trunc_leb (f32_mul (f32_of_Z x) (f32_lit 5 100)) 6)
      SCREEN_WIDTH ltac:(vm_compute; reflexivity) x Hx).
  - exact (forallb_range
      (fun y => trunc_leb (f32_mul (f32_of_Z y) (f32_lit 5 100)) 3)
      SCREEN_HEIGHT ltac:(vm_compute; reflexivity) y Hy).
Qed.

Section Cosine.
Context {platform : Platform}.

Lemma press_right_iter (n : nat) tick st :
  Nat.iter n (input_callback tick (press InputKeyRight)) st
  = with_frequency st (Nat.iter n frequency_up (frequency st)).
Proof.
  induction n as [|n IH].
  - destruct st. reflexivity.
  - rewrite !Nat.iter_succ, IH. reflexivity.
Qed.

Lemma reachable_presses (n : nat) tick ev st :
  reachable st -> reachable (Nat.iter n (input_callback tick ev) st).
Proof.
  intros H. induction n as [|n IH]; [exact H |].
  rewrite Nat.iter_succ. apply reachable_input. exact IH.
Qed.

Lemma cosine_angle_at_four y :
  60 <= y < 64 -> f32_trunc (cosine_angle y (f32_of_Z 4)) = Some (4 * y + 16).
Proof.
  intros Hy.
  assert (H : y = 60 \/ y = 61 \/ y = 62 \/ y = 63) by lia.
  destruct H as [-> | [-> | [-> | ->]]]; vm_compute; reflexivity.
Qed.

(** X19. The conversion of the cosine wave (kind 5) can be undefined. At
    frequency 4.0f, the cap of the Right key, the float converted to the
    angle has integral part [4 * y + 16], which for the rows 60..63 is
    above 255: the conversion to [uint8_t] is out of range there and the
    angle is whatever the platform makes of it. *)
Theorem cosine_cast_overflow (x y : Z) (st : GenerativeState) :
  gradient_type st = 5 -> frequency st = f32_of_Z 4 -> 60 <= y < 64 ->
  let angle := cosine_angle y (frequency st) in
  gradient_switch x y (norm_x x) (norm_y y) st
  = f32_div (f32_of_Z (fast_sin (cast_u8 angle) + 64)) (f32_of_Z 128) /\
  f32_trunc angle = Some (4 * y + 16) /\
  ~ cast_u8_defined angle /\
  cast_u8 angle = u8 (u8_of_float_unrepresentable angle).
Proof.
  intros Hk Hf Hy angle.
  assert (Ht : f32_trunc angle = Some (4 * y + 16)).
  { unfold angle. rewrite Hf. exact (cosine_angle_at_four y Hy). }
  split; [| split; [exact Ht | split]].
  - unfold gradient_switch. rewrite Hk. reflexivity.
  - intros (z & E & Hz). rewrite Ht in E. injection E as <-. lia.
  - unfold cast_u8. rewrite Ht.
    destruct (Z.leb_spec (4 * y + 16) 255); [lia |].
    rewrite andb_false_r. reflexivity.
Qed.

Lemma keys_to_cosine tick st0 :
  gradient_type st0 = 0 -> frequency st0 = f32_of_Z 1 ->
  let st :=
    Nat.iter 31 (input_callback tick (press InputKeyRight))
      (Nat.iter 5 (input_callback tick (press InputKeyUp)) st0) in
  gradient_type st = 5 /\ frequency st = f32_of_Z 4.
Proof.
  intros Hg Hf st. unfold st. rewrite press_right_iter, press_up_iter.
  cbn [gradient_type frequency with_frequency with_gradient_type].
  rewrite Hg, Hf. split; vm_compute; reflexivity.
Qed.

Lemma alloc_defaults tick raster :
  gradient_type (flipper_gen_app_alloc tick raster) = 0 /\
  frequency (flipper_gen_app_alloc tick raster) = f32_of_Z 1.
Proof.
  destruct (startup_quiet 1 tick raster ltac:(lia)) as [Hp _].
  unfold flipper_gen_app_alloc.
  rewrite (frames_S 0 (initial_state tick raster)) in Hp.
  change (frames 0 (initial_state tick raster)) with (initial_state tick raster) in Hp.
  revert Hp. generalize (generate_frame (initial_state tick raster)). intros st' Hp.
  unfold parameters in Hp.
  cbn [initial_state seed gradient_type frequency noise_scale invert] in Hp.
  injection Hp as _ Hg Hf _ _. split; assumption.
Qed.

(** X20. A state in which that conversion is undefined is reachable from
    start-up with keys alone: five presses of Up select the cosine wave and
    31 presses of Right bring the frequency from 1.0f to exactly 4.0f. *)
Theorem cosine_overflow_reachable (tick : Z) (raster : list Z) :
  let st :=
    Nat.iter 31 (input_callback tick (press InputKeyRight))
      (Nat.iter 5 (input_callback tick (press InputKeyUp))
         (flipper_gen_app_alloc tick raster)) in
  reachable st /\ gradient_type st = 5 /\ frequency st = f32_of_Z 4 /\
  (forall y, 60 <= y < 64 -> ~ cast_u8_defined (cosine_angle y (frequency st))).
Proof.
  intros st.
  assert (Hr : reachable st).
  { unfold st. do 2 apply reachable_presses.
    unfold flipper_gen_app_alloc. apply reachable_frame, reachable_initial. }
  destruct (alloc_defaults tick raster) as [Hg Hf].
  destruct (keys_to_cosine tick (flipper_gen_app_alloc tick raster) Hg Hf) as [Ek Ef].
  fold st in Ek, Ef. clearbody st.
  split; [exact Hr |]. split; [exact Ek |]. split; [exact Ef |].
  intros y Hy (z & Et & Hz). rewrite Ef, (cosine_angle_at_four y Hy) in Et.
  injection Et as <-. lia.
Qed.

(** X21. The conversion of the cosine wave is defined whenever the
    frequency is at most 3.75: the converted float is then at most 252.25
    on every row of the screen. Every frequency an evolution tick or a
    press of OK sets is in that range. *)
Theorem cosine_cast_defined (y : Z) (f : float) :
  0 <= y < Z.of_nat SCREEN_HEIGHT -> range_le f 15 (-2) ->
  cast_u8_defined (cosine_angle y f) /\
  (forall d, range_le (frequency_of d) 15 (-2)).
Proof.
  intros Hy Hf. split; [| exact frequency_of_low].
  destruct (scaled_rows y Hy) as (Y64 & _ & _).
  assert (H : range_le (f32_mul (f32_mul (norm_y y) (f32_of_Z 64)) f) 15482880 (-16)).
  { apply (f32_mul_range_le _ f 63 0 15 (-2));
      [exact Y64 | exact Hf | exact format32_236 | vm_compute; discriminate |].
    unfold vle. vm_compute. discriminate. }
  apply add_16_range_le in H.
  apply (range_le_weaken _ _ _ 253 0) in H; [| unfold vle; vm_compute; discriminate].
  destruct (range_le_trunc _ 253 ltac:(lia) H) as (z & E & Hz).
  exists z. split; [exact E | lia].
Qed.

(** ** The cells of the noise overlay *)

Lemma noise_scale_origin st :
  reachable st ->
  noise_scale st = f32_lit 5 100 \/ exists d, noise_scale st = noise_scale_of d.
Proof.
  induction 1 as [tick raster|st _ IH|tick ev st _ IH].
  - left. reflexivity.
  - destruct (Z.eq_dec (u8 (frame_count st + 1) mod 30) 0) as [Ht|Ht].
    + right. destruct (generate_frame_tick_frequency st Ht) as [_ E].
      eexists. exact E.
    + pose proof (generate_frame_quiet st Ht) as Hp.
      revert Hp. generalize (generate_frame st). intros st' Hp.
      unfold parameters in Hp. injection Hp as _ _ _ Hn _. rewrite Hn. exact IH.
  - destruct (input_callback_frame tick ev st) as (_ & En & _). rewrite En. exact IH.
Qed.

(** X22. The noise overlay samples a coarse lattice. In every reachable
    state and at every pixel of the screen the two coordinates handed to
    [simple_noise] are integers in 0..6 and 0..3, and both conversions to
    [uint32_t] are defined: the overlay has at most 7 by 4 cells. *)
Theorem overlay_lattice (x y : Z) (st : GenerativeState) :
  reachable st ->
  0 <= x < Z.of_nat SCREEN_WIDTH -> 0 <= y < Z.of_nat SCREEN_HEIGHT ->
  exists cx cy,
    f32_trunc (f32_mul (f32_of_Z x) (noise_scale st)) = Some cx /\
    f32_trunc (f32_mul (f32_of_Z y) (noise_scale st)) = Some cy /\
    0 <= cx <= 6 /\ 0 <= cy <= 3 /\
    cast_u32 (f32_mul (f32_of_Z x) (noise_scale st)) = cx /\
    cast_u32 (f32_mul (f32_of_Z y) (noise_scale st)) = cy.
Proof.
  intros Hr Hx Hy.
  assert (H : trunc_leb (f32_mul (f32_of_Z x) (noise_scale st)) 6 = true /\
              trunc_leb (f32_mul (f32_of_Z y) (noise_scale st)) 3 = true).
  { destruct (noise_scale_origin st Hr) as [-> | [d ->]].
    - exact (overlay_default x y Hx Hy).
    - split; [exact (overlay_columns d x Hx) | exact (overlay_rows d y Hy)]. }
  destruct H as [H1 H2].
  apply trunc_leb_spec in H1 as (cx & E1 & Hc1).
  apply trunc_leb_spec in H2 as (cy & E2 & Hc2).
  exists cx, cy. split; [exact E1 |]. split; [exact E2 |].
  split; [exact Hc1 |]. split; [exact Hc2 |].
  unfold cast_u32. rewrite E1, E2.
  destruct (Z.leb_spec 0 cx); [| lia]. destruct (Z.ltb_spec cx (2 ^ 32)); [| lia].
  destruct (Z.leb_spec 0 cy); [| lia]. destruct (Z.ltb_spec cy (2 ^ 32)); [| lia].
  split; reflexivity.
Qed.

End Cosine.

(** * Symmetry, linearity and the period of the evolution *)

Lemma float_eqb_eq a b : float_eqb a b = true -> a = b.
Proof.
  destruct a as [s|s| |s m e], b as [t|t| |t n f]; cbn [float_eqb];
    try discriminate; try reflexivity.
  - intros H. apply Bool.eqb_prop in H. now subst.
  - intros H. apply Bool.eqb_prop in H. now subst.
  - intros H. apply andb_prop in H as [H H3]. apply andb_prop in H as [H1 H2].
    apply Bool.eqb_prop in H1. apply Z.eqb_eq in H2, H3.
    injection H2 as ->. now subst.
Qed.

Lemma square_x_mirror x :
  1 <= x <= 127 -> square_x (128 - x) = square_x x.
Proof.
  intros Hx. apply float_eqb_eq.
  pose proof (forallb_range
    (fun x => if 1 <=? x then float_eqb (square_x (128 - x)) (square_x x) else true)
    128 ltac:(vm_compute; reflexivity) x ltac:(lia)) as H.
  cbv beta in H. destruct (Z.leb_spec 1 x); [exact H | lia].
Qed.

Lemma square_y_mirror y :
  1 <= y <= 63 -> square_y (64 - y) = square_y y.
Proof.
  intros Hy. apply float_eqb_eq.
  pose proof (forallb_range
    (fun y => if 1 <=? y then float_eqb (square_y (64 - y)) (square_y y) else true)
    64 ltac:(vm_compute; reflexivity) y ltac:(lia)) as H.
  cbv beta in H. destruct (Z.leb_spec 1 y); [exact H | lia].
Qed.

(** X25. [xorshift32] is linear over the bits: the output for the
    exclusive or of two states is the exclusive or of the two outputs. *)
Theorem xorshift32_linear (a b : Z) :
  fst (xorshift32 (Z.lxor a b))
  = Z.lxor (fst (xorshift32 a)) (fst (xorshift32 b)) /\
  snd (xorshift32 (Z.lxor a b))
  = Z.lxor (snd (xorshift32 a)) (snd (xorshift32 b)).
Proof.
  rewrite !xorshift32_steps. cbn [fst snd].
  rewrite xor_shl_lxor, xor_shr_lxor, xor_shl_lxor. split; reflexivity.
Qed.

Section Symmetry.
Context {platform : Platform}.

Lemma radial_switch x y st :
  gradient_type st = 2 ->
  gradient_switch x y (norm_x x) (norm_y y) st
  = f32_mul (sqrtf (f32_add (square_x x) (square_y y))) (f32_lit 1414 1000).
Proof. intros Hk. unfold gradient_switch. rewrite Hk. reflexivity. Qed.

Lemma generate_gradient_switch_ext x1 y1 x2 y2 st :
  f32_gt (noise_scale st) (f32_of_Z 0) = false ->
  gradient_switch x1 y1 (norm_x x1) (norm_y y1) st
  = gradient_switch x2 y2 (norm_x x2) (norm_y y2) st ->
  generate_gradient x1 y1 st = generate_gradient x2 y2 st.
Proof.
  intros Hn E. unfold generate_gradient, gradient_scaled, noise_overlay.
  cbv zeta. rewrite Hn.
  fold (norm_x x1). fold (norm_y y1). fold (norm_x x2). fold (norm_y y2).
  rewrite E. reflexivity.
Qed.

(** X26. With the noise overlay off the radial pattern (kind 2) is
    symmetric about the centre column 64 and the centre row 32: the pixel
    [(128 - x, y)] and the pixel [(x, 64 - y)] get the value of [(x, y)]. *)
Theorem radial_symmetric (x y : Z) (st : GenerativeState) :
  gradient_type st = 2 ->
  f32_gt (noise_scale st) (f32_of_Z 0) = false ->
  1 <= x <= 127 -> 1 <= y <= 63 ->
  generate_gradient (128 - x) y st = generate_gradient x y st /\
  generate_gradient x (64 - y) st = generate_gradient x y st /\
  generate_gradient (128 - x) (64 - y) st = generate_gradient x y st.
Proof.
  intros Hk Hn Hx Hy.
  repeat split; apply (generate_gradient_switch_ext _ _ _ _ st Hn);
    rewrite !(radial_switch _ _ st Hk),
      ?(square_x_mirror x Hx), ?(square_y_mirror y Hy); reflexivity.
Qed.

(** ** The evolution repeats *)

Lemma evolve_seed st r : seed (fst (evolve st r)) = seed st.
Proof.
  unfold evolve, bind, draw, ret.
  repeat match goal with
         | |- context [xorshift32 ?x] => destruct (xorshift32 x)
         | |- context [if ?b then _ else _] => destruct b
         end; reflexivity.
Qed.

Lemma evolve_parameters_seed st : seed (fst (evolve_parameters st)) = seed st.
Proof.
  unfold evolve_parameters. cbv zeta.
  destruct (_ =? 0); [| reflexivity].
  rewrite evolve_seed. reflexivity.
Qed.

Lemma generate_frame_seed st : seed (generate_frame st) = seed st.
Proof.
  rewrite generate_frame_unfold, evolve_parameters_seed.
  destruct (filled_same st) as (Hp & _ & _).
  revert Hp. generalize (filled st). intros st' Hp.
  unfold parameters in Hp. injection Hp as Hs _ _ _ _. exact Hs.
Qed.

Lemma frames_seed (n : nat) st : seed (frames n st) = seed st.
Proof.
  induction n as [|n IH]; [reflexivity |].
  rewrite frames_S, generate_frame_seed. exact IH.
Qed.

(** X27. No frame changes the seed, so the evolution repeats itself: the
    stream of a tick is seeded with the seed plus the counter, and the
    counter comes back every 256 frames. The frequency and the noise scale
    set by a tick are set again, to the same values, by the tick 256
    frames later. *)
Theorem evolution_repeats (n : nat) (st : GenerativeState) :
  is_byte (frame_count st) ->
  u8 (frame_count st + Z.of_nat n + 1) mod 30 = 0 ->
  seed (frames n st) = seed st /\
  frequency (generate_frame (frames (256 + n) st))
  = frequency (generate_frame (frames n st)) /\
  noise_scale (generate_frame (frames (256 + n) st))
  = noise_scale (generate_frame (frames n st)).
Proof.
  intros Hb Ht. split; [apply frames_seed |].
  assert (Hc : frame_count (frames (256 + n) st) = frame_count (frames n st)).
  { rewrite !(frames_frame_count _ st Hb). unfold u8.
    replace (frame_count st + Z.of_nat (256 + n))
      with (frame_count st + Z.of_nat n + 1 * 2 ^ 8) by lia.
    apply Z.mod_add. lia. }
  assert (Hs : seed (frames (256 + n) st) = seed (frames n st)).
  { rewrite !frames_seed. reflexivity. }
  assert (Ht1 : u8 (frame_count (frames n st) + 1) mod 30 = 0).
  { rewrite (frames_frame_count n st Hb).
    replace 1 with (0 + 1) at 1 by lia. rewrite u8_succ. rewrite <- Ht.
    do 2 f_equal. lia. }
  assert (Ht2 : u8 (frame_count (frames (256 + n) st) + 1) mod 30 = 0).
  { rewrite Hc. exact Ht1. }
  revert Hc Hs Ht1 Ht2.
  generalize (frames (256 + n) st). generalize (frames n st).
  intros s1 s2 Hc Hs Ht1 Ht2.
  destruct (generate_frame_tick_frequency s1 Ht1) as [F1 N1].
  destruct (generate_frame_tick_frequency s2 Ht2) as [F2 N2].
  rewrite F1, F2, N1, N2, Hc, Hs. split; reflexivity.
Qed.

End Symmetry.

(** * The frame counter at the end of its range *)

Section Counter.
Context {platform : Platform}.

(** The number of draws of the evolution step says whether a frame is a
    tick: at least four on a tick, none otherwise. *)
Lemma evolve_parameters_draws st :
  (u8 (frame_count st + 1) mod 30 = 0 ->
   (4 <= rng_draws (snd (evolve_parameters st)))%nat) /\
  (u8 (frame_count st + 1) mod 30 <> 0 ->
   rng_draws (snd (evolve_parameters st)) = 0%nat).
Proof.
  split; intros H.
  - rewrite (evolve_parameters_tick st H), evolve_run.
    destruct (_ <? 20); cbn [snd rng_draws]; lia.
  - unfold evolve_parameters. cbv zeta. cbn [frame_count seed with_frame_count].
    destruct (Z.eqb_spec (u8 (frame_count st + 1) mod 30) 0); [contradiction |].
    reflexivity.
Qed.

Lemma frame_draws st :
  (u8 (frame_count st + 1) mod 30 = 0 ->
   (4 <= rng_draws (snd (evolve_parameters (filled st))))%nat) /\
  (u8 (frame_count st + 1) mod 30 <> 0 ->
   rng_draws (snd (evolve_parameters (filled st))) = 0%nat).
Proof.
  destruct (filled_same st) as (_ & Hf & _).
  revert Hf. generalize (filled st). intros st' Hf.
  rewrite <- Hf. apply evolve_parameters_draws.
Qed.

Lemma wrap_at_255 st :
  frame_count st = 255 ->
  frame_count (generate_frame st) = 0 /\
  ~ (frame_count st < frame_count (generate_frame st)) /\
  (4 <= rng_draws (snd (evolve_parameters (filled st))))%nat.
Proof.
  intros H.
  assert (E : frame_count (generate_frame st) = 0).
  { rewrite generate_frame_frame_count, H. reflexivity. }
  split; [exact E |]. split; [rewrite E, H; lia |].
  apply (proj1 (frame_draws st)). rewrite H. reflexivity.
Qed.

Lemma tick_into_240 st :
  frame_count st = 239 ->
  frame_count (generate_frame st) = 240 /\
  (4 <= rng_draws (snd (evolve_parameters (filled st))))%nat.
Proof.
  intros H. split.
  - rewrite generate_frame_frame_count, H. reflexivity.
  - apply (proj1 (frame_draws st)). rewrite H. reflexivity.
Qed.

Lemma quiet_after_240 st :
  240 <= frame_count st <= 254 ->
  rng_draws (snd (evolve_parameters (filled st))) = 0%nat.
Proof.
  intros H. apply (proj2 (frame_draws st)).
  unfold u8. Z.to_euclidean_division_equations. lia.
Qed.

Lemma reachable_frames (n : nat) st : reachable st -> reachable (frames n st).
Proof.
  intros H. induction n as [|n IH]; [exact H |].
  rewrite frames_S. apply reachable_frame. exact IH.
Qed.

Lemma startup_frame_count (k : nat) tick raster :
  (k <= 255)%nat -> frame_count (frames k (initial_state tick raster)) = Z.of_nat k.
Proof.
  intros Hk.
  assert (Hb : is_byte (frame_count (initial_state tick raster)))
    by (cbn; unfold is_byte; lia).
  rewrite (frames_frame_count k _ Hb).
  change (frame_count (initial_state tick raster)) with 0.
  unfold u8. Z.to_euclidean_division_equations. lia.
Qed.

(** C4. The claim fails on the code, and against the code's own comment
    "Change every 30 frames". [frame_count] is an 8-bit field: the 256th
    frame after start-up (no key pressed) finds it at 255 and takes it back
    to 0, so the counter is not greater after that call. The frame that
    takes the counter to 240 is an evolution tick, the fifteen frames after
    it are not, and the frame of the wrap is a tick again: 16 frames after
    the last one, not 30. *)
Theorem frame_count_wraps_after_255 (tick : Z) (raster : list Z) :
  let st0 := initial_state tick raster in
  frames 255 st0 = Nat.iter 254 timer_callback (flipper_gen_app_alloc tick raster) /\
  reachable (frames 255 st0) /\
  frame_count (frames 255 st0) = 255 /\
  frame_count (generate_frame (frames 255 st0)) = 0 /\
  ~ (frame_count (frames 255 st0) < frame_count (generate_frame (frames 255 st0))) /\
  frame_count (generate_frame (frames 239 st0)) = 240 /\
  (4 <= rng_draws (snd (evolve_parameters (filled (frames 239 st0)))))%nat /\
  (forall k : nat, (240 <= k <= 254)%nat ->
     rng_draws (snd (evolve_parameters (filled (frames k st0)))) = 0%nat) /\
  (4 <= rng_draws (snd (evolve_parameters (filled (frames 255 st0)))))%nat.
Proof.
  intros st0. subst st0.
  pose proof (startup_frame_count 255 tick raster ltac:(lia)) as H255.
  pose proof (startup_frame_count 239 tick raster ltac:(lia)) as H239.
  change (Z.of_nat 255) with 255 in H255. change (Z.of_nat 239) with 239 in H239.
  destruct (wrap_at_255 _ H255) as (W1 & W2 & W3).
  destruct (tick_into_240 _ H239) as (T1 & T2).
  split; [exact (eq_sym (timer_frames 254 tick raster)) |].
  split; [exact (reachable_frames 255 _ (reachable_initial tick raster)) |].
  split; [exact H255 |]. split; [exact W1 |]. split; [exact W2 |].
  split; [exact T1 |]. split; [exact T2 |]. split; [| exact W3].
  intros k Hk. apply quiet_after_240.
  rewrite (startup_frame_count k tick raster ltac:(lia)). lia.
Qed.

End Counter.


(** ** Closed instances *)

Lemma generate_frame_off_tick_witness :
  parameters (generate_frame (platform := example_platform) (state_at 42 0))
  = parameters (state_at 42 0).
Proof.
  assert (H : u8 (frame_count (state_at 42 0) + 1) mod 30 <> 0)
    by (vm_compute; discriminate).
  exact (proj2 (generate_frame_off_tick (platform := example_platform) (state_at 42 0) H)).
Defined.

(** With seed 0 the tick at frame 30 passes its first check and draws five
    times, the tick at frame 60 fails it and draws four times; at frame 30
    [frequency] is computed from the third draw, not from the second. *)
Lemma evolve_draw_count_not_fixed :
  rng_draws (snd (evolve_parameters (state_at 0 29))) = 5%nat /\
  rng_draws (snd (evolve_parameters (state_at 0 59))) = 4%nat /\
  frequency (fst (evolve_parameters (state_at 0 29))) = frequency_of (stream 30 3) /\
  frequency (fst (evolve_parameters (state_at 0 29))) <> frequency_of (stream 30 2) /\
  frequency (fst (evolve_parameters (state_at 0 59))) = frequency_of (stream 60 2) /\
  ~ (exists n : nat, forall st,
        u8 (frame_count st + 1) mod 30 = 0 ->
        rng_draws (snd (evolve_parameters st)) = n).
Proof.
  assert (H29 : rng_draws (snd (evolve_parameters (state_at 0 29))) = 5%nat)
    by (vm_compute; reflexivity).
  assert (H59 : rng_draws (snd (evolve_parameters (state_at 0 59))) = 4%nat)
    by (vm_compute; reflexivity).
  split; [exact H29|]. split; [exact H59|].
  split; [vm_compute; reflexivity|].
  split; [vm_compute; discriminate|].
  split; [vm_compute; reflexivity|].
  intros [n Hn].
  {
    pose proof (Hn (state_at 0 29) ltac:(vm_compute; reflexivity)) as Ha.
    pose proof (Hn (state_at 0 59) ltac:(vm_compute; reflexivity)) as Hb.
    congruence. }
Qed.

(** The 256th frame takes the counter from 255 back to 0. *)
Lemma frame_count_wraps :
  frame_count (generate_frame (platform := example_platform) (state_at 42 255)) = 0 /\
  ~ (frame_count (state_at 42 255)
     < frame_count (generate_frame (platform := example_platform) (state_at 42 255))).
Proof.
  rewrite generate_frame_frame_count. vm_compute. split; [reflexivity|discriminate].
Qed.

Lemma generate_frame_counter_witness :
  frame_count (generate_frame (platform := example_platform) (state_at 42 7)) = 8.
Proof.
  assert (H : 0 <= frame_count (state_at 42 7) < 2 ^ 8) by (change (0 <= 7 < 2 ^ 8); lia).
  exact (proj1 (generate_frame_counter (platform := example_platform) (state_at 42 7) H)).
Defined.

Lemma generate_frame_deterministic_witness :
  pixels (frames (H := example_platform) 3
            (initial_state 42 (replicate (SCREEN_WIDTH * SCREEN_HEIGHT) 0)))
  = pixels (frames (H := example_platform) 3
              (initial_state 42 (replicate (SCREEN_WIDTH * SCREEN_HEIGHT) 255))).
Proof.
  exact (proj1 (generate_frame_deterministic (platform := example_platform)
                  (initial_state 42 (replicate (SCREEN_WIDTH * SCREEN_HEIGHT) 0))
                  (initial_state 42 (replicate (SCREEN_WIDTH * SCREEN_HEIGHT) 255)) 2
                  eq_refl eq_refl
                  (length_replicate (SCREEN_WIDTH * SCREEN_HEIGHT) 0)
                  (length_replicate (SCREEN_WIDTH * SCREEN_HEIGHT) 255))).
Defined.

Lemma generate_frame_zero_stream_witness :
  gradient_type (generate_frame (platform := example_platform)
                   (state_at (2 ^ 32 - 30) 29)) = 0.
Proof.
  assert (Ht : u8 (frame_count (state_at (2 ^ 32 - 30) 29) + 1) mod 30 = 0)
    by (vm_compute; reflexivity).
  assert (Hz : (seed (state_at (2 ^ 32 - 30) 29)
                + u8 (frame_count (state_at (2 ^ 32 - 30) 29) + 1)) mod 2 ^ 32 = 0)
    by (vm_compute; reflexivity).
  exact (proj1 (proj2 (generate_frame_zero_stream (platform := example_platform)
                         (state_at (2 ^ 32 - 30) 29) Ht Hz))).
Defined.

Lemma generate_gradient_default_witness :
  generate_gradient (platform := example_platform) 5 7
    (with_gradient_type (state_at 42 0) 10)
  = generate_gradient (platform := example_platform) 5 7
      (with_gradient_type (with_gradient_type (state_at 42 0) 10) 0).
Proof.
  assert (H : gradient_type (with_gradient_type (state_at 42 0) 10) < 0 \/
              9 < gradient_type (with_gradient_type (state_at 42 0) 10))
    by (right; vm_compute; reflexivity).
  exact (proj2 (proj2 (generate_gradient_default (platform := example_platform) 5 7
                         (f32_of_Z 0) (f32_of_Z 0)
                         (with_gradient_type (state_at 42 0) 10) H))).
Defined.


Lemma example_platform_atan2f : atan2f_bounded (platform := example_platform).
Proof. intros a b _ _. exact I. Qed.

Lemma generate_gradient_byte_witness :
  exists z, 0 <= z <= 255 /\
            generate_gradient (platform := example_platform) 5 7 (state_at 42 0) = z.
Proof.
  destruct (generate_gradient_byte (platform := example_platform) 5 7 (state_at 42 0)
              example_platform_atan2f
              ltac:(unfold SCREEN_WIDTH; lia) ltac:(unfold SCREEN_HEIGHT; lia))
    as (_ & _ & z & _ & Hz & Hg).
  exists z. split; assumption.
Defined.

Lemma parameters_in_range_witness :
  in_closed (1 # 10) 4
    (frequency (generate_frame (platform := example_platform)
                  (initial_state 42 (replicate (SCREEN_WIDTH * SCREEN_HEIGHT) 0)))).
Proof.
  exact (proj1 (parameters_in_range (platform := example_platform) _
                  (reachable_frame _ (reachable_initial 42 _)))).
Defined.

(** ** Closed instances of the further properties *)

Ltac on_screen := split; [vm_compute; discriminate | vm_compute; reflexivity].

Lemma xorshift32_injective_witness :
  (fst (xorshift32 1) =? fst (xorshift32 2)) = false.
Proof.
  assert (H1 : 0 <= 1 < 2 ^ 32) by lia.
  assert (H2 : 0 <= 2 < 2 ^ 32) by lia.
  exact (proj1 (xorshift32_injective 1 2 H1 H2)).
Defined.

Lemma apply_dither_bytes_witness :
  Forall is_byte (apply_dither (replicate (SCREEN_WIDTH * SCREEN_HEIGHT) 200)).
Proof.
  assert (H : Forall is_byte (replicate (SCREEN_WIDTH * SCREEN_HEIGHT) 200)).
  { apply Forall_replicate. unfold is_byte. lia. }
  exact (proj2 (proj2 (apply_dither_bytes _ 0 0 H))).
Defined.

Lemma apply_dither_idempotent_witness :
  apply_dither (apply_dither (replicate (SCREEN_WIDTH * SCREEN_HEIGHT) 200))
  = apply_dither (replicate (SCREEN_WIDTH * SCREEN_HEIGHT) 200).
Proof.
  exact (proj1 (apply_dither_idempotent _
                  (length_replicate (SCREEN_WIDTH * SCREEN_HEIGHT) 200))).
Defined.

(** On a flat raster of 100s the pixel (1, 0) takes an error of 100 and
    hands out 43 + 18 + 31 + 6 = 98. *)
Lemma dither_pixel_conserves_witness :
  total (dither_pixel (replicate (SCREEN_WIDTH * SCREEN_HEIGHT) 100) 0 1)
  = total (replicate (SCREEN_WIDTH * SCREEN_HEIGHT) 100)
    - quantisation_error 100 + shares (quantisation_error 100).
Proof.
  assert (H1 : (0 < 1)%nat) by lia.
  assert (H2 : (1 + 1 < SCREEN_WIDTH)%nat) by (vm_compute; lia).
  assert (H3 : (0 + 1 < SCREEN_HEIGHT)%nat) by (vm_compute; lia).
  assert (Hb : forall v, v = 100 \/ v = 143 \/ v = 118 \/ v = 131 \/ v = 106 -> is_byte v)
    by (unfold is_byte; lia).
  exact (proj1 (dither_pixel_conserves
                  (replicate (SCREEN_WIDTH * SCREEN_HEIGHT) 100) 0 1 H1 H2 H3
                  (length_replicate (SCREEN_WIDTH * SCREEN_HEIGHT) 100)
                  (Hb 100 ltac:(tauto)) (Hb 143 ltac:(tauto)) (Hb 118 ltac:(tauto))
                  (Hb 131 ltac:(tauto)) (Hb 106 ltac:(tauto)))).
Defined.

Lemma generate_frame_raster_witness :
  Forall is_binary (pixels (generate_frame (platform := example_platform) (state_at 0 0))).
Proof.
  exact (proj1 (proj2 (proj2
    (generate_frame_raster (platform := example_platform) (state_at 0 0)
       (length_replicate (SCREEN_WIDTH * SCREEN_HEIGHT) 0))))).
Defined.

Lemma draw_callback_after_frame_witness :
  In (0%nat, 0%nat)
     (draw_callback (generate_frame (platform := example_platform) (state_at 0 0)))
  <-> px (pixels (generate_frame (platform := example_platform) (state_at 0 0)))
         (0 * SCREEN_WIDTH + 0) = 255.
Proof.
  assert (H1 : (0 < SCREEN_WIDTH)%nat) by (vm_compute; lia).
  assert (H2 : (0 < SCREEN_HEIGHT)%nat) by (vm_compute; lia).
  exact (proj1 (draw_callback_after_frame (platform := example_platform)
                  (state_at 0 0) 0 0
                  (length_replicate (SCREEN_WIDTH * SCREEN_HEIGHT) 0) H1 H2)).
Defined.

Lemma reachable_kind_witness :
  0 <= gradient_type (initial_state 0 []) <= 9.
Proof.
  exact (proj1 (reachable_kind (platform := example_platform) _
                  (reachable_initial 0 []))).
Defined.

Lemma frames_between_ticks_witness :
  frame_count (frames (H := example_platform) 3 (initial_state 0 []))
  = (frame_count (initial_state 0 []) + Z.of_nat 3) mod 256.
Proof.
  assert (H : is_byte (frame_count (initial_state 0 []))) by (cbn; unfold is_byte; lia).
  exact (proj1 (frames_between_ticks (platform := example_platform) 3
                  (initial_state 0 []) H)).
Defined.

Lemma startup_defaults_witness :
  parameters (Nat.iter 3 (timer_callback (platform := example_platform))
                (flipper_gen_app_alloc (platform := example_platform) 7 []))
  = (7, 0, f32_of_Z 1, f32_lit 5 100, false).
Proof.
  assert (H : (3 <= 28)%nat) by lia.
  exact (proj1 (startup_defaults (platform := example_platform) 3 7 [] H)).
Defined.

Lemma up_down_cycle_witness :
  input_callback 0 (press InputKeyDown)
    (input_callback 0 (press InputKeyUp) (initial_state 0 []))
  = initial_state 0 [].
Proof.
  assert (H : 0 <= gradient_type (initial_state 0 []) <= 9) by (cbn; lia).
  exact (proj1 (up_down_cycle 0 0 (initial_state 0 []) H)).
Defined.

Lemma ok_press_mod_100_witness :
  frequency (input_callback 5 (press InputKeyOk) (initial_state 0 []))
  = frequency (input_callback 105 (press InputKeyOk) (initial_state 1 [])).
Proof.
  assert (H : 5 mod 100 = 105 mod 100) by reflexivity.
  exact (proj2 (proj2 (proj2
    (ok_press_mod_100 5 105 (initial_state 0 []) (initial_state 1 []) H)))).
Defined.

Lemma wave_patterns_unit_range_witness :
  exists n,
    0 <= n <= 128 /\
    gradient_switch (platform := example_platform) 3 5 (norm_x 3) (norm_y 5)
      (with_gradient_type (initial_state 0 []) 6)
    = f32_div (f32_of_Z n) (f32_of_Z 128) /\
    unit_range (gradient_switch (platform := example_platform) 3 5 (norm_x 3) (norm_y 5)
                  (with_gradient_type (initial_state 0 []) 6)).
Proof.
  assert (H : gradient_type (with_gradient_type (initial_state 0 []) 6) = 4 \/
              gradient_type (with_gradient_type (initial_state 0 []) 6) = 5 \/
              gradient_type (with_gradient_type (initial_state 0 []) 6) = 6)
    by (right; right; reflexivity).
  exact (wave_patterns_unit_range (platform := example_platform) 3 5 (norm_x 3) (norm_y 5)
           (with_gradient_type (initial_state 0 []) 6) H).
Defined.

Lemma checkerboard_black_white_witness :
  generate_gradient (platform := example_platform) 3 5
    (with_noise_scale (with_gradient_type (initial_state 0 []) 7) (f32_of_Z 0)) = 0 \/
  generate_gradient (platform := example_platform) 3 5
    (with_noise_scale (with_gradient_type (initial_state 0 []) 7) (f32_of_Z 0)) = 255.
Proof.
  assert (H : f32_gt (noise_scale
                        (with_noise_scale (with_gradient_type (initial_state 0 []) 7)
                           (f32_of_Z 0)))
                     (f32_of_Z 0) = false) by (vm_compute; reflexivity).
  exact (proj2 (checkerboard_black_white (platform := example_platform) 3 5
                  (with_noise_scale (with_gradient_type (initial_state 0 []) 7)
                     (f32_of_Z 0))
                  eq_refl H)).
Defined.

Lemma pattern_casts_defined_witness :
  cast_u8_defined
    (f32_mul (f32_mul (norm_x 127) (f32_of_Z 64)) (frequency (initial_state 0 []))).
Proof.
  assert (Hx : 0 <= 127 < Z.of_nat SCREEN_WIDTH) by on_screen.
  assert (Hy : 0 <= 63 < Z.of_nat SCREEN_HEIGHT) by on_screen.
  exact (proj1 (pattern_casts_defined (platform := example_platform) 127 63
                  (initial_state 0 []) (reachable_initial 0 []) Hx Hy)).
Defined.

Lemma cosine_cast_overflow_witness :
  f32_trunc
    (cosine_angle 63
       (frequency (with_frequency (with_gradient_type (initial_state 0 []) 5)
                     (f32_of_Z 4))))
  = Some (4 * 63 + 16).
Proof.
  assert (Hy : 60 <= 63 < 64) by lia.
  exact (proj1 (proj2
    (cosine_cast_overflow (platform := example_platform) 0 63
       (with_frequency (with_gradient_type (initial_state 0 []) 5) (f32_of_Z 4))
       eq_refl eq_refl Hy))).
Defined.

Lemma cosine_cast_defined_witness :
  cast_u8_defined (cosine_angle 63 (f32_of_Z 1)).
Proof.
  assert (Hy : 0 <= 63 < Z.of_nat SCREEN_HEIGHT) by on_screen.
  assert (Hf : range_le (f32_of_Z 1) 15 (-2)) by (vm_compute; discriminate).
  exact (proj1 (cosine_cast_defined 63 (f32_of_Z 1) Hy Hf)).
Defined.

Lemma overlay_lattice_witness :
  exists cx cy,
    f32_trunc (f32_mul (f32_of_Z 127) (noise_scale (initial_state 0 []))) = Some cx /\
    f32_trunc (f32_mul (f32_of_Z 63) (noise_scale (initial_state 0 []))) = Some cy /\
    0 <= cx <= 6 /\ 0 <= cy <= 3 /\
    cast_u32 (platform := example_platform)
      (f32_mul (f32_of_Z 127) (noise_scale (initial_state 0 []))) = cx /\
    cast_u32 (platform := example_platform)
      (f32_mul (f32_of_Z 63) (noise_scale (initial_state 0 []))) = cy.
Proof.
  assert (Hx : 0 <= 127 < Z.of_nat SCREEN_WIDTH) by on_screen.
  assert (Hy : 0 <= 63 < Z.of_nat SCREEN_HEIGHT) by on_screen.
  exact (overlay_lattice (platform := example_platform) 127 63
           (initial_state 0 []) (reachable_initial 0 []) Hx Hy).
Defined.

Lemma linear_gradients_closed_form_witness :
  generate_gradient (platform := example_platform) 64 10
    (with_noise_scale (initial_state 0 []) (f32_of_Z 0))
  = 255 * 64 / 128.
Proof.
  assert (Hx : 0 <= 64 < Z.of_nat SCREEN_WIDTH) by on_screen.
  assert (Hy : 0 <= 10 < Z.of_nat SCREEN_HEIGHT) by on_screen.
  assert (Hn : f32_gt (noise_scale (with_noise_scale (initial_state 0 []) (f32_of_Z 0)))
                      (f32_of_Z 0) = false) by (vm_compute; reflexivity).
  exact (proj1 (linear_gradients_closed_form (platform := example_platform) 64 10
                  (with_noise_scale (initial_state 0 []) (f32_of_Z 0)) Hx Hy Hn)
               eq_refl).
Defined.

Lemma noise_pattern_exact_witness :
  generate_gradient (platform := example_platform) 1 2
    (with_noise_scale (with_gradient_type (initial_state 9 []) 8) (f32_of_Z 0))
  = simple_noise 1 2 9.
Proof.
  assert (Hn : f32_gt (noise_scale
                         (with_noise_scale (with_gradient_type (initial_state 9 []) 8)
                            (f32_of_Z 0)))
                      (f32_of_Z 0) = false) by (vm_compute; reflexivity).
  exact (proj1 (noise_pattern_exact (platform := example_platform) 1 2
                  (with_noise_scale (with_gradient_type (initial_state 9 []) 8)
                     (f32_of_Z 0))
                  eq_refl Hn)
               eq_refl).
Defined.

Lemma radial_symmetric_witness :
  generate_gradient (platform := example_platform) (128 - 10) 20
    (with_noise_scale (with_gradient_type (initial_state 0 []) 2) (f32_of_Z 0))
  = generate_gradient (platform := example_platform) 10 20
      (with_noise_scale (with_gradient_type (initial_state 0 []) 2) (f32_of_Z 0)).
Proof.
  assert (Hn : f32_gt (noise_scale
                         (with_noise_scale (with_gradient_type (initial_state 0 []) 2)
                            (f32_of_Z 0)))
                      (f32_of_Z 0) = false) by (vm_compute; reflexivity).
  assert (Hx : 1 <= 10 <= 127) by lia.
  assert (Hy : 1 <= 20 <= 63) by lia.
  exact (proj1 (radial_symmetric (platform := example_platform) 10 20
                  (with_noise_scale (with_gradient_type (initial_state 0 []) 2)
                     (f32_of_Z 0))
                  eq_refl Hn Hx Hy)).
Defined.

Lemma evolution_repeats_witness :
  seed (frames (H := example_platform) 29 (initial_state 0 []))
  = seed (initial_state 0 []).
Proof.
  assert (Hb : is_byte (frame_count (initial_state 0 []))) by (cbn; unfold is_byte; lia).
  assert (Ht : u8 (frame_count (initial_state 0 []) + Z.of_nat 29 + 1) mod 30 = 0)
    by reflexivity.
  exact (proj1 (evolution_repeats (platform := example_platform) 29
                  (initial_state 0 []) Hb Ht)).
Defined.
